(** * WSRA safety pipeline: guardrails, scope, executor, observations

    A shallow embedding of the core of the repository
    (src/wsra/core/guardrails.py, scope.py, executor.py and models.py)
    and of its callers (src/wsra/repl.py, src/wsra/cli.py,
    src/wsra/core/ai_loop.py and the message store of src/wsra/core/ai.py),
    with the properties its specification states about it and further
    properties read off the code.

    Text.  A command, a path or a configuration string is a Python [str]
    whose code points lie below 256 ([str], a list of [ascii]: the
    Latin-1 range).  On that range the character classes the guardrails
    and the scope resolver use ([str.isspace], [str.lower], [\w], [\d])
    are tabulated exactly.  What a process prints is decoded from bytes
    and can hold any code point: it is a list of code points ([ustr]),
    and the classes of the redaction patterns and of [str.splitlines] are
    given on all of them.

    Library functions ([shlex.split], [re.findall], [re.sub],
    [bytes.decode]) are modelled by what they compute on the arguments
    the source gives them. *)

From Stdlib Require Import List Ascii String Strings.Byte Bool Arith NArith ZArith Lia.
From Stdlib Require Import DecimalString.
From Stdlib Require DecimalNat.
Import ListNotations.

Local Open Scope list_scope.

(** ** Text *)

Definition str := list ascii.

(** A literal of the source. *)
Definition L (s : string) : str := list_ascii_of_string s.

Definition code (c : ascii) : N := N_of_ascii c.

Definition in_range (lo hi : N) (c : ascii) : bool :=
  (N.leb lo (code c) && N.leb (code c) hi)%bool.

Definition str_eqb (a b : str) : bool :=
  if list_eq_dec ascii_dec a b then true else false.

Lemma str_eqb_eq (a b : str) : str_eqb a b = true <-> a = b.
Proof.
  unfold str_eqb. destruct (list_eq_dec ascii_dec a b); split; congruence.
Qed.

Lemma str_eqb_refl (a : str) : str_eqb a a = true.
Proof. now apply str_eqb_eq. Qed.

(** [x in xs] for a list or a set of strings. *)
Definition mem (x : str) (xs : list str) : bool := existsb (str_eqb x) xs.

Lemma mem_In (x : str) (xs : list str) : mem x xs = true <-> In x xs.
Proof.
  unfold mem. rewrite existsb_exists. split.
  - intros [y [Hy He]]. apply str_eqb_eq in He. now subst.
  - intros H. exists x. split; [assumption | apply str_eqb_refl].
Qed.

(** [str.isspace] on one character: TAB..CR, FS..US, space, NEL, NBSP. *)
Definition py_isspace (c : ascii) : bool :=
  (in_range 9 13 c || in_range 28 32 c
   || N.eqb (code c) 133 || N.eqb (code c) 160)%bool.

Definition is_upper (c : ascii) : bool := in_range 65 90 c.
Definition is_lower (c : ascii) : bool := in_range 97 122 c.
Definition is_digit (c : ascii) : bool := in_range 48 57 c.
Definition is_alpha (c : ascii) : bool := (is_upper c || is_lower c)%bool.

(** [str.lower] on one character: A-Z, and the Latin-1 capitals
    U+00C0..U+00DE except the multiplication sign U+00D7. *)
Definition lower_char (c : ascii) : ascii :=
  if (is_upper c
      || (in_range 192 222 c && negb (N.eqb (code c) 215)))%bool
  then ascii_of_N (code c + 32) else c.

Definition lower (s : str) : str := map lower_char s.

Fixpoint lstrip (s : str) : str :=
  match s with
  | c :: r => if py_isspace c then lstrip r else s
  | [] => []
  end.

Definition rstrip (s : str) : str := rev (lstrip (rev s)).

(** [str.strip()] *)
Definition strip (s : str) : str := rstrip (lstrip s).

Fixpoint startswith (p s : str) : bool :=
  match p, s with
  | [], _ => true
  | a :: p', b :: s' => if ascii_dec a b then startswith p' s' else false
  | _ :: _, [] => false
  end.

Definition endswith (suf s : str) : bool := startswith (rev suf) (rev s).

(** [p in s] for strings: [p] occurs in [s] as a substring. *)
Fixpoint contains (p s : str) : bool :=
  if startswith p s then true
  else match s with
       | [] => false
       | _ :: s' => contains p s'
       end.

Definition nonempty (s : str) : bool :=
  match s with [] => false | _ => true end.

Definition nonempty_list {A : Type} (l : list A) : bool :=
  match l with [] => false | _ => true end.

(** [str.split()] with no argument: the maximal runs of non-space
    characters.  [cur] is the run being read. *)
Fixpoint split_ws_aux (cur : str) (s : str) : list str :=
  match s with
  | [] => if nonempty cur then [cur] else []
  | c :: r =>
      if py_isspace c
      then (if nonempty cur then cur :: split_ws_aux [] r
            else split_ws_aux [] r)
      else split_ws_aux (cur ++ [c]) r
  end.

Definition split_ws (s : str) : list str := split_ws_aux [] s.

(** ** shlex.split (POSIX mode, whitespace_split, no comment characters)

    The token reader of the standard library, as the state machine it is:
    [' '] between tokens, ['a'] inside a word, a quote state per quote
    character, and the escape state with the state to come back to.
    Reaching the end of the input inside a quote or after a backslash is
    the [ValueError] of the library ([None] here). *)

Inductive esc_back := BackWord | BackQuote (q : ascii).

Inductive lex_state :=
| LWs
| LWord
| LQuote (q : ascii)
| LEsc (back : esc_back).

Definition shlex_whitespace (c : ascii) : bool :=
  (N.eqb (code c) 32 || N.eqb (code c) 9
   || N.eqb (code c) 13 || N.eqb (code c) 10)%bool.

Definition is_quote (c : ascii) : bool :=
  (N.eqb (code c) 39 || N.eqb (code c) 34)%bool.

Definition is_backslash (c : ascii) : bool := N.eqb (code c) 92.
Definition is_dquote (c : ascii) : bool := N.eqb (code c) 34.

Fixpoint shlex_run (st : lex_state) (tok : str) (quoted : bool)
    (acc : list str) (s : str) : option (list str) :=
  match s with
  | [] =>
      match st with
      | LWs => Some (rev acc)
      | LWord => Some (rev (if (nonempty tok || quoted)%bool
                            then tok :: acc else acc))
      | LQuote _ => None
      | LEsc _ => None
      end
  | c :: r =>
      match st with
      | LWs =>
          if shlex_whitespace c then shlex_run LWs [] false acc r
          else if is_backslash c then shlex_run (LEsc BackWord) [] false acc r
          else if is_quote c then shlex_run (LQuote c) [] true acc r
          else shlex_run LWord [c] false acc r
      | LWord =>
          if shlex_whitespace c then
            (if (nonempty tok || quoted)%bool
             then shlex_run LWs [] false (tok :: acc) r
             else shlex_run LWs [] false acc r)
          else if is_quote c then shlex_run (LQuote c) tok true acc r
          else if is_backslash c then shlex_run (LEsc BackWord) tok quoted acc r
          else shlex_run LWord (tok ++ [c]) quoted acc r
      | LQuote q =>
          if ascii_dec c q then shlex_run LWord tok true acc r
          else if (is_backslash c && is_dquote q)%bool
               then shlex_run (LEsc (BackQuote q)) tok true acc r
               else shlex_run (LQuote q) (tok ++ [c]) true acc r
      | LEsc back =>
          match back with
          | BackWord => shlex_run LWord (tok ++ [c]) quoted acc r
          | BackQuote q =>
              if (negb (is_backslash c) && negb (if ascii_dec c q then true else false))%bool
              then shlex_run (LQuote q) (tok ++ ["\"%char; c]) quoted acc r
              else shlex_run (LQuote q) (tok ++ [c]) quoted acc r
          end
      end
  end.

Definition shlex_split (s : str) : option (list str) :=
  shlex_run LWs [] false [] s.

(** ** Guardrail classifier (src/wsra/core/guardrails.py) *)

Inductive Risk := low | medium.

Definition LOW_READONLY_BINARIES : list str :=
  map L ["echo"; "cat"; "head"; "tail"; "ls"; "stat"; "file"; "strings";
         "sha256sum"; "curl"; "wget"; "dig"; "nslookup"; "whois";
         "openssl"]%string.

Definition DENY_PATTERNS : list str :=
  map L ["rm -rf"; "mkfs"; "dd of=/dev"; "reboot"; "shutdown";
         "nc -e"; "bash -i >&"; "chmod -R 777 /"]%string.

(** The first pattern of the list that occurs in [txt]: the [for] loop
    with its early [return]. *)
Fixpoint first_denied (pats : list str) (txt : str) : option str :=
  match pats with
  | [] => None
  | pat :: rest =>
      if contains pat txt then Some pat else first_denied rest txt
  end.

(** The head token: [shlex.split], and on its [ValueError] plain
    whitespace splitting. *)
Definition head_token (cmd : str) : str :=
  match shlex_split cmd with
  | Some parts => hd [] parts
  | None => hd [] (split_ws cmd)
  end.

Definition classify_and_check (cmd : str) : Risk * bool * str :=
  let txt := lower (strip cmd) in
  match first_denied DENY_PATTERNS txt with
  | Some pat => (medium, false, L "Denied pattern: " ++ pat)
  | None =>
      let head := head_token cmd in
      if mem head [L "curl"] then
        if (contains (L " -I") cmd || contains (L " --head") cmd)%bool
        then (low, true, L "curl with --head/-I (metadata only)")
        else (medium, false,
              L "curl without --head/-I is not read-only safe by default")
      else if mem head [L "wget"] then
        if contains (L " --spider") cmd
        then (low, true, L "wget --spider (metadata only)")
        else (medium, false,
              L "wget without --spider is not read-only safe by default")
      else if mem head LOW_READONLY_BINARIES then
        (low, true, head ++ L " considered read-only (MVP allowlist)")
      else
        (medium, false,
         (if nonempty head then head else L "command")
           ++ L " requires approval")
  end.


(** ** Regular expressions ([re]), the fragment the source uses

    Every pattern of the source is a sequence of single characters,
    greedy counted repetitions of a character class, word boundaries and
    (unnested) groups.  The matcher is the backtracking one of [re]: a
    greedy repetition takes as many characters as it can and gives them
    back one at a time while the rest of the pattern fails. *)

Module Re.

Section Engine.
Context {char : Type}.

Inductive item :=
| One (p : char -> bool)                        (* a character of a class *)
| Many (p : char -> bool) (lo : nat) (hi : option nat) (* p{lo,hi}, greedy *)
| Bnd (w : char -> bool)                        (* \b, for the word class w *)
| Open                                          (* ( *)
| Close.                                        (* ) *)

Definition pattern := list item.

Definition class_opt (w : char -> bool) (o : option char) : bool :=
  match o with Some c => w c | None => false end.

(** The number of leading characters of [s] in the class, at most [hi]. *)
Fixpoint span (p : char -> bool) (hi : option nat) (s : list char) : nat :=
  match hi with
  | Some 0 => 0
  | _ =>
      match s with
      | c :: r =>
          if p c
          then S (span p (match hi with Some (S h) => Some h | _ => None end) r)
          else 0
      | [] => 0
      end
  end.

(** The character before offset [j] of [s], [prev] when [j = 0]. *)
Definition prev_after (prev : option char) (s : list char) (j : nat)
    : option char :=
  match j with
  | 0 => prev
  | S j' => nth_error s j'
  end.

(** [k], [k-1], ..., [lo]: the lengths a greedy repetition tries. *)
Fixpoint countdown (lo k : nat) : list nat :=
  if k <? lo then []
  else match k with
       | 0 => [0]
       | S k' => k :: countdown lo k'
       end.

Fixpoint first_some {A B : Type} (f : A -> option B) (l : list A)
    : option B :=
  match l with
  | [] => None
  | x :: r => match f x with Some y => Some y | None => first_some f r end
  end.

(** [rmatch its prev s n marks]: match [its] at the front of [s], where
    [prev] is the character before [s], [n] the offset from the start
    of the match and [marks] the group boundaries passed so far (latest
    first).  The result is the length of the match and its marks. *)
Fixpoint rmatch (its : pattern) (prev : option char) (s : list char)
    (n : nat) (marks : list nat) : option (nat * list nat) :=
  match its with
  | [] => Some (n, marks)
  | One p :: r =>
      match s with
      | c :: s' => if p c then rmatch r (Some c) s' (S n) marks else None
      | [] => None
      end
  | Many p lo hi :: r =>
      first_some
        (fun j => rmatch r (prev_after prev s j) (skipn j s) (n + j) marks)
        (countdown lo (span p hi s))
  | Bnd w :: r =>
      if xorb (class_opt w prev) (class_opt w (hd_error s))
      then rmatch r prev s n marks else None
  | Open :: r => rmatch r prev s n (n :: marks)
  | Close :: r => rmatch r prev s n (n :: marks)
  end.

(** Group [k] (from 1) of a match at the front of [s]. *)
Definition group (k : nat) (marks : list nat) (s : list char) : list char :=
  let ms := rev marks in
  let a := nth (2 * (k - 1)) ms 0 in
  let b := nth (2 * (k - 1) + 1) ms 0 in
  firstn (b - a) (skipn a s).

Section Scan.
Variable pat : pattern.
(** What a match at the front of [s] contributes: the replacement
    text for [re.sub], the item for [re.findall]. *)
Variable A : Type.
Variable on_match : nat -> list nat -> list char -> A.

(** The non-overlapping matches from left to right.  [skip] counts
    the characters of the last match still to pass; a character no
    match starts at is reported as [inr]. *)
Fixpoint scan (skip : nat) (prev : option char) (s : list char)
    : list (A + char) :=
  match skip with
  | S k =>
      match s with
      | c :: s' => scan k (Some c) s'
      | [] => []
      end
  | 0 =>
      match rmatch pat prev s 0 [] with
      | Some (n, marks) =>
          inl (on_match n marks s) ::
          match s with
          | c :: s' =>
              match n with
              | 0 => inr c :: scan 0 (Some c) s'
              | S k => scan k (Some c) s'
              end
          | [] => []
          end
      | None =>
          match s with
          | c :: s' => inr c :: scan 0 (Some c) s'
          | [] => []
          end
      end
  end.
End Scan.

(** [re.findall]: group 1 when the pattern has a group, else the match. *)
Definition has_group (pat : pattern) : bool :=
  existsb (fun i => match i with Open => true | _ => false end) pat.

Definition findall (pat : pattern) (s : list char) : list (list char) :=
  let pick n marks s :=
    if has_group pat then group 1 marks s else firstn n s in
  flat_map (fun x => match x with inl m => [m] | inr _ => [] end)
           (scan pat (list char) pick 0 None s).

(** [re.sub] with a template that is group 1 (when [keep1]) followed
    by a fixed text. *)
Definition sub (pat : pattern) (keep1 : bool) (fixed : list char)
    (s : list char) : list char :=
  let repl (n : nat) marks s :=
    (if keep1 then group 1 marks s else []) ++ fixed in
  flat_map (fun x => match x with inl m => m | inr c => [c] end)
           (scan pat (list char) repl 0 None s).
End Engine.

Arguments item : clear implicits.
Arguments pattern : clear implicits.

End Re.

Definition eqc (a : ascii) : ascii -> bool :=
  fun x => if ascii_dec x a then true else false.

Definition lit (s : string) : Re.pattern ascii :=
  map (fun c => Re.One (eqc c)) (L s).

(** [\w] on Latin-1: letters, digits, the underscore, and the
    alphanumeric characters of the upper half. *)
Definition is_word (c : ascii) : bool :=
  (is_alpha c || is_digit c || N.eqb (code c) 95
   || N.eqb (code c) 170 || in_range 178 179 c || N.eqb (code c) 181
   || in_range 185 186 c || in_range 188 190 c
   || in_range 192 214 c || in_range 216 246 c || in_range 248 255 c)%bool.

(** ** Data model (src/wsra/models.py) *)

Record Scope := mkScope {
  cidrs : list str;
  domains : list str;
  hosts : list str;
  paths : list str;
  out_of_scope : list str
}.

Record ROE := mkROE {
  rate_limit_per_sec : option Z;
  time_window : option (str * str);
  no_touch : list str;
  notes : option str
}.

(** [mode] is a string in the source ([Literal] of four values); the
    authorizer compares it with the literals and has a last branch for
    any other value. *)
Record SessionConfig := mkSessionConfig {
  authorization_doc : str;
  scope : Scope;
  roe : ROE;
  mode : str;
  output_dir : str;
  kill_switch : str
}.

Definition PLAN_ONLY : str := L "PLAN_ONLY".
Definition EXECUTE_WITH_APPROVAL : str := L "EXECUTE_WITH_APPROVAL".
Definition AUTO_READONLY : str := L "AUTO_READONLY".
Definition SIMULATE : str := L "SIMULATE".

(** ** Results and exceptions

    A function of the source returns a value or raises.  An exception is
    named by its class; [WriteEncodeError] is the [UnicodeEncodeError]
    that [write_text] raises when the encoding of the locale cannot
    encode the text. *)

Inductive Exn :=
| ValueError
| TypeError
| OSError
| RuntimeError
| ProcessLookupError
| UnicodeDecodeError
| WriteEncodeError.

Inductive Result (A : Type) :=
| Returned (a : A)
| Raised (e : Exn).
Arguments Returned {A} a.
Arguments Raised {A} e.

(** A text with a NUL character in it: no path and no argument of a
    process can hold one. *)
Definition has_nul (s : str) : bool := existsb (fun c => N.eqb (code c) 0) s.

(** ** Scope resolver (src/wsra/core/scope.py) *)

Definition host_char (c : ascii) : bool :=
  (is_alpha c || is_digit c || eqc "." c || eqc "-" c)%bool.

Definition dot : Re.item ascii := Re.One (eqc ".").

(** [\b(?:(?:\d{1,3}\.){3}\d{1,3})\b], the counted group written out. *)
Definition IP_RE : Re.pattern ascii :=
  [Re.Bnd is_word;
   Re.Many is_digit 1 (Some 3); dot;
   Re.Many is_digit 1 (Some 3); dot;
   Re.Many is_digit 1 (Some 3); dot;
   Re.Many is_digit 1 (Some 3);
   Re.Bnd is_word].

(** [\b([a-zA-Z0-9.-]+\.[a-zA-Z]{2,})\b] *)
Definition HOST_RE : Re.pattern ascii :=
  [Re.Bnd is_word; Re.Open;
   Re.Many host_char 1 None; dot; Re.Many is_alpha 2 None;
   Re.Close; Re.Bnd is_word].

(** [https?://([a-zA-Z0-9.-]+\.[a-zA-Z]{2,})] *)
Definition URL_RE : Re.pattern ascii :=
  lit "http" ++ [Re.Many (eqc "s") 0 (Some 1)] ++ lit "://" ++
  [Re.Open; Re.Many host_char 1 None; dot; Re.Many is_alpha 2 None; Re.Close].

(** A Python [set] of strings: a duplicate-free list.  The source only
    asks such a set whether it is empty, whether something belongs to it
    and whether some element satisfies a test, none of which depends on
    the order. *)
Definition to_set (l : list str) : list str := nodup (list_eq_dec ascii_dec) l.

Definition _extract_targets (cmd : str) : list str :=
  to_set (flat_map (fun pat => Re.findall pat cmd) [URL_RE; HOST_RE; IP_RE]).

Definition _extract_paths (cmd : str) : list str :=
  let tokens := match shlex_split cmd with
                | Some ts => ts
                | None => split_ws cmd
                end in
  to_set (filter (startswith (L "/")) tokens).

(** The file system as the resolver sees it: [Path(p).resolve()]
    followed by [str].  The call raises for a path it cannot resolve: a
    [ValueError] for a path with a NUL in it, for one. *)
Record FileSystem := mkFS { resolve : str -> Result str }.

(** The reasons of the resolver, with their data in place of the
    formatted text (the text prints Python sets, whose order is not
    fixed). *)
Inductive ScopeReason :=
| TargetOutOfScope (hit : list str)        (* targets & disallowed *)
| NoTargetAllowed (targets : list str)
| PathNotAllowed (ap : str) (roots : list str)
| InScope.

Definition target_allowed (sc : Scope) (t : str) : bool :=
  (existsb (fun allow => (str_eqb allow t || endswith (L "." ++ allow) t)%bool)
           (domains sc)
   || mem t (hosts sc))%bool.

(** [[Path(p).resolve() for p in ps]], from left to right. *)
Fixpoint resolve_all (fs : FileSystem) (ps : list str) : Result (list str) :=
  match ps with
  | [] => Returned []
  | p :: r =>
      match resolve fs p with
      | Raised e => Raised e
      | Returned rp =>
          match resolve_all fs r with
          | Raised e => Raised e
          | Returned rs => Returned (rp :: rs)
          end
      end
  end.

(** The [for ap in abs_paths] loop: the first path that is under no
    allowed root, unless resolving a path raises before one is found.
    The paths are taken in the order of the command (the order of a
    Python set is not fixed). *)
Fixpoint first_bad_path (fs : FileSystem) (roots : list str)
    (abs_paths : list str) : Result (option str) :=
  match abs_paths with
  | [] => Returned None
  | ap :: r =>
      match resolve fs ap with
      | Raised e => Raised e
      | Returned rp =>
          if negb (existsb (fun root => startswith root rp) roots)
          then Returned (Some ap)
          else first_bad_path fs roots r
      end
  end.

(** The [if targets:] block: its early [return], if it takes one. *)
Definition check_targets (sc : Scope) (targets : list str)
    : option ScopeReason :=
  if nonempty_list targets then
    let disallowed := to_set (out_of_scope sc) in
    if existsb (fun t => mem t disallowed) targets
    then Some (TargetOutOfScope (filter (fun t => mem t disallowed) targets))
    else if negb (existsb (target_allowed sc) targets)
    then Some (NoTargetAllowed targets)
    else None
  else None.

(** The allowed roots are resolved only when the command names an
    absolute path ([if abs_paths:]). *)
Definition in_scope_command (fs : FileSystem) (cfg : SessionConfig) (cmd : str)
    : Result (bool * ScopeReason) :=
  let targets := _extract_targets cmd in
  match check_targets (scope cfg) targets with
  | Some why => Returned (false, why)
  | None =>
      let abs_paths := _extract_paths cmd in
      if nonempty_list abs_paths then
        match resolve_all fs (paths (scope cfg)) with
        | Raised e => Raised e
        | Returned allowed_roots =>
            match first_bad_path fs allowed_roots abs_paths with
            | Raised e => Raised e
            | Returned (Some ap) =>
                Returned (false, PathNotAllowed ap (paths (scope cfg)))
            | Returned None => Returned (true, InScope)
            end
        end
      else Returned (true, InScope)
  end.

(** ** Mode authorizer (src/wsra/core/guardrails.py) *)

(** The reason of a decision: the text of the source, the scope reason
    kept as data. *)
Inductive Reason :=
| Text (s : str)
| OutOfScope (why : ScopeReason).

(** Returns (allow_execute, needs_approval, reason); an exception of
    the scope check is not caught. *)
Definition enforce (fs : FileSystem) (cfg : SessionConfig) (cmd : str)
    : Result (bool * bool * Reason) :=
  let '(risk, readonly_ok, why) := classify_and_check cmd in
  match in_scope_command fs cfg cmd with
  | Raised e => Raised e
  | Returned (scope_ok, scope_reason) =>
      Returned
        (if negb scope_ok then (false, true, OutOfScope scope_reason)
         else if mem (mode cfg) [PLAN_ONLY; SIMULATE]
         then (false, true,
               Text (L "Mode=" ++ mode cfg ++ L " forbids execution"))
         else if str_eqb (mode cfg) AUTO_READONLY then
           if (match risk with low => true | medium => false end
               && readonly_ok)%bool
           then (true, false, Text (L "Allowed in AUTO_READONLY: " ++ why))
           else (false, true,
                 Text (L "Needs approval in AUTO_READONLY: " ++ why))
         else if str_eqb (mode cfg) EXECUTE_WITH_APPROVAL
         then (false, true, Text (L "Approval required: " ++ why))
         else (false, true, Text (L "Unknown mode")))
  end.

Definition allow_execute (d : bool * bool * Reason) : bool := fst (fst d).
Definition needs_approval (d : bool * bool * Reason) : bool := snd (fst d).
Definition reason_of (d : bool * bool * Reason) : Reason := snd d.

(** ** Sample inputs *)

(** A configuration with the defaults of models.py around a scope and a mode. *)
Definition default_roe : ROE := mkROE None None [] None.

Definition config (sc : Scope) (m : str) : SessionConfig :=
  mkSessionConfig (L "authorized test") sc default_roe m (L "out")
                  (L "ABORT WSRA NOW").

Definition example_scope : Scope :=
  mkScope [] [L "example.com"] [] [L "."] [].

(** A file system without links, in which every path is its own
    resolution. *)
Definition plain_fs : FileSystem := mkFS (fun p => Returned p).

(** The same, with the [ValueError] of a path that holds a NUL. *)
Definition nul_fs : FileSystem :=
  mkFS (fun p => if has_nul p then Raised ValueError else Returned p).

(** [cat /tmp/] followed by a NUL. *)
Definition cat_nul : str := L "cat /tmp/" ++ [ascii_of_nat 0].

Definition risk_of (r : Risk * bool * str) : Risk := fst (fst r).
Definition read_only_ok (r : Risk * bool * str) : bool := snd (fst r).
Definition why_of (r : Risk * bool * str) : str := snd r.

Definition sub_example_com : str := L "sub.example.com".
Definition example_com : str := L "example.com".

(** Scopes that allow the parent domain, and the subdomain itself. *)
Definition sub_scope : Scope := mkScope [] [example_com] [] [L "."] [].
Definition exact_scope : Scope := mkScope [] [sub_example_com] [] [L "."] [].

Definition chmod_pattern : str := L "chmod -R 777 /".

(** ** Decoded text and UTF-8

    What a process prints is decoded from bytes and can hold any code
    point: such a text is a list of code points. *)

Definition ustr := list N.

(** A literal of the source, as decoded text. *)
Definition U (s : string) : ustr := map code (L s).

Module Utf8.

Local Open Scope N_scope.

(** The [errors] argument of [bytes.decode]. *)
Inductive errors := Strict | Ignore | Replace.

Definition replacement_char : N := 65533.   (* U+FFFD *)

(** A sequence under way: the continuation bytes still to come, the bits
    read so far, and the range the next byte must lie in (the second
    byte after E0, ED, F0 and F4 has a narrower one). *)
Record pending := mkPending { need : nat; acc : N; lo : N; hi : N }.

Inductive lead_class :=
| Single (cp : N)
| Start (p : pending)
| BadStart.

Definition lead (b : N) : lead_class :=
  if b <? 128 then Single b
  else if b <? 194 then BadStart                       (* 80..C1 *)
  else if b <? 224 then Start (mkPending 1%nat (N.land b 31) 128 191)
  else if b <? 240 then
    Start (mkPending 2%nat (N.land b 15)
                     (if b =? 224 then 160 else 128)
                     (if b =? 237 then 159 else 191))
  else if b <? 245 then
    Start (mkPending 3%nat (N.land b 7)
                     (if b =? 240 then 144 else 128)
                     (if b =? 244 then 143 else 191))
  else BadStart.                                       (* F5..FF *)

(** What the error handler does with an invalid sequence (whatever its
    length): fail, drop it, or put the replacement character. *)
Definition on_error (e : errors) (out : ustr) : option ustr :=
  match e with
  | Strict => None
  | Ignore => Some out
  | Replace => Some (out ++ [replacement_char])
  end.

(** The decoder, byte by byte.  A byte that cannot continue the sequence
    under way ends it as an error and is read again as a first byte. *)
Fixpoint decode_from (e : errors) (st : option pending) (out : ustr)
    (bs : list Byte.byte) : option ustr :=
  match bs with
  | [] =>
      match st with
      | None => Some out
      | Some _ => on_error e out            (* unexpected end of data *)
      end
  | b :: r =>
      let x := Byte.to_N b in
      let fresh (out : ustr) :=
        match lead x with
        | Single cp => decode_from e None (out ++ [cp]) r
        | Start p => decode_from e (Some p) out r
        | BadStart =>
            match on_error e out with
            | Some out' => decode_from e None out' r
            | None => None
            end
        end in
      match st with
      | None => fresh out
      | Some p =>
          if ((lo p <=? x) && (x <=? hi p))%bool then
            let a := N.lor (N.shiftl (acc p) 6) (N.land x 63) in
            match need p with
            | S (S k) => decode_from e (Some (mkPending (S k) a 128 191)) out r
            | _ => decode_from e None (out ++ [a]) r
            end
          else
            match on_error e out with   (* invalid continuation byte *)
            | Some out' => fresh out'
            | None => None
            end
      end
  end.

(** [bs.decode("utf-8", errors=e)]; [None] is [UnicodeDecodeError]. *)
Definition decode (e : errors) (bs : list Byte.byte) : option ustr :=
  decode_from e None [] bs.

(** The number of bytes of [c] in UTF-8; a surrogate or a value above
    U+10FFFF has none ([str.encode] raises). *)
Definition encoded_len (c : N) : option nat :=
  if c <? 128 then Some 1%nat
  else if c <? 2048 then Some 2%nat
  else if c <? 55296 then Some 3%nat
  else if c <? 57344 then None
  else if c <? 65536 then Some 3%nat
  else if c <? 1114112 then Some 4%nat
  else None.

(** [len(s.encode())] *)
Fixpoint encoded_size (s : ustr) : option nat :=
  match s with
  | [] => Some 0%nat
  | c :: r =>
      match encoded_len c, encoded_size r with
      | Some a, Some b => Some (a + b)%nat
      | _, _ => None
      end
  end.

End Utf8.

(** ** Executor (src/wsra/core/executor.py): redaction *)

(** [\s] on decoded text, which is [str.isspace]: the Latin-1 ones and
    U+1680, U+2000..U+200A, U+2028, U+2029, U+202F, U+205F, U+3000. *)
Definition u_space (c : N) : bool :=
  ((9 <=? c) && (c <=? 13) || (28 <=? c) && (c <=? 32)
   || (c =? 133) || (c =? 160) || (c =? 5760)
   || (8192 <=? c) && (c <=? 8202)
   || (c =? 8232) || (c =? 8233) || (c =? 8239) || (c =? 8287)
   || (c =? 12288))%bool%N.

(** [\S] *)
Definition u_nonspace (c : N) : bool := negb (u_space c).

(** A literal character of a pattern under [(?i)].  The literals of the
    source are lower-case ASCII letters and punctuation: such a letter
    matches itself and its capital, and [i], [s], [k] also match the
    code points that fold to them (U+0130 and U+0131, U+017F, U+212A). *)
Definition u_ci (a : N) (x : N) : bool :=
  ((x =? a)
   || ((97 <=? a) && (a <=? 122) && (x =? a - 32))
   || ((a =? 105) && ((x =? 304) || (x =? 305)))
   || ((a =? 115) && (x =? 383))
   || ((a =? 107) && (x =? 8490)))%bool%N.

Definition lit_ci (s : string) : Re.pattern N :=
  map (fun a => Re.One (u_ci a)) (U s).

(** [[A-Za-z0-9-_]] *)
Definition jwt_char (c : N) : bool :=
  ((65 <=? c) && (c <=? 90) || (97 <=? c) && (c <=? 122)
   || (48 <=? c) && (c <=? 57) || (c =? 45) || (c =? 95))%bool%N.

Definition u_dot : Re.item N := Re.One (N.eqb 46).

(** A redaction: the pattern, and the template as group 1 (or not)
    followed by a fixed text. *)
Definition redaction := (Re.pattern N * (bool * ustr))%type.

(** Case-insensitively, a first group of the key (followed by any
    number of [\s] when [spaces]) and a second group of one or more [\S];
    the template is group 1 followed by [REDACTED] in brackets. *)
Definition key_redaction (key : string) (spaces : bool) : redaction :=
  ([Re.Open] ++ lit_ci key
     ++ (if spaces then [Re.Many u_space 0 None] else [])
     ++ [Re.Close; Re.Open; Re.Many u_nonspace 1 None; Re.Close],
   (true, U "[REDACTED]")).

(** [([A-Za-z0-9-_]+\.[A-Za-z0-9-_]+\.[A-Za-z0-9-_]+)], replaced by
    [[JWT_REDACTED]]. *)
Definition jwt_redaction : redaction :=
  ([Re.Open; Re.Many jwt_char 1 None; u_dot; Re.Many jwt_char 1 None; u_dot;
    Re.Many jwt_char 1 None; Re.Close],
   (false, U "[JWT_REDACTED]")).

Definition REDACTIONS : list redaction :=
  [key_redaction "authorization:" true;
   key_redaction "password=" false;
   key_redaction "aws_secret_access_key=" false;
   jwt_redaction].

Definition apply_redaction (text : ustr) (r : redaction) : ustr :=
  Re.sub (fst r) (fst (snd r)) (snd (snd r)) text.

(** The [for pat, repl in REDACTIONS] loop. *)
Definition _redact (text : ustr) : ustr :=
  fold_left apply_redaction REDACTIONS text.

(** ** Executor: running one command *)

(** What becomes of a spawned process within the timeout.  When the
    wait times out the process is killed; [gone] says that it has ended
    by then, so that there is no process left to kill. *)
Inductive Outcome :=
| Exited (returncode : Z) (out err : list Byte.byte)
| TimedOut (gone : bool).

(** The host the executor runs on: spawning [argv] in [cwd] with a
    timeout ([None] when the host cannot start a process: an [OSError]
    of [create_subprocess_exec]), whether a file can be opened for
    writing, and whether the encoding of the locale can encode a text. *)
Record Host := mkHost {
  spawn : list str -> str -> nat -> option Outcome;
  writable : str -> bool;
  encodes : ustr -> bool
}.

(** What [run_command] does to the world, in order. *)
Inductive Effect :=
| Spawned (argv : list str) (cwd : str)
| Killed
| Wrote (path : str) (text : ustr).

Definition decimal (n : nat) : str :=
  L (NilEmpty.string_of_uint (Nat.to_uint n)).

Definition decimal_Z (z : Z) : str :=
  L (NilEmpty.string_of_int (Z.to_int z)).

(** *** Paths (pathlib)

    A pure POSIX path is a root (nothing, one slash, or two) and the
    parts between the slashes, without the empty ones and the dots. *)

Definition is_slash (c : ascii) : bool := N.eqb (code c) 47.

(** [s.split("/")]; [cur] is the piece being read. *)
Fixpoint split_slash (cur : str) (s : str) : list str :=
  match s with
  | [] => [cur]
  | c :: r =>
      if is_slash c then cur :: split_slash [] r
      else split_slash (cur ++ [c]) r
  end.

Fixpoint leading_slashes (s : str) : nat :=
  match s with
  | c :: r => if is_slash c then S (leading_slashes r) else 0
  | [] => 0
  end.

(** Exactly two leading slashes are kept as a root of their own. *)
Definition root_of (s : str) : str :=
  match leading_slashes s with
  | 0 => []
  | 2 => L "//"
  | _ => L "/"
  end.

Record PurePath := mkPurePath { path_root : str; path_parts : list str }.

(** [PurePosixPath(s)] *)
Definition PurePosixPath (s : str) : PurePath :=
  mkPurePath (root_of s)
    (filter (fun x => (nonempty x && negb (str_eqb x (L ".")))%bool)
            (split_slash [] s)).

(** [p / s]: a rooted [s] replaces [p]. *)
Definition truediv (p : PurePath) (s : str) : PurePath :=
  let q := PurePosixPath s in
  if nonempty (path_root q) then q
  else mkPurePath (path_root p) (path_parts p ++ path_parts q).

(** ["/".join(l)] *)
Fixpoint join_slash (l : list str) : str :=
  match l with
  | [] => []
  | [x] => x
  | x :: r => x ++ L "/" ++ join_slash r
  end.

(** [str(p)] *)
Definition path_str (p : PurePath) : str :=
  match path_root p ++ join_slash (path_parts p) with
  | [] => L "."
  | s => s
  end.

(** [a / b] for the path whose text is [a], as a text again. *)
Definition path_join (a b : str) : str :=
  path_str (truediv (PurePosixPath a) b).

(** [Path()], the current directory. *)
Definition empty_path : str := L ".".

Definition CommandResult := (Z * ustr * ustr * str * str)%type.


(** [errors="ignore"] cannot fail; the default keeps the function total. *)
Definition decode_ignore (bs : list Byte.byte) : ustr :=
  match Utf8.decode Utf8.Ignore bs with
  | Some s => s
  | None => []
  end.

(** [path.write_text(text)]: the file is opened, which empties it, then
    the text is encoded and written. *)
Definition write_text (h : Host) (path : str) (text : ustr)
    : option Exn * list Effect :=
  if negb (writable h path) then (Some OSError, [])
  else if negb (encodes h text) then (Some WriteEncodeError, [Wrote path []])
  else (None, [Wrote path text]).

(** [run_command].  [output_dir] is the text of the path
    ([str(cfg.output_dir)]).  No process is started for arguments or a
    directory with a NUL in them (a [ValueError]); a process that has
    ended when the timeout fires cannot be killed (the
    [ProcessLookupError] of [proc.kill()], which is not caught). *)
Definition run_command (h : Host) (cfg : SessionConfig) (block_id : str)
    (idx : nat) (cmd : str) (timeout : nat)
    : Result CommandResult * list Effect :=
  match shlex_split cmd with
  | None => (Raised ValueError, [])
  | Some [] => (Raised TypeError, [])
  | Some parts =>
      let cwd := output_dir cfg in
      if existsb has_nul (cwd :: parts) then (Raised ValueError, [])
      else
        match spawn h parts cwd timeout with
        | None => (Raised OSError, [])
        | Some (TimedOut gone) =>
            if gone then (Raised ProcessLookupError, [Spawned parts cwd])
            else (Returned (124%Z, [], U "Timeout", empty_path, empty_path),
                  [Spawned parts cwd; Killed])
        | Some (Exited returncode out err) =>
            let stdout := _redact (decode_ignore out) in
            let stderr := _redact (decode_ignore err) in
            let logs_dir :=
              truediv (PurePosixPath (output_dir cfg)) (L "logs") in
            let o := path_str
                       (truediv logs_dir
                          (block_id ++ L "_" ++ decimal idx ++ L ".out")) in
            let e := path_str
                       (truediv logs_dir
                          (block_id ++ L "_" ++ decimal idx ++ L ".err")) in
            match write_text h o stdout with
            | (Some x, effs) => (Raised x, Spawned parts cwd :: effs)
            | (None, effs) =>
                match write_text h e stderr with
                | (Some x, effs') =>
                    (Raised x, Spawned parts cwd :: effs ++ effs')
                | (None, effs') =>
                    (Returned (returncode, stdout, stderr, o, e),
                     Spawned parts cwd :: effs ++ effs')
                end
            end
        end
  end.

(** ** Executor: the observation of a block *)

Record Observation := mkObservation {
  block_id : str;
  exit_code : Z;
  key_lines : list ustr;
  bytes_out : nat;
  summary : str;
  log_paths : list str
}.

Definition rc_of (r : CommandResult) : Z :=
  let '(rc, _, _, _, _) := r in rc.
Definition stdout_of (r : CommandResult) : ustr :=
  let '(_, s, _, _, _) := r in s.

(** [max(xs, default=0)] *)
Definition max_default (xs : list Z) : Z :=
  match xs with
  | [] => 0%Z
  | x :: r => fold_left Z.max r x
  end.

(** The line boundaries of [str.splitlines]. *)
Definition u_linebreak (c : N) : bool :=
  ((10 <=? c) && (c <=? 13) || (28 <=? c) && (c <=? 30)
   || (c =? 133) || (c =? 8232) || (c =? 8233))%bool%N.

(** [str.splitlines()]: [cur] is the line being read, [after_cr] says
    that the last character was a carriage return, whose line feed
    belongs to the same boundary. *)
Fixpoint splitlines_aux (cur : ustr) (after_cr : bool) (s : ustr)
    : list ustr :=
  match s with
  | [] => match cur with [] => [] | _ => [cur] end
  | c :: r =>
      if (after_cr && (c =? 10)%N)%bool then splitlines_aux cur false r
      else if u_linebreak c then cur :: splitlines_aux [] (c =? 13)%N r
      else splitlines_aux (cur ++ [c]) false r
  end.

Definition splitlines (s : ustr) : list ustr := splitlines_aux [] false s.

(** [l[-n:]] for [n > 0] *)
Definition lastn {A : Type} (n : nat) (l : list A) : list A :=
  skipn (List.length l - n) l.

(** [sum(len(s.encode()) for ...)]; [None] when some text cannot be
    encoded. *)
Fixpoint total_size (l : list ustr) : option nat :=
  match l with
  | [] => Some 0
  | s :: r =>
      match Utf8.encoded_size s, total_size r with
      | Some a, Some b => Some (a + b)
      | _, _ => None
      end
  end.

Definition combined_output (all_results : list CommandResult) : ustr :=
  List.concat (map stdout_of all_results).

Definition extract (combined : ustr) : list ustr :=
  match combined with
  | [] => []
  | _ => firstn 20 (splitlines combined) ++ [U "..."]
         ++ lastn 10 (splitlines combined)
  end.

(** [make_observation]; [None] is the [UnicodeEncodeError] of the byte
    count.  A [Path] is always true, so both log paths of every result
    are listed.  The time stamp of the record is left out. *)
Definition make_observation (bid : str) (all_results : list CommandResult)
    : option Observation :=
  let exit_code := max_default (map rc_of all_results) in
  let combined := combined_output all_results in
  let key_lines := extract combined in
  match total_size (map stdout_of all_results) with
  | None => None
  | Some bytes_out =>
      let log_paths :=
        flat_map (fun r => let '(_, _, _, o, e) := r in [o; e]) all_results in
      let summary :=
        decimal (List.length all_results) ++ L " command(s), exit="
          ++ decimal_Z exit_code ++ L ", bytes=" ++ decimal bytes_out in
      Some (mkObservation bid exit_code key_lines bytes_out summary log_paths)
  end.

(** A text [str.encode] accepts: no surrogate, nothing above U+10FFFF. *)
Definition encodable (s : ustr) : bool :=
  forallb (fun c => ((c <? 55296) || (57344 <=? c) && (c <? 1114112))%bool%N) s.

(** A result with a given exit code and output, and its two log paths. *)
Definition sample_result (rc : Z) (out : string) : CommandResult :=
  (rc, U out, [], L "out/logs/b1_0.out", L "out/logs/b1_0.err").

(** A host on which every process outlives its timeout. *)
Definition slow_host : Host :=
  mkHost (fun _ _ _ => Some (TimedOut false)) (fun _ => true) (fun _ => true).

(** A host on which every process ends just as its timeout fires. *)
Definition racing_host : Host :=
  mkHost (fun _ _ _ => Some (TimedOut true)) (fun _ => true) (fun _ => true).




(** ** Rewriting with a front match

    [re.sub] for a pattern without word boundaries only looks forward:
    it is the rewriting below, where [mt s] is the match at the front of
    [s], as its length and the text that replaces it. *)

Definition front_match (pat : Re.pattern N) (keep1 : bool) (fixed : ustr)
    (s : ustr) : option (nat * ustr) :=
  match Re.rmatch pat None s 0 [] with
  | Some (n, marks) =>
      Some (n, (if keep1 then Re.group 1 marks s else []) ++ fixed)
  | None => None
  end.

Fixpoint rw_skip (mt : ustr -> option (nat * ustr)) (skip : nat) (s : ustr)
    : ustr :=
  match skip with
  | S k =>
      match s with
      | _ :: s' => rw_skip mt k s'
      | [] => []
      end
  | 0 =>
      match mt s with
      | Some (n, r) =>
          r ++ match s with
               | c :: s' =>
                   match n with
                   | 0 => c :: rw_skip mt 0 s'
                   | S k => rw_skip mt k s'
                   end
               | [] => []
               end
      | None =>
          match s with
          | c :: s' => c :: rw_skip mt 0 s'
          | [] => []
          end
      end
  end.

Definition rw (mt : ustr -> option (nat * ustr)) (s : ustr) : ustr :=
  rw_skip mt 0 s.

Definition no_bnd (pat : Re.pattern N) : bool :=
  forallb (fun i => match i with Re.Bnd _ => false | _ => true end) pat.

(** A front match is proper when it takes at least one character and no
    more than there are. *)
Definition proper (mt : ustr -> option (nat * ustr)) : Prop :=
  forall s n r, mt s = Some (n, r) -> 1 <= n <= List.length s.

(** A front match is stable at [v] when what it puts in place of its
    match at the front of [v] is that match itself; it is stable in a
    text when it is at every suffix of it. *)
Definition stable (mt : ustr -> option (nat * ustr)) (v : ustr) : Prop :=
  forall n r, mt v = Some (n, r) -> r = firstn n v.

Definition Stable (mt : ustr -> option (nat * ustr)) (t : ustr) : Prop :=
  forall u v, t = u ++ v -> stable mt v.

(** The lower-case letter or sign a code point stands for under [(?i)]. *)
Definition fold (c : N) : N :=
  if ((65 <=? c) && (c <=? 90))%bool%N then (c + 32)%N
  else if ((c =? 304) || (c =? 305))%bool%N then 105%N
  else if (c =? 383)%N then 115%N
  else if (c =? 8490)%N then 107%N
  else c.

(** The characters the keys of the redactions are written with:
    lower-case letters, the colon, the equals sign, the underscore. *)
Definition plain (a : N) : bool :=
  ((97 <=? a) && (a <=? 122) || (a =? 58) || (a =? 61) || (a =? 95))%bool%N.

(** The rest of [s] after the key [K], matched case-insensitively. *)
Fixpoint strip_key (K : ustr) (s : ustr) : option ustr :=
  match K with
  | [] => Some s
  | a :: K' =>
      match s with
      | c :: s' => if u_ci a c then strip_key K' s' else None
      | [] => None
      end
  end.

Definition REDACTED : ustr := U "[REDACTED]".
Definition JWT_REDACTED : ustr := U "[JWT_REDACTED]".

(** The front match of a key redaction, in closed form: the key, the
    spaces after it (when the pattern has them), and a run of one or
    more non-space characters. *)
Definition key_match (K : ustr) (sp : bool) (s : ustr) : option (nat * ustr) :=
  match strip_key K s with
  | None => None
  | Some rest =>
      let w := if sp then Re.span u_space None rest else 0 in
      let t := Re.span u_nonspace None (skipn w rest) in
      match t with
      | 0 => None
      | _ => Some (List.length K + w + t,
                   firstn (List.length K + w) s ++ REDACTED)
      end
  end.

(** Empty, or starting with a character outside the class [p]. *)
Definition stops (p : N -> bool) (rest : ustr) : Prop :=
  match rest with
  | [] => True
  | c :: _ => p c = false
  end.

Definition all (p : N -> bool) (s : ustr) : Prop := Forall (fun c => p c = true) s.

(** The end of a key pattern: the first group closes, the second is
    one or more non-space characters. *)
Definition key_tail : Re.pattern N :=
  [Re.Close; Re.Open; Re.Many u_nonspace 1 None; Re.Close].

(** [v] starts with a match of the key pattern: the key as [k], the
    spaces [ws], the run [tok], and [rest] after it. *)
Definition key_occ (K : ustr) (sp : bool) (v k ws tok rest : ustr) : Prop :=
  v = k ++ ws ++ tok ++ rest
  /\ map fold k = K
  /\ all u_space ws
  /\ (sp = false -> ws = [])
  /\ tok <> []
  /\ all u_nonspace tok
  /\ stops u_nonspace rest.

(** A character that can stand in a key. *)
Definition keychar (c : N) : bool := plain (fold c).

(** A key: not empty, written with plain characters. *)
Definition is_key (K : ustr) : Prop :=
  K <> [] /\ Forall (fun a => plain a = true) K.

(** [REDACTED] after its opening bracket. *)
Definition REDACTED_tail : ustr := U "REDACTED]".

(** [K] occurs in [J] at some place other than the front. *)
Definition occurs_inside (K J : ustr) : bool :=
  existsb (fun i =>
             if list_eq_dec N.eq_dec
                  (firstn (List.length K) (skipn (S i) J)) K
             then true else false)
          (seq 0 (List.length J)).

(** No character of the marker [m] stands for the last character of [K]. *)
Definition marker_avoids (K m : ustr) : Prop :=
  Forall (fun c => fold c <> last K 0%N) m.

(** A run of one or more token characters followed by a dot: its
    length with the dot, and the text after the dot. *)
Definition dotted_run (s : ustr) : option (nat * ustr) :=
  match Re.span jwt_char None s with
  | 0 => None
  | S a =>
      match skipn (S a) s with
      | d :: s1 => if (46 =? d)%N then Some (S a + 1, s1) else None
      | [] => None
      end
  end.

(** The front match of the token redaction, in closed form: three runs
    of token characters with a dot between them. *)
Definition jwt_match (s : ustr) : option (nat * ustr) :=
  match dotted_run s with
  | Some (n1, s1) =>
      match dotted_run s1 with
      | Some (n2, s2) =>
          match Re.span jwt_char None s2 with
          | 0 => None
          | S c => Some (n1 + n2 + S c, JWT_REDACTED)
          end
      | None => None
      end
  | None => None
  end.

(** [v] starts with three dotted runs [r1], [r2], [r3]. *)
Definition jwt_occ (v r1 r2 r3 rest : ustr) : Prop :=
  v = r1 ++ 46%N :: r2 ++ 46%N :: r3 ++ rest
  /\ r1 <> [] /\ r2 <> [] /\ r3 <> []
  /\ all jwt_char r1 /\ all jwt_char r2 /\ all jwt_char r3
  /\ stops jwt_char rest.

Definition JWT_REDACTED_tail : ustr := U "JWT_REDACTED]".

(** The keys of the three key redactions. *)
Definition key_authorization : ustr := U "authorization:".
Definition key_password : ustr := U "password=".
Definition key_aws : ustr := U "aws_secret_access_key=".

(** A code point [str.encode] accepts, as a proposition. *)
Definition validcp (c : N) : Prop :=
  (c < 55296 \/ (57344 <= c /\ c < 1114112))%N.

(** A sequence under way can only end in a valid code point: [n]
    continuation bytes to come, [acc] read so far, the next byte in
    [lo..hi]. *)
Fixpoint completes (n : nat) (acc lo hi : N) : Prop :=
  (128 <= lo)%N /\ (hi <= 191)%N
  /\ forall x, (lo <= x)%N -> (x <= hi)%N ->
       match n with
       | S (S _ as m) => completes m (acc * 64 + (x - 128)) 128 191
       | _ => validcp (acc * 64 + (x - 128))
       end.


(** The bytes of [ok], of an encoded surrogate (ED A0 80) and of a line
    feed. *)
Definition surrogate_bytes : list Byte.byte :=
  [x6f; x6b; xed; xa0; x80; x0a]%byte.

(** A host on which every process exits at once with status 0 and the
    given standard output, and every file can be written. *)
Definition quick_host (out : list Byte.byte) : Host :=
  mkHost (fun _ _ _ => Some (Exited 0 out [])) (fun _ => true)
         (fun _ => true).

(** The three key redactions as their keys and whether spaces may
    follow. *)
Definition KEYS : list (ustr * bool) :=
  [(key_authorization, true); (key_password, false); (key_aws, false)].

(** The characters a redaction can start from: the dot of a token, the
    colon and the equals sign a key ends with. *)
Definition redaction_sign (c : N) : bool :=
  ((c =? 46) || (c =? 58) || (c =? 61))%bool%N.



(** The argument vectors among the effects of [run_command]. *)
Definition spawns (effs : list Effect) : list (list str) :=
  flat_map (fun e => match e with Spawned argv _ => [argv] | _ => [] end) effs.

(** The files written among the effects of [run_command]. *)
Definition writes (effs : list Effect) : list str :=
  flat_map (fun e => match e with Wrote p _ => [p] | _ => [] end) effs.

(** The log of command [idx] of block [bid], with its extension. *)
Definition log_path (cfg : SessionConfig) (bid : str) (idx : nat) (ext : str)
    : str :=
  path_str (truediv (truediv (PurePosixPath (output_dir cfg)) (L "logs"))
                    (bid ++ L "_" ++ decimal idx ++ ext)).

(** ** The callers of the pipeline (src/wsra/repl.py, src/wsra/cli.py,
    src/wsra/core/ai_loop.py)

    A loaded session is its root directory and its configuration.  What
    the callers print on the console is left out; what they do to the
    world is the effects of [run_command], a line added to the
    assessment log, and a message added to the memory of the AI loop.
    The time stamp of an observation is an argument. *)

(** A command block (models.py); the preconditions, the rollback note
    and the time stamp, which no caller reads, are left out. *)
Record CommandBlock := mkCommandBlock {
  id : str;
  intent : str;
  scope_check : str;
  commands : list str;
  expected_observation : str;
  risk : Risk
}.

Inductive SessionEffect :=
| Ran (e : Effect)
| Appended (path : str) (line : str)
| Remembered (path : str) (role : str) (content : ustr) (block : str).

(** Why [exec] leaves with [SystemExit]. *)
Inductive ExitWhy :=
| NotApproved
| NoBlocksFile
| BlockNotFound
| NotAllowed (c : str) (reason : Reason).

Inductive Failure :=
| SystemExit (why : ExitWhy)
| Failed (e : Exn)
| UnicodeEncodeError
| BadBlocksFile.

Definition quote : ascii := ascii_of_nat 34.
Definition newline : ascii := ascii_of_nat 10.
Definition quoted (s : str) : str := quote :: s ++ [quote].

(** The line of the assessment log for an observation made at [ts]. *)
Definition log_line (ts : str) (obs : Observation) : str :=
  L "{" ++ quoted (L "ts") ++ L ":" ++ quoted ts
    ++ L "," ++ quoted (L "type") ++ L ":" ++ quoted (L "observation")
    ++ L "," ++ quoted (L "block_id") ++ L ":" ++ quoted (block_id obs)
    ++ L "," ++ quoted (L "exit_code") ++ L ":" ++ decimal_Z (exit_code obs)
    ++ L "," ++ quoted (L "bytes_out") ++ L ":" ++ decimal (bytes_out obs)
    ++ L "," ++ quoted (L "summary") ++ L ":" ++ quoted (summary obs)
    ++ L "}" ++ [newline].

Definition assessment_log (root : str) : str :=
  path_join root (L "assessment_log.jsonl").

(** Adding the line of [obs] to the assessment log, the last step of
    [_exec_single] and of [exec]. *)
Definition log_observation (h : Host) (root ts : str) (obs : Observation)
    (done : list SessionEffect) : (Failure + Observation) * list SessionEffect :=
  if writable h (assessment_log root)
  then (inr obs, done ++ [Appended (assessment_log root) (log_line ts obs)])
  else (inl (Failed OSError), done).

Module repl.

Definition ADHOC : str := L "ADHOC".

(** [_exec_single]: [inr None] when the command is not executed. *)
Definition _exec_single (h : Host) (fs : FileSystem) (root : str)
    (cfg : SessionConfig) (ts : str) (cmd : str) (block_id : str)
    : (Failure + option Observation) * list SessionEffect :=
  match enforce fs cfg cmd with
  | Raised e => (inl (Failed e), [])
  | Returned (allow, needs_approval, reason) =>
      if negb allow then (inr None, [])
      else
        match run_command h cfg block_id 0 cmd 20 with
        | (Raised e, effs) => (inl (Failed e), map Ran effs)
        | (Returned r, effs) =>
            match make_observation block_id [r] with
            | None => (inl UnicodeEncodeError, map Ran effs)
            | Some obs =>
                match log_observation h root ts obs (map Ran effs) with
                | (inl f, done) => (inl f, done)
                | (inr o, done) => (inr (Some o), done)
                end
            end
        end
  end.

End repl.

Module cli.

(** The files [exec] reads: which paths exist, and what
    [proposed_blocks.json] holds ([None] when it is not a list of
    blocks). *)
Record Files := mkFiles {
  exists_ : str -> bool;
  proposed : option (list CommandBlock)
}.

Definition _blocks_file (cfg : SessionConfig) : str :=
  path_join (output_dir cfg) (L "proposed_blocks.json").

(** [f"{i:03d}"]: the decimal digits, with zeros before them up to
    three characters. *)
Definition pad3 (i : nat) : str :=
  repeat "0"%char (3 - List.length (decimal i)) ++ decimal i.

(** [f"CB-{ts}-{i:03d}"] *)
Definition block_name (ts : str) (i : nat) : str :=
  L "CB-" ++ ts ++ L "-" ++ pad3 i.

Definition domain_block (ts : str) (i : nat) (d : str) : CommandBlock :=
  mkCommandBlock (block_name ts i)
    (L "DNS/WHOIS/HEAD for " ++ d)
    (d ++ L " in scope domains")
    [L "dig +short " ++ d;
     L "whois " ++ d ++ L " | head -n 30";
     L "curl -I --max-time 10 https://" ++ d]
    (L "Resolve A/AAAA; basic WHOIS metadata; HTTP server headers")
    low.

Definition host_block (ts : str) (i : nat) (h : str) : CommandBlock :=
  mkCommandBlock (block_name ts i)
    (L "HEAD for host " ++ h)
    (h ++ L " in scope hosts")
    [L "curl -I --max-time 10 http://" ++ h;
     L "curl -I --max-time 10 https://" ++ h]
    (L "HTTP status and headers")
    low.

(** The two loops of [propose] over one counter [i]: a block per domain,
    then a block per host. *)
Fixpoint number (mk : nat -> str -> CommandBlock) (i : nat) (l : list str)
    : list CommandBlock :=
  match l with
  | [] => []
  | x :: r => mk i x :: number mk (S i) r
  end.

(** [propose]: the blocks it writes to [proposed_blocks.json], for the
    day [ts] (as [%Y%m%d]). *)
Definition propose (ts : str) (cfg : SessionConfig) : list CommandBlock :=
  number (domain_block ts) 1 (domains (scope cfg))
    ++ number (host_block ts) (1 + List.length (domains (scope cfg)))
              (hosts (scope cfg)).

Definition _load_blocks (w : Files) (cfg : SessionConfig)
    : Failure + list CommandBlock :=
  if negb (exists_ w (_blocks_file cfg)) then inl (SystemExit NoBlocksFile)
  else match proposed w with
       | Some blocks => inr blocks
       | None => inl BadBlocksFile
       end.

(** The first command [enforce] does not allow, with its reason: the
    loop that checks every command before any is run. *)
Fixpoint first_refused (fs : FileSystem) (cfg : SessionConfig)
    (cmds : list str) : Result (option (str * Reason)) :=
  match cmds with
  | [] => Returned None
  | c :: rest =>
      match enforce fs cfg c with
      | Raised e => Raised e
      | Returned (allow, needs, reason) =>
          if negb allow then Returned (Some (c, reason))
          else first_refused fs cfg rest
      end
  end.

(** [run_all]: the commands in order, from index [idx]. *)
Fixpoint run_all (h : Host) (cfg : SessionConfig) (bid : str) (idx : nat)
    (cmds : list str) : Result (list CommandResult) * list Effect :=
  match cmds with
  | [] => (Returned [], [])
  | c :: rest =>
      match run_command h cfg bid idx c 20 with
      | (Raised e, effs) => (Raised e, effs)
      | (Returned r, effs) =>
          match run_all h cfg bid (S idx) rest with
          | (Returned rs, effs') => (Returned (r :: rs), effs ++ effs')
          | (Raised e, effs') => (Raised e, effs ++ effs')
          end
      end
  end.

Definition exec (h : Host) (fs : FileSystem) (w : Files) (root : str)
    (cfg : SessionConfig) (ts : str) (block_id : str)
    : (Failure + Observation) * list SessionEffect :=
  let approved :=
    exists_ w (path_join (output_dir cfg) (block_id ++ L ".approved")) in
  if negb approved then (inl (SystemExit NotApproved), [])
  else
    match _load_blocks w cfg with
    | inl f => (inl f, [])
    | inr blocks =>
        match find (fun b => str_eqb (id b) block_id) blocks with
        | None => (inl (SystemExit BlockNotFound), [])
        | Some block =>
            match first_refused fs cfg (commands block) with
            | Raised e => (inl (Failed e), [])
            | Returned (Some (c, reason)) =>
                (inl (SystemExit (NotAllowed c reason)), [])
            | Returned None =>
                match run_all h cfg (id block) 0 (commands block) with
                | (Raised e, effs) => (inl (Failed e), map Ran effs)
                | (Returned results, effs) =>
                    match make_observation (id block) results with
                    | None => (inl UnicodeEncodeError, map Ran effs)
                    | Some obs =>
                        log_observation h root ts obs (map Ran effs)
                    end
                end
            end
        end
    end.

End cli.

(** The memory of the AI loop (src/wsra/core/ai.py). *)
Module ai.

(** A message; its [meta] dictionary, which [load] does not look at, is
    left out. *)
Record AIMessage := mkAIMessage {
  role : str;
  content : ustr
}.

(** The file [messages.jsonl]: missing, there but not to be opened, or
    holding these bytes. *)
Inductive FileState :=
| Missing
| Unreadable
| Holds (bs : list Byte.byte).

(** The lines of a text file read with universal newlines: a line ends
    with a line feed, a carriage return or the two in a row, and is
    given with a line feed at its end; the last line can lack it. *)
Fixpoint text_lines_aux (cur : ustr) (after_cr : bool) (s : ustr)
    : list ustr :=
  match s with
  | [] => match cur with [] => [] | _ => [cur] end
  | c :: r =>
      if (after_cr && (c =? 10)%N)%bool then text_lines_aux cur false r
      else if ((c =? 10) || (c =? 13))%bool%N
      then (cur ++ [10%N]) :: text_lines_aux [] (c =? 13)%N r
      else text_lines_aux (cur ++ [c]) false r
  end.

Definition text_lines (s : ustr) : list ustr := text_lines_aux [] false s.

(** The messages of the lines that can be read: the [try] around
    [json.loads] and the validation; [parse] is these two, [None] when
    either raises. *)
Definition read_messages (parse : ustr -> option AIMessage)
    (lines : list ustr) : list AIMessage :=
  flat_map (fun line => match parse line with
                        | Some m => [m]
                        | None => []
                        end) lines.

(** [MemoryStore.load].  The file is read as UTF-8 text outside the
    [try]: bytes that are not UTF-8 raise [UnicodeDecodeError]. *)
Definition load (file : FileState)
    (parse : ustr -> option AIMessage) (last_n : option Z)
    : Result (list AIMessage) :=
  match file with
  | Missing => Returned []
  | Unreadable => Raised OSError
  | Holds bs =>
      match Utf8.decode Utf8.Strict bs with
      | None => Raised UnicodeDecodeError
      | Some text =>
          let out := read_messages parse (text_lines text) in
          Returned
            match last_n with
            | None => out
            | Some 0%Z => out
            | Some (Zpos n) => lastn (Pos.to_nat n) out
            | Some (Zneg n) => skipn (Pos.to_nat n) out
            end
      end
  end.

(** What [MemoryStore.append] leaves in the file: the bytes there were,
    then [json.dumps] of the message ([dumps]) and a line feed. *)
Definition append (file : FileState) (dumps : AIMessage -> list Byte.byte)
    (msg : AIMessage) : Result FileState :=
  match file with
  | Missing => Returned (Holds (dumps msg ++ [x0a]%byte))
  | Unreadable => Raised OSError
  | Holds bs => Returned (Holds (bs ++ dumps msg ++ [x0a]%byte))
  end.

End ai.

Module ai_loop.

(** The answers that approve a block. *)
Definition approves (ans : str) : bool :=
  mem (lower (strip ans)) [L "y"; L "yes"].

(** The reasons an approved command is still not run for: the text of
    an out-of-scope reason starts with [Out of scope]. *)
Definition blocked (reason : Reason) : bool :=
  match reason with
  | OutOfScope _ => true
  | Text s =>
      (contains (L "Out of scope") s || contains (L "Denied pattern") s
       || contains (L "forbids execution") s)%bool
  end.

Fixpoint run_all (h : Host) (fs : FileSystem) (cfg : SessionConfig)
    (bid : str) (idx : nat) (cmds : list str)
    : Result (list CommandResult) * list Effect :=
  match cmds with
  | [] => (Returned [], [])
  | c :: rest =>
      match enforce fs cfg c with
      | Raised e => (Raised e, [])
      | Returned (allow, needs, reason) =>
          if (negb allow && needs && blocked reason)%bool
          then run_all h fs cfg bid (S idx) rest
          else
            match run_command h cfg bid idx c 30 with
            | (Raised e, effs) => (Raised e, effs)
            | (Returned r, effs) =>
                match run_all h fs cfg bid (S idx) rest with
                | (Returned rs, effs') => (Returned (r :: rs), effs ++ effs')
                | (Raised e, effs') => (Raised e, effs ++ effs')
                end
            end
      end
  end.

(** [sep.join(l)] *)
Fixpoint join (sep : ustr) (l : list ustr) : ustr :=
  match l with
  | [] => []
  | [x] => x
  | x :: r => x ++ sep ++ join sep r
  end.

Definition messages (root : str) : str :=
  path_str (truediv (truediv (PurePosixPath root) (L "memory"))
                    (L "messages.jsonl")).

Definition user : str := L "user".

(** The three messages of the user the loop records for a block. *)
Definition approval_message (root : str) (block : CommandBlock)
    (answer : string) : SessionEffect :=
  Remembered (messages root) user
    (U "Approval for " ++ map code (id block) ++ U ": " ++ U answer)
    (id block).

Definition executed_message (root : str) (block : CommandBlock)
    (obs : Observation) : SessionEffect :=
  Remembered (messages root) user
    (U "Executed block " ++ map code (id block) ++ U ". Summary: "
       ++ map code (summary obs) ++ [10%N] ++ U "Key lines:" ++ [10%N]
       ++ join [10%N] (firstn 30 (key_lines obs)))
    (id block).

(** [execute_block_with_approval], with the answer typed at the prompt. *)
Definition execute_block_with_approval (h : Host) (fs : FileSystem)
    (root : str) (cfg : SessionConfig) (ans : str) (block : CommandBlock)
    : option Failure * list SessionEffect :=
  if negb (approves ans) then
    if writable h (messages root)
    then (None, [approval_message root block "no"])
    else (Some (Failed OSError), [])
  else if negb (writable h (messages root)) then (Some (Failed OSError), [])
  else
    let yes := approval_message root block "yes" in
    match run_all h fs cfg (id block) 0 (commands block) with
    | (Raised e, effs) => (Some (Failed e), yes :: map Ran effs)
    | (Returned results, effs) =>
        match make_observation (id block) results with
        | None => (Some UnicodeEncodeError, yes :: map Ran effs)
        | Some obs =>
            (None, yes :: map Ran effs ++ [executed_message root block obs])
        end
    end.

End ai_loop.

(** The argument vectors of the processes spawned, in order. *)
Definition spawned (effs : list SessionEffect) : list (list str) :=
  flat_map (fun e => match e with Ran (Spawned argv _) => [argv] | _ => [] end)
           effs.

(** The log files written among the effects of a caller. *)
Definition written (effs : list SessionEffect) : list str :=
  flat_map (fun e => match e with Ran (Wrote p _) => [p] | _ => [] end) effs.

(** Pairwise distinct logs of the commands from index [idx] on. *)
Definition logs_from (cfg : SessionConfig) (bid : str) (idx : nat)
    (l : list str) : Prop :=
  NoDup l
  /\ forall p, In p l ->
       exists k x, idx <= k /\ In x [L ".out"; L ".err"]
                   /\ p = log_path cfg bid k x.

(** A block of two look-ups. *)
Definition example_block : CommandBlock :=
  mkCommandBlock (L "CB-1") (L "look up example.com")
    (L "example.com in scope domains")
    [L "dig example.com"; L "curl -I https://example.com"]
    (L "addresses and headers") low.

Definition approved_files (cfg : SessionConfig) (blocks : list CommandBlock)
    : cli.Files :=
  cli.mkFiles (fun _ => true) (Some blocks).

(** * Properties *)

(** ** Mode authorizer *)

(** [enforce] raises exactly when the scope check does. *)
Lemma enforce_returns (fs : FileSystem) (cfg : SessionConfig) (cmd : str)
    (ok : bool) (reason : ScopeReason) :
  in_scope_command fs cfg cmd = Returned (ok, reason) ->
  exists d, enforce fs cfg cmd = Returned d.
Proof.
  intros H. unfold enforce.
  destruct (classify_and_check cmd) as [[risk ro] why]. rewrite H. eauto.
Qed.

Lemma enforce_raises (fs : FileSystem) (cfg : SessionConfig) (cmd : str)
    (e : Exn) :
  enforce fs cfg cmd = Raised e <-> in_scope_command fs cfg cmd = Raised e.
Proof.
  unfold enforce. destruct (classify_and_check cmd) as [[risk ro] why].
  destruct (in_scope_command fs cfg cmd) as [[ok reason] | e'];
    split; congruence.
Qed.

(** The scope check returns for a command that names no absolute path. *)
Lemma in_scope_returns_without_paths (fs : FileSystem) (cfg : SessionConfig)
    (cmd : str) :
  _extract_paths cmd = [] ->
  exists ok reason, in_scope_command fs cfg cmd = Returned (ok, reason).
Proof.
  intros Hp. unfold in_scope_command. rewrite Hp. cbn [nonempty_list].
  destruct (check_targets (scope cfg) (_extract_targets cmd)); eauto.
Qed.

Ltac enforce_cases fs cfg cmd :=
  unfold enforce;
  destruct (classify_and_check cmd) as [[risk ro] why];
  destruct (in_scope_command fs cfg cmd) as [[scope_ok scope_reason] | exn];
  [destruct scope_ok; cbn [negb] |].

(** C10: on every return path of [enforce] the two flags are
    complements: [allow_execute = not needs_approval]. *)
Theorem enforce_flags_complementary (fs : FileSystem) (cfg : SessionConfig)
    (cmd : str) (d : bool * bool * Reason) :
  enforce fs cfg cmd = Returned d ->
  allow_execute d = negb (needs_approval d).
Proof.
  enforce_cases fs cfg cmd; [| now intros [= <-] | discriminate].
  destruct (mem (mode cfg) [PLAN_ONLY; SIMULATE]); [now intros [= <-] |].
  destruct (str_eqb (mode cfg) AUTO_READONLY).
  - destruct risk, ro; now intros [= <-].
  - destruct (str_eqb (mode cfg) EXECUTE_WITH_APPROVAL); now intros [= <-].
Qed.

Lemma enforce_flags_complementary_witness :
  exists d,
    enforce plain_fs (config example_scope AUTO_READONLY)
            (L "dig example.com") = Returned d
    /\ allow_execute d = negb (needs_approval d).
Proof.
  eexists. split; [reflexivity |].
  apply (enforce_flags_complementary plain_fs
           (config example_scope AUTO_READONLY) (L "dig example.com")).
  reflexivity.
Defined.

(** C1, as the code has it: in the modes PLAN_ONLY, SIMULATE and
    EXECUTE_WITH_APPROVAL every decision the authorizer returns has
    [allow_execute = false] and [needs_approval = true]; a command that
    passes the scope check gets the reason of the mode; and a decision
    is returned for every command that names no absolute path.  For a
    command that names one the resolution of a path can raise, and no
    decision is returned then. *)
Theorem enforce_never_allows_outside_auto_mode (fs : FileSystem)
    (cfg : SessionConfig) (cmd : str) :
  mode cfg = PLAN_ONLY \/ mode cfg = SIMULATE
  \/ mode cfg = EXECUTE_WITH_APPROVAL ->
  (forall d, enforce fs cfg cmd = Returned d ->
             allow_execute d = false /\ needs_approval d = true)
  /\ (forall reason,
        in_scope_command fs cfg cmd = Returned (true, reason) ->
        enforce fs cfg cmd
        = Returned
            (false, true,
             Text (if str_eqb (mode cfg) EXECUTE_WITH_APPROVAL
                   then L "Approval required: "
                          ++ why_of (classify_and_check cmd)
                   else L "Mode=" ++ mode cfg ++ L " forbids execution")))
  /\ (_extract_paths cmd = [] ->
      exists d, enforce fs cfg cmd = Returned d
                /\ allow_execute d = false /\ needs_approval d = true)
  /\ (forall e, enforce fs cfg cmd = Raised e ->
                in_scope_command fs cfg cmd = Raised e).
Proof.
  intros Hmode.
  assert (Hret : forall d, enforce fs cfg cmd = Returned d ->
                           allow_execute d = false /\ needs_approval d = true).
  { enforce_cases fs cfg cmd; [| now intros d [= <-] | discriminate].
    destruct Hmode as [-> | [-> | ->]]; intros d [= <-]; split; reflexivity. }
  split; [exact Hret |]. split; [| split].
  - intros reason Hs. unfold enforce, why_of. rewrite Hs.
    destruct (classify_and_check cmd) as [[risk ro] why]. cbn [negb snd].
    destruct Hmode as [-> | [-> | ->]]; reflexivity.
  - intros Hp.
    destruct (in_scope_returns_without_paths fs cfg cmd Hp) as (ok & r & Hs).
    destruct (enforce_returns fs cfg cmd ok r Hs) as [d Hd].
    exists d. split; [exact Hd | now apply Hret].
  - intros e. apply enforce_raises.
Qed.

Lemma enforce_never_allows_outside_auto_mode_witness :
  enforce plain_fs (config example_scope SIMULATE) (L "dig example.com")
  = Returned (false, true, Text (L "Mode=SIMULATE forbids execution")).
Proof.
  apply (proj1 (proj2 (enforce_never_allows_outside_auto_mode plain_fs
                         (config example_scope SIMULATE)
                         (L "dig example.com")
                         (or_intror (or_introl eq_refl))))
           InScope).
  reflexivity.
Defined.

(** C1 as stated fails: in PLAN_ONLY mode, for the command [cat /tmp/]
    followed by a NUL, the resolution of the path raises [ValueError]
    and the authorizer returns no decision. *)
Lemma enforce_raises_on_nul_path :
  mode (config example_scope PLAN_ONLY) = PLAN_ONLY
  /\ _extract_paths cat_nul = [L "/tmp/" ++ [ascii_of_nat 0]]
  /\ resolve nul_fs (L "/tmp/" ++ [ascii_of_nat 0]) = Raised ValueError
  /\ enforce nul_fs (config example_scope PLAN_ONLY) cat_nul
     = Raised ValueError
  /\ ~ (exists d, enforce nul_fs (config example_scope PLAN_ONLY) cat_nul
                  = Returned d).
Proof.
  repeat split. intros [d H]. discriminate H.
Qed.

(** C3: in AUTO_READONLY, for a command that passes the scope check, the
    authorizer allows execution exactly when the classifier says [low]
    and read-only, and asks for approval otherwise; with scope domains
    [example.com], [curl -I https://example.com] is allowed and
    [curl https://example.com] needs approval. *)
Theorem enforce_auto_readonly :
  (forall (fs : FileSystem) (cfg : SessionConfig) (cmd : str)
          (reason : ScopeReason),
      mode cfg = AUTO_READONLY ->
      in_scope_command fs cfg cmd = Returned (true, reason) ->
      exists d,
        enforce fs cfg cmd = Returned d
        /\ (allow_execute d = true
            <-> risk_of (classify_and_check cmd) = low
                /\ read_only_ok (classify_and_check cmd) = true)
        /\ (allow_execute d = false -> needs_approval d = true))
  /\ (forall fs : FileSystem,
        enforce fs (config example_scope AUTO_READONLY)
                (L "curl -I https://example.com")
        = Returned
            (true, false,
             Text (L "Allowed in AUTO_READONLY: curl with --head/-I (metadata only)")))
  /\ (forall fs : FileSystem,
        enforce fs (config example_scope AUTO_READONLY)
                (L "curl https://example.com")
        = Returned
            (false, true,
             Text (L "Needs approval in AUTO_READONLY: curl without --head/-I is not read-only safe by default"))).
Proof.
  split; [| split; intros fs; reflexivity].
  intros fs cfg cmd reason Hmode Hscope.
  unfold enforce, risk_of, read_only_ok.
  destruct (classify_and_check cmd) as [[risk ro] why].
  rewrite Hscope, Hmode. cbn [negb fst snd].
  change (mem AUTO_READONLY [PLAN_ONLY; SIMULATE]) with false.
  change (str_eqb AUTO_READONLY AUTO_READONLY) with true. cbv iota.
  eexists. split; [reflexivity |].
  unfold allow_execute, needs_approval.
  destruct risk, ro; cbn [andb fst snd]; split;
    try (split; [intros _; split; reflexivity | reflexivity]);
    try (split; [discriminate 1 | intros [? ?]; discriminate]);
    try reflexivity; try discriminate 1.
Qed.

Lemma enforce_auto_readonly_witness :
  exists d,
    enforce plain_fs (config example_scope AUTO_READONLY)
            (L "dig example.com") = Returned d
    /\ (allow_execute d = true
        <-> risk_of (classify_and_check (L "dig example.com")) = low
            /\ read_only_ok (classify_and_check (L "dig example.com")) = true).
Proof.
  destruct (proj1 enforce_auto_readonly plain_fs
              (config example_scope AUTO_READONLY) (L "dig example.com")
              InScope eq_refl eq_refl) as (d & Hd & Hiff & _).
  exists d. split; [exact Hd | exact Hiff].
Defined.

(** ** Scope resolver *)

Lemma mem_to_set (x : str) (l : list str) : mem x (to_set l) = mem x l.
Proof.
  apply eq_true_iff_eq. rewrite !mem_In. unfold to_set. apply nodup_In.
Qed.

Lemma target_allowed_iff (sc : Scope) (t : str) :
  target_allowed sc t = true
  <-> (exists allow, In allow (domains sc)
                     /\ (allow = t \/ endswith (L "." ++ allow) t = true))
      \/ In t (hosts sc).
Proof.
  unfold target_allowed. rewrite orb_true_iff, existsb_exists, mem_In.
  split; (intros [[a [Ha Hm]] | Hh]; [left; exists a; split; [exact Ha |] | now right]).
  - apply orb_true_iff in Hm. now rewrite str_eqb_eq in Hm.
  - apply orb_true_iff. now rewrite str_eqb_eq.
Qed.

(** A denylisted target fails the target check, whatever the allow sets hold. *)
Lemma check_targets_denied (sc : Scope) (targets : list str) (t : str) :
  In t targets -> In t (out_of_scope sc) ->
  exists hit, check_targets sc targets = Some (TargetOutOfScope hit) /\ In t hit.
Proof.
  intros Ht Hd. unfold check_targets.
  destruct targets as [| t0 ts]; [contradiction |]. cbn [nonempty_list].
  assert (Hex : existsb (fun x => mem x (to_set (out_of_scope sc))) (t0 :: ts) = true).
  { apply existsb_exists. exists t. split; [exact Ht |].
    rewrite mem_to_set. now apply mem_In. }
  rewrite Hex. eexists. split; [reflexivity |].
  apply filter_In. split; [exact Ht |]. rewrite mem_to_set. now apply mem_In.
Qed.

(** C4, as the code has it: a command whose one target is
    sub.example.com (and that names no absolute path) is in scope exactly
    when sub.example.com is not denylisted and some allow entry covers it
    (an allowed domain equal to it or a dot-suffix of it, or an allowed
    host); so it is in scope when example.com is an allowed domain and
    sub.example.com is not denylisted.  And a command with any denylisted
    target is rejected, whatever the allow sets hold. *)
Theorem in_scope_subdomain_and_denylist :
  (forall (fs : FileSystem) (cfg : SessionConfig) (cmd : str),
      _extract_targets cmd = [sub_example_com] ->
      _extract_paths cmd = [] ->
      (in_scope_command fs cfg cmd = Returned (true, InScope)
       <-> ~ In sub_example_com (out_of_scope (scope cfg))
           /\ ((exists allow, In allow (domains (scope cfg))
                  /\ (allow = sub_example_com
                      \/ endswith (L "." ++ allow) sub_example_com = true))
               \/ In sub_example_com (hosts (scope cfg))))
      /\ (In example_com (domains (scope cfg)) ->
          ~ In sub_example_com (out_of_scope (scope cfg)) ->
          in_scope_command fs cfg cmd = Returned (true, InScope))
      /\ exists ok reason, in_scope_command fs cfg cmd = Returned (ok, reason))
  /\ (forall (fs : FileSystem) (cfg : SessionConfig) (cmd : str) (t : str),
         In t (_extract_targets cmd) ->
         In t (out_of_scope (scope cfg)) ->
         exists hit,
           in_scope_command fs cfg cmd = Returned (false, TargetOutOfScope hit)
           /\ In t hit).
Proof.
  split.
  - intros fs cfg cmd Ht Hp.
    assert (Hchar :
      in_scope_command fs cfg cmd = Returned (true, InScope)
      <-> ~ In sub_example_com (out_of_scope (scope cfg))
          /\ target_allowed (scope cfg) sub_example_com = true).
    { unfold in_scope_command, check_targets. rewrite Ht, Hp.
      cbn [nonempty_list existsb orb].
      rewrite mem_to_set, !orb_false_r.
      destruct (mem sub_example_com (out_of_scope (scope cfg))) eqn:Hd.
      - apply mem_In in Hd. cbn. split; [discriminate | tauto].
      - assert (~ In sub_example_com (out_of_scope (scope cfg))).
        { intros Hin. apply mem_In in Hin. congruence. }
        destruct (target_allowed (scope cfg) sub_example_com);
          cbn; split; try tauto; try discriminate.
        intros [_ H']. discriminate H'. }
    split; [| split].
    + rewrite Hchar, target_allowed_iff. reflexivity.
    + intros Hdom Hnd. apply Hchar. split; [exact Hnd |].
      apply target_allowed_iff. left. exists example_com.
      split; [exact Hdom | right; reflexivity].
    + now apply in_scope_returns_without_paths.
  - intros fs cfg cmd t Ht Hd. unfold in_scope_command.
    destruct (check_targets_denied (scope cfg) _ t Ht Hd) as [hit [-> Hin]].
    now exists hit.
Qed.

Lemma in_scope_subdomain_and_denylist_witness :
  in_scope_command plain_fs (config sub_scope AUTO_READONLY)
                   (L "dig sub.example.com") = Returned (true, InScope).
Proof.
  apply (proj1 in_scope_subdomain_and_denylist plain_fs
           (config sub_scope AUTO_READONLY) (L "dig sub.example.com")).
  - reflexivity.
  - reflexivity.
  - simpl. left. reflexivity.
  - simpl. intros [].
Defined.

(** C4 as stated fails: with sub.example.com itself as the allowed
    domain, the command is in scope although example.com is not an
    allowed domain. *)
Lemma in_scope_iff_parent_domain_fails :
  _extract_targets (L "dig sub.example.com") = [sub_example_com]
  /\ ~ (in_scope_command plain_fs (config exact_scope AUTO_READONLY)
                         (L "dig sub.example.com") = Returned (true, InScope)
        <-> In example_com (domains exact_scope)
            /\ ~ In sub_example_com (out_of_scope exact_scope)).
Proof.
  split; [reflexivity |].
  intros [Hfwd _].
  destruct (Hfwd eq_refl) as [[Hin | []] _].
  discriminate Hin.
Qed.

(** ** Guardrail classifier *)

Lemma startswith_In (p s : str) (c : ascii) :
  startswith p s = true -> In c p -> In c s.
Proof.
  revert s. induction p as [| a p IH]; intros s Hs Hc; [contradiction |].
  destruct s as [| b s]; [discriminate |]. simpl in Hs.
  destruct (ascii_dec a b) as [-> |]; [| discriminate].
  destruct Hc as [-> | Hc]; [now left | right; now apply IH].
Qed.

Lemma contains_In (p s : str) (c : ascii) :
  contains p s = true -> In c p -> In c s.
Proof.
  induction s as [| b s IH]; simpl; intros Hs Hc.
  - destruct (startswith p []) eqn:E; [| discriminate].
    now apply (startswith_In p [] c).
  - destruct (startswith p (b :: s)) eqn:E.
    + now apply (startswith_In p (b :: s) c).
    + right. now apply IH.
Qed.

Lemma lower_char_not_upper (x : ascii) : is_upper (lower_char x) = false.
Proof.
  destruct x as [[] [] [] [] [] [] [] []]; vm_compute; reflexivity.
Qed.

(** The lowered text never holds the pattern with the capital R: the
    deny check cannot find it in any command. *)
Lemma chmod_pattern_never_found (cmd : str) :
  contains chmod_pattern (lower (strip cmd)) = false.
Proof.
  destruct (contains chmod_pattern (lower (strip cmd))) eqn:E; [| reflexivity].
  assert (Hin : In "R"%char (lower (strip cmd))).
  { apply (contains_In chmod_pattern _ _ E). vm_compute. tauto. }
  unfold lower in Hin. apply in_map_iff in Hin. destruct Hin as [x [Hx _]].
  pose proof (lower_char_not_upper x) as Hu. rewrite Hx in Hu. discriminate.
Qed.

(** *** The deny patterns that are found *)

Lemma startswith_iff (p s : str) :
  startswith p s = true <-> exists b, s = p ++ b.
Proof.
  revert s. induction p as [| x p IH]; intros s; simpl.
  - split; [intros _; now exists s | reflexivity].
  - destruct s as [| c s].
    + split; [discriminate | intros [b Hb]; discriminate].
    + destruct (ascii_dec x c) as [-> | Hne].
      * rewrite IH. split; intros [b Hb]; exists b; congruence.
      * split; [discriminate | intros [b Hb]; congruence].
Qed.

Lemma contains_iff (p s : str) :
  contains p s = true <-> exists a b, s = a ++ p ++ b.
Proof.
  induction s as [| c s IH].
  - simpl. destruct (startswith p []) eqn:E.
    + apply startswith_iff in E. destruct E as [b Hb].
      split; [intros _; now exists [], b | reflexivity].
    + split; [discriminate |]. intros (a & b & H).
      destruct a; [| discriminate]. simpl in H.
      assert (startswith p [] = true) by (apply startswith_iff; now exists b).
      congruence.
  - simpl. destruct (startswith p (c :: s)) eqn:E.
    + apply startswith_iff in E. destruct E as [b Hb].
      split; [intros _; now exists [], b | reflexivity].
    + rewrite IH. split.
      * intros (a & b & ->). now exists (c :: a), b.
      * intros (a & b & H). destruct a as [| c' a].
        -- simpl in H.
           assert (startswith p (c :: s) = true)
             by (apply startswith_iff; now exists b).
           congruence.
        -- injection H as _ ->. now exists a, b.
Qed.

Lemma lower_char_space (c : ascii) :
  py_isspace (lower_char c) = py_isspace c.
Proof. destruct c as [[] [] [] [] [] [] [] []]; reflexivity. Qed.

Lemma lstrip_lower (s : str) : lstrip (lower s) = lower (lstrip s).
Proof.
  induction s as [| c s IH]; [reflexivity |]. simpl.
  rewrite lower_char_space. destruct (py_isspace c); [exact IH | reflexivity].
Qed.

Lemma strip_lower (s : str) : strip (lower s) = lower (strip s).
Proof.
  assert (Hrev : forall t, rev (lower t) = lower (rev t))
    by (intros t; unfold lower; now rewrite map_rev).
  unfold strip, rstrip. now rewrite lstrip_lower, Hrev, lstrip_lower, Hrev.
Qed.

(** An occurrence that starts with a non-space character is kept by
    [lstrip]. *)
Lemma lstrip_keeps (a q : str) (x : ascii) :
  py_isspace x = false ->
  exists a', lstrip (a ++ x :: q) = a' ++ x :: q.
Proof.
  intros Hx. induction a as [| c a IH]; simpl.
  - rewrite Hx. now exists [].
  - destruct (py_isspace c); [exact IH | now exists (c :: a)].
Qed.

Lemma strip_keeps (a b mid pre : str) (x y : ascii) :
  py_isspace x = false -> py_isspace y = false -> x :: mid = pre ++ [y] ->
  exists a' b', strip (a ++ (x :: mid) ++ b) = a' ++ (x :: mid) ++ b'.
Proof.
  intros Hx Hy Hxy. unfold strip, rstrip.
  destruct (lstrip_keeps a (mid ++ b) x Hx) as [a' Ha].
  simpl app. rewrite Ha.
  assert (E : a' ++ x :: mid ++ b = a' ++ pre ++ y :: b).
  { change (x :: mid ++ b) with ((x :: mid) ++ b).
    rewrite Hxy, <- app_assoc. reflexivity. }
  rewrite E.
  assert (R : rev (a' ++ pre ++ y :: b) = rev b ++ y :: rev (a' ++ pre)).
  { rewrite app_assoc, rev_app_distr. simpl. now rewrite <- app_assoc. }
  rewrite R.
  destruct (lstrip_keeps (rev b) (rev (a' ++ pre)) y Hy) as [b' Hb].
  rewrite Hb. exists a', (rev b').
  rewrite rev_app_distr. simpl. rewrite rev_involutive, <- !app_assoc. simpl.
  change (x :: mid ++ rev b') with ((x :: mid) ++ rev b').
  rewrite Hxy, <- app_assoc. reflexivity.
Qed.

Lemma contains_strip (p s : str) (x y : ascii) (mid pre : str) :
  p = x :: mid -> p = pre ++ [y] ->
  py_isspace x = false -> py_isspace y = false ->
  contains p s = true -> contains p (strip s) = true.
Proof.
  intros Hp Hy Hx Hlast Hc. subst p.
  apply contains_iff in Hc. destruct Hc as (a & b & ->).
  apply contains_iff. now apply (strip_keeps a b mid pre x y).
Qed.

Lemma first_denied_some (pats : list str) (txt pat : str) :
  In pat pats -> contains pat txt = true ->
  exists pat', In pat' pats /\ contains pat' txt = true
               /\ first_denied pats txt = Some pat'.
Proof.
  induction pats as [| q pats IH]; intros Hin Hc; [contradiction |].
  simpl. destruct (contains q txt) eqn:E.
  - exists q. repeat split; [now left | exact E].
  - destruct Hin as [-> | Hin]; [congruence |].
    destruct (IH Hin Hc) as (pat' & H1 & H2 & H3).
    exists pat'. repeat split; [now right | assumption | assumption].
Qed.

(** A deny pattern that occurs in the lowered command is found: the
    command is classified medium and not read-only, with a reason that
    names a deny pattern the lowered text holds.  (For the pattern with
    the capital letter the premise never holds.) *)
Lemma deny_patterns_found (cmd pat : str) :
  In pat DENY_PATTERNS ->
  contains pat (lower cmd) = true ->
  exists pat',
    In pat' DENY_PATTERNS
    /\ contains pat' (lower (strip cmd)) = true
    /\ classify_and_check cmd = (medium, false, L "Denied pattern: " ++ pat').
Proof.
  intros Hin Hc.
  assert (Hc' : contains pat (lower (strip cmd)) = true).
  { rewrite <- strip_lower.
    simpl in Hin.
    destruct Hin as [<- | [<- | [<- | [<- | [<- | [<- | [<- | [<- | []]]]]]]]];
      try (match goal with
           | |- contains ?p _ = true =>
               let pre := eval cbv in (removelast p) in
               let y := eval cbv in (last p " "%char) in
               apply (contains_strip p _ (hd " "%char p) y (tl p) pre);
               [reflexivity | reflexivity | reflexivity | reflexivity
               | exact Hc]
           end). }
  destruct (first_denied_some DENY_PATTERNS _ pat Hin Hc')
    as (pat' & H1 & H2 & H3).
  exists pat'. repeat split; trivial.
  unfold classify_and_check. cbv zeta. now rewrite H3.
Qed.

(** C2 at the command [echo chmod -R 777 /]: the command holds a pattern
    of the deny list, and the classifier returns low and read-only, from
    the allowlisted head token. *)
Theorem classify_misses_chmod_pattern :
  In chmod_pattern DENY_PATTERNS
  /\ contains chmod_pattern (L "echo chmod -R 777 /") = true
  /\ classify_and_check (L "echo chmod -R 777 /")
     = (low, true, L "echo considered read-only (MVP allowlist)").
Proof.
  split; [| split]; [| reflexivity | reflexivity].
  vm_compute. tauto.
Qed.

(** ** Observation builder *)

Lemma fold_max_ge_init (l : list Z) (x : Z) : (x <= fold_left Z.max l x)%Z.
Proof.
  revert x. induction l as [| y l IH]; intros x; simpl; [lia |].
  specialize (IH (Z.max x y)). lia.
Qed.

Lemma fold_max_upper (l : list Z) (x y : Z) :
  In y l -> (y <= fold_left Z.max l x)%Z.
Proof.
  revert x. induction l as [| z l IH]; intros x Hy; [contradiction |].
  simpl. destruct Hy as [-> | Hy]; [| now apply IH].
  pose proof (fold_max_ge_init l (Z.max x y)). lia.
Qed.

Lemma fold_max_In (l : list Z) (x : Z) :
  fold_left Z.max l x = x \/ In (fold_left Z.max l x) l.
Proof.
  revert x. induction l as [| z l IH]; intros x; simpl; [now left |].
  destruct (IH (Z.max x z)) as [H | H]; [| right; now right].
  rewrite H. destruct (Z.max_spec x z) as [[_ ->] | [_ ->]];
    [right; now left | now left].
Qed.

Lemma max_default_upper (xs : list Z) (y : Z) :
  In y xs -> (y <= max_default xs)%Z.
Proof.
  destruct xs as [| x r]; [contradiction |]. simpl.
  intros [-> | Hy]; [apply fold_max_ge_init | now apply fold_max_upper].
Qed.

Lemma max_default_In (xs : list Z) : xs <> [] -> In (max_default xs) xs.
Proof.
  destruct xs as [| x r]; [congruence |]. intros _. simpl.
  destruct (fold_max_In r x) as [-> | H]; [now left | now right].
Qed.

Lemma make_observation_fields (bid : str) (results : list CommandResult)
    (obs : Observation) :
  make_observation bid results = Some obs ->
  exit_code obs = max_default (map rc_of results)
  /\ key_lines obs = extract (combined_output results).
Proof.
  unfold make_observation.
  destruct (total_size (map stdout_of results)); [| discriminate].
  intros [= <-]. split; reflexivity.
Qed.

Lemma encoded_size_encodable (s : ustr) :
  encodable s = true -> exists n, Utf8.encoded_size s = Some n.
Proof.
  induction s as [| c s IH]; simpl; [now exists 0 |].
  intros H. apply andb_true_iff in H. destruct H as [Hc Hs].
  destruct (IH Hs) as [n ->]. unfold Utf8.encoded_len.
  destruct (c <? 128)%N; [eauto |]. destruct (c <? 2048)%N; [eauto |].
  destruct (c <? 55296)%N eqn:E1; [eauto |]. simpl in Hc.
  apply andb_true_iff in Hc. destruct Hc as [H1 H2].
  assert (E2 : (c <? 57344)%N = false) by (apply N.ltb_ge; now apply N.leb_le).
  rewrite E2, H2. destruct (c <? 65536)%N; eauto.
Qed.

(** An observation is built whenever every output can be encoded. *)
Lemma make_observation_total (bid : str) (results : list CommandResult) :
  (forall r, In r results -> encodable (stdout_of r) = true) ->
  exists obs, make_observation bid results = Some obs.
Proof.
  intros H. unfold make_observation.
  assert (Ht : exists n, total_size (map stdout_of results) = Some n).
  { induction results as [| r rs IH]; simpl; [now exists 0 |].
    destruct (encoded_size_encodable (stdout_of r)) as [a ->];
      [apply H; now left |].
    destruct IH as [b ->]; [intros r' Hr'; apply H; now right |]. eauto. }
  destruct Ht as [n ->]. eauto.
Qed.

(** C6, as the code has it: the aggregate exit code is the numeric
    maximum of the exit codes of the results (0 for no result at all): it
    is one of them and none exceeds it.  A positive code dominates zero:
    the aggregate is positive exactly when some code is.  A negative code
    does not: beside a zero it is hidden, and the aggregate is zero
    whenever no code is positive and one is zero.  The codes 0, 2, 0 give
    2.  The observation exists whenever the outputs can be encoded. *)
Theorem aggregate_exit_code_is_max :
  (forall (bid : str) (results : list CommandResult) (obs : Observation),
      make_observation bid results = Some obs ->
      (results = [] -> exit_code obs = 0%Z)
      /\ (results <> [] -> In (exit_code obs) (map rc_of results))
      /\ (forall r, In r results -> (rc_of r <= exit_code obs)%Z)
      /\ ((0 < exit_code obs)%Z
          <-> exists r, In r results /\ (0 < rc_of r)%Z)
      /\ ((exists r, In r results /\ rc_of r = 0%Z) ->
          (forall r, In r results -> (rc_of r <= 0)%Z) ->
          exit_code obs = 0%Z)
      /\ ((forall r, In r results -> (0 <= rc_of r)%Z) ->
          (exit_code obs = 0%Z <-> forall r, In r results -> rc_of r = 0%Z)))
  /\ (forall (bid : str) (results : list CommandResult),
         (forall r, In r results -> encodable (stdout_of r) = true) ->
         exists obs, make_observation bid results = Some obs)
  /\ (forall (bid : str) (r1 r2 r3 : CommandResult) (obs : Observation),
         rc_of r1 = 0%Z -> rc_of r2 = 2%Z -> rc_of r3 = 0%Z ->
         make_observation bid [r1; r2; r3] = Some obs ->
         exit_code obs = 2%Z).
Proof.
  split; [| split].
  - intros bid results obs Hobs.
    destruct (make_observation_fields _ _ _ Hobs) as [He _]. rewrite He.
    assert (Hup : forall r, In r results ->
                            (rc_of r <= max_default (map rc_of results))%Z).
    { intros r Hr. apply max_default_upper. now apply in_map. }
    assert (Hin : results <> [] ->
                  exists r, In r results
                            /\ rc_of r = max_default (map rc_of results)).
    { intros Hne.
      assert (H : In (max_default (map rc_of results)) (map rc_of results)).
      { apply max_default_In. destruct results; [congruence | discriminate]. }
      apply in_map_iff in H. destruct H as [r [Hr Hin]]. now exists r. }
    split; [| split; [| split; [| split; [| split]]]].
    + intros ->. reflexivity.
    + intros Hne. destruct (Hin Hne) as (r & Hr & <-). now apply in_map.
    + exact Hup.
    + split.
      * intros Hpos. destruct results as [| r0 rs]; [simpl in Hpos; lia |].
        destruct Hin as (r & Hr & Heq); [discriminate |].
        exists r. split; [exact Hr | lia].
      * intros (r & Hr & Hpos). specialize (Hup r Hr). lia.
    + intros (r0 & Hr0 & Hz) Hneg.
      destruct Hin as (r & Hr & Heq); [intros ->; contradiction |].
      specialize (Hup r0 Hr0). specialize (Hneg r Hr). lia.
    + intros Hpos. split.
      * intros Hz r Hr. specialize (Hup r Hr). specialize (Hpos r Hr). lia.
      * intros Hz. destruct results as [| r rs]; [reflexivity |].
        destruct Hin as (r' & Hr' & <-); [discriminate |]. now apply Hz.
  - apply make_observation_total.
  - intros bid r1 r2 r3 obs H1 H2 H3 Hobs.
    destruct (make_observation_fields _ _ _ Hobs) as [-> _].
    simpl. rewrite H1, H2, H3. reflexivity.
Qed.

Lemma aggregate_exit_code_is_max_witness :
  exists obs,
    make_observation (L "b1")
      [sample_result 0 "ok"; sample_result 2 "no"; sample_result 0 "ok"]
    = Some obs
    /\ exit_code obs = 2%Z.
Proof.
  eexists. split; [reflexivity |].
  apply (proj2 (proj2 aggregate_exit_code_is_max) (L "b1")
           (sample_result 0 "ok") (sample_result 2 "no") (sample_result 0 "ok"));
    reflexivity.
Defined.

(** C6 as stated fails: a non-zero code does not always dominate zero.
    For the codes 0 and -9 (a process ended by signal 9) the aggregate
    is 0. *)
Lemma aggregate_exit_code_hides_negative :
  exists obs,
    make_observation (L "b1") [sample_result 0 "ok"; sample_result (-9) "ok"]
    = Some obs
    /\ rc_of (sample_result (-9) "ok") <> 0%Z
    /\ exit_code obs = 0%Z.
Proof.
  eexists. split; [reflexivity |]. split; [discriminate | reflexivity].
Qed.

Lemma lastn_length {A : Type} (n : nat) (l : list A) :
  List.length (lastn n l) <= n.
Proof. unfold lastn. rewrite length_skipn. lia. Qed.

(** C7, as the code has it: for a non-empty combined output the extract
    is the first 20 lines, the marker [...], then the last 10 lines, at
    most 31 entries; an output of at most 20 lines is shown whole in the
    first part. *)
Theorem key_lines_head_marker_tail (bid : str)
    (results : list CommandResult) (obs : Observation) :
  make_observation bid results = Some obs ->
  combined_output results <> [] ->
  key_lines obs
  = firstn 20 (splitlines (combined_output results)) ++ [U "..."]
    ++ lastn 10 (splitlines (combined_output results))
  /\ List.length (key_lines obs) <= 31
  /\ (List.length (splitlines (combined_output results)) <= 20 ->
      firstn 20 (splitlines (combined_output results))
      = splitlines (combined_output results)).
Proof.
  intros Hobs Hne.
  destruct (make_observation_fields _ _ _ Hobs) as [_ Hk].
  assert (Hk' : key_lines obs
                = firstn 20 (splitlines (combined_output results)) ++ [U "..."]
                  ++ lastn 10 (splitlines (combined_output results))).
  { rewrite Hk. unfold extract.
    destruct (combined_output results); [congruence | reflexivity]. }
  split; [exact Hk' | split].
  - rewrite Hk', !length_app.
    pose proof (firstn_le_length 20 (splitlines (combined_output results))).
    pose proof (lastn_length 10 (splitlines (combined_output results))).
    change (List.length [U "..."]) with 1. lia.
  - intros Hlen. now apply firstn_all2.
Qed.

Lemma key_lines_head_marker_tail_witness :
  exists obs,
    make_observation (L "b1") [sample_result 0 "one"; sample_result 0 "two"]
    = Some obs
    /\ List.length (key_lines obs) <= 31.
Proof.
  eexists. split; [reflexivity |].
  apply (key_lines_head_marker_tail (L "b1")
           [sample_result 0 "one"; sample_result 0 "two"]).
  - reflexivity.
  - discriminate.
Defined.

(** C7 as stated fails: for the one-line output [a] the extract is
    [a], [...], [a], and its first part is the whole payload. *)
Lemma key_lines_can_hold_full_payload :
  exists obs,
    make_observation (L "b1") [sample_result 0 "a"] = Some obs
    /\ combined_output [sample_result 0 "a"] <> []
    /\ key_lines obs = [U "a"; U "..."; U "a"]
    /\ firstn 20 (splitlines (combined_output [sample_result 0 "a"]))
       = splitlines (combined_output [sample_result 0 "a"])
    /\ List.concat (splitlines (combined_output [sample_result 0 "a"]))
       = combined_output [sample_result 0 "a"].
Proof.
  eexists. split; [reflexivity |].
  split; [discriminate |]. repeat split.
Qed.

(** ** Sandboxed executor *)

(** C8, as the code has it: when the spawned process exceeds its
    timeout and is still there to be killed, [run_command] returns the
    exit code 124, an empty output and the placeholder [Timeout] as
    error text, after killing the process; when the process has ended by
    then, [proc.kill()] raises [ProcessLookupError] and [run_command]
    raises it too. *)
Theorem run_command_timeout_returns_124 (h : Host) (cfg : SessionConfig)
    (bid : str) (idx : nat) (cmd : str) (timeout : nat) (parts : list str)
    (gone : bool) :
  shlex_split cmd = Some parts ->
  parts <> [] ->
  existsb has_nul (output_dir cfg :: parts) = false ->
  spawn h parts (output_dir cfg) timeout = Some (TimedOut gone) ->
  run_command h cfg bid idx cmd timeout
  = if gone
    then (Raised ProcessLookupError, [Spawned parts (output_dir cfg)])
    else (Returned (124%Z, [], U "Timeout", empty_path, empty_path),
          [Spawned parts (output_dir cfg); Killed]).
Proof.
  intros Hsplit Hne Hnul Hspawn. unfold run_command. rewrite Hsplit.
  destruct parts as [| p ps]; [congruence |]. cbv zeta.
  rewrite Hspawn, Hnul. reflexivity.
Qed.

Lemma run_command_timeout_returns_124_witness :
  fst (run_command slow_host (config example_scope AUTO_READONLY) (L "b1") 0
                   (L "sleep 60") 20)
  = Returned (124%Z, [], U "Timeout", empty_path, empty_path).
Proof.
  rewrite (run_command_timeout_returns_124 slow_host
             (config example_scope AUTO_READONLY) (L "b1") 0 (L "sleep 60") 20
             [L "sleep"; L "60"] false).
  - reflexivity.
  - reflexivity.
  - discriminate.
  - reflexivity.
  - reflexivity.
Defined.

(** C8 as stated fails: on a host where the process ends just as the
    timeout fires, [run_command] raises instead of returning 124. *)
Lemma run_command_timeout_can_raise :
  spawn racing_host [L "sleep"; L "60"] (L "out") 20 = Some (TimedOut true)
  /\ run_command racing_host (config example_scope AUTO_READONLY) (L "b1") 0
                 (L "sleep 60") 20
     = (Raised ProcessLookupError, [Spawned [L "sleep"; L "60"] (L "out")]).
Proof. split; reflexivity. Qed.









(** *** What the decoder produces *)

Lemma lor_shiftl_small (a c : N) :
  (c < 64)%N -> N.lor (N.shiftl a 6) c = (a * 64 + c)%N.
Proof.
  intros Hc.
  assert (Hland : N.land (N.shiftl a 6) c = 0%N).
  { apply N.bits_inj_0. intros n. rewrite N.land_spec.
    destruct (N.ltb_spec n 6) as [Hn | Hn].
    - rewrite N.shiftl_spec_low by exact Hn. reflexivity.
    - rewrite <- (N.mod_small c (2 ^ 6)) by exact Hc.
      rewrite N.mod_pow2_bits_high by exact Hn. apply andb_false_r. }
  rewrite <- N.lxor_lor by exact Hland.
  rewrite <- N.add_nocarry_lxor by exact Hland.
  now rewrite N.shiftl_mul_pow2.
Qed.

Lemma continuation_bits (b : Byte.byte) :
  (128 <= Byte.to_N b)%N -> (Byte.to_N b <= 191)%N ->
  N.land (Byte.to_N b) 63 = (Byte.to_N b - 128)%N.
Proof.
  destruct b; vm_compute; intros H1 H2; try reflexivity;
    try (exfalso; now apply H1); exfalso; now apply H2.
Qed.

Lemma lead_completes (b : Byte.byte) (p : Utf8.pending) :
  Utf8.lead (Byte.to_N b) = Utf8.Start p ->
  completes (Utf8.need p) (Utf8.acc p) (Utf8.lo p) (Utf8.hi p).
Proof.
  destruct b; vm_compute Utf8.lead; intros H; try discriminate H;
    injection H as <-; cbn [Utf8.need Utf8.acc Utf8.lo Utf8.hi completes];
    unfold validcp; repeat split; try lia; intros; repeat split; try lia;
    intros; repeat split; try lia; intros; lia.
Qed.

Lemma lead_single (x cp : N) :
  Utf8.lead x = Utf8.Single cp -> validcp cp.
Proof.
  unfold Utf8.lead. destruct (N.ltb_spec x 128) as [H | H].
  - intros [= <-]. left. lia.
  - destruct (x <? 194)%N; [discriminate |].
    destruct (x <? 224)%N; [discriminate |].
    destruct (x <? 240)%N; [discriminate |].
    destruct (x <? 245)%N; discriminate.
Qed.







(** ** Redaction *)

Lemma first_some_ext {A B : Type} (f g : A -> option B) (l : list A) :
  (forall x, f x = g x) -> Re.first_some f l = Re.first_some g l.
Proof.
  intros H. induction l as [| x l IH]; simpl; [reflexivity |].
  now rewrite H, IH.
Qed.

(** Without a word boundary the character before the match is not looked at. *)
Lemma rmatch_prev (pat : Re.pattern N) :
  no_bnd pat = true ->
  forall prev s n marks,
    Re.rmatch pat prev s n marks = Re.rmatch pat None s n marks.
Proof.
  induction pat as [| i pat IH]; intros Hb prev s n marks; [reflexivity |].
  simpl in Hb. apply andb_true_iff in Hb. destruct Hb as [Hi Hb].
  specialize (IH Hb).
  destruct i as [p | p lo hi | w | |]; simpl.
  - destruct s as [| c s]; [reflexivity |]. destruct (p c); [| reflexivity].
    now rewrite IH.
  - apply first_some_ext. intros j.
    rewrite IH. symmetry. now rewrite IH.
  - discriminate.
  - apply IH.
  - apply IH.
Qed.

Lemma sub_as_rw_skip (pat : Re.pattern N) (keep1 : bool) (fixed : ustr) :
  no_bnd pat = true ->
  forall s skip prev,
    flat_map (fun x => match x with inl m => m | inr c => [c] end)
      (Re.scan pat ustr
         (fun (n : nat) marks s =>
            (if keep1 then Re.group 1 marks s else []) ++ fixed)
         skip prev s)
    = rw_skip (front_match pat keep1 fixed) skip s.
Proof.
  intros Hb. induction s as [| c s IH]; intros skip prev.
  - destruct skip; simpl; [| reflexivity].
    unfold front_match. rewrite (rmatch_prev pat Hb prev).
    destruct (Re.rmatch pat None [] 0 []) as [[n marks] |]; simpl;
      [now rewrite app_nil_r | reflexivity].
  - destruct skip; simpl; [| apply IH].
    unfold front_match. rewrite (rmatch_prev pat Hb prev).
    destruct (Re.rmatch pat None (c :: s) 0 []) as [[n marks] |]; simpl.
    + destruct n; simpl; now rewrite IH.
    + now rewrite IH.
Qed.

Lemma sub_as_rw (pat : Re.pattern N) (keep1 : bool) (fixed : ustr) (s : ustr) :
  no_bnd pat = true ->
  Re.sub pat keep1 fixed s = rw (front_match pat keep1 fixed) s.
Proof. intros Hb. unfold Re.sub, rw. now apply sub_as_rw_skip. Qed.

Section Rewriting.
Variable mt : ustr -> option (nat * ustr).
Hypothesis mt_proper : proper mt.

Lemma rw_skip_skipn (k : nat) (s : ustr) :
  rw_skip mt k s = rw mt (skipn k s).
Proof.
  revert s. induction k as [| k IH]; intros s; [reflexivity |].
  destruct s as [| c s]; simpl.
  - unfold rw. simpl. destruct (mt []) as [[n r] |] eqn:E; [| reflexivity].
    apply mt_proper in E. simpl in E. lia.
  - apply IH.
Qed.

Lemma rw_nil : rw mt [] = [].
Proof.
  unfold rw. simpl. destruct (mt []) as [[n r] |] eqn:E; [| reflexivity].
  apply mt_proper in E. simpl in E. lia.
Qed.

Lemma rw_copy (c : N) (s : ustr) :
  mt (c :: s) = None -> rw mt (c :: s) = c :: rw mt s.
Proof. intros E. unfold rw. simpl. now rewrite E. Qed.

Lemma rw_match (s : ustr) (n : nat) (r : ustr) :
  mt s = Some (n, r) -> rw mt s = r ++ rw mt (skipn n s).
Proof.
  intros E. pose proof (mt_proper _ _ _ E) as Hn.
  destruct s as [| c s]; [simpl in Hn; lia |].
  unfold rw at 1. simpl. rewrite E. destruct n as [| k]; [lia |].
  now rewrite rw_skip_skipn.
Qed.

(** A text in which the front match is stable is left as it is. *)
Lemma rw_stable_id (s : ustr) : Stable mt s -> rw mt s = s.
Proof.
  remember (List.length s) as len eqn:Hlen. revert s Hlen.
  induction len as [len IH] using lt_wf_ind. intros s Hlen Hst.
  destruct (mt s) as [[n r] |] eqn:E.
  - pose proof (mt_proper _ _ _ E) as Hn.
    rewrite (rw_match _ _ _ E).
    rewrite (Hst [] s eq_refl n r E).
    rewrite (IH (List.length (skipn n s))).
    + apply firstn_skipn.
    + rewrite length_skipn. lia.
    + reflexivity.
    + intros u v Huv. apply (Hst (firstn n s ++ u)).
      now rewrite <- app_assoc, <- Huv, firstn_skipn.
  - destruct s as [| c s]; [apply rw_nil |].
    rewrite (rw_copy _ _ E). f_equal.
    apply (IH (List.length s)); [simpl in Hlen; lia | reflexivity |].
    intros u v Huv. apply (Hst (c :: u)). now rewrite Huv.
Qed.

(** Either no suffix of [s] has a match, or [s] is cut at its first one. *)
Lemma first_match (s : ustr) :
  ((forall u v, s = u ++ v -> mt v = None) /\ rw mt s = s)
  \/ exists pre m rest n r,
      s = pre ++ m ++ rest
      /\ mt (m ++ rest) = Some (n, r)
      /\ List.length m = n
      /\ rw mt s = pre ++ r ++ rw mt rest
      /\ (forall u v, pre = u ++ v -> v <> [] -> mt (v ++ m ++ rest) = None).
Proof.
  induction s as [| c s IH].
  - left. split; [| apply rw_nil].
    intros u v Huv. symmetry in Huv. apply app_eq_nil in Huv.
    destruct Huv as [_ ->]. destruct (mt []) as [[n r] |] eqn:E; [| reflexivity].
    apply mt_proper in E. simpl in E. lia.
  - destruct (mt (c :: s)) as [[n r] |] eqn:E.
    + right. pose proof (mt_proper _ _ _ E) as Hn.
      exists [], (firstn n (c :: s)), (skipn n (c :: s)), n, r.
      rewrite firstn_skipn. repeat split.
      * exact E.
      * rewrite length_firstn. lia.
      * now apply rw_match.
      * intros u v Huv Hv. symmetry in Huv. apply app_eq_nil in Huv.
        destruct Huv as [_ ->]. congruence.
    + destruct IH as [[Hnone Hid] | (pre & m & rest & n & r & Hs & Hm & Hl & Hrw & Hmin)].
      * left. split; [| rewrite (rw_copy _ _ E); now rewrite Hid].
        intros u v Huv. destruct u as [| c' u].
        -- simpl in Huv. now subst v.
        -- injection Huv as _ Huv. now apply (Hnone u).
      * right. exists (c :: pre), m, rest, n, r. repeat split.
        -- simpl. now rewrite Hs.
        -- exact Hm.
        -- exact Hl.
        -- rewrite (rw_copy _ _ E). simpl. now rewrite Hrw.
        -- intros u v Huv Hv. destruct u as [| c' u].
           ++ simpl in Huv. subst v. simpl. now rewrite <- Hs.
           ++ injection Huv as _ Huv. now apply (Hmin u).
Qed.

End Rewriting.

(** Stability of one front match in the output of another. *)
Section Assembly.
Variable mtJ mtK : ustr -> option (nat * ustr).
Hypothesis mtJ_proper : proper mtJ.
Variable Hyp : ustr -> Prop.
Hypothesis Hyp_suffix : forall u v, Hyp (u ++ v) -> Hyp v.
Hypothesis front : forall s, Hyp s -> stable mtK (rw mtJ s).
Hypothesis inside :
  forall s n r, Hyp s -> mtJ s = Some (n, r) ->
  forall x y, r = x ++ y -> x <> [] -> y <> [] ->
  stable mtK (y ++ rw mtJ (skipn n s)).

Lemma Stable_rw (s : ustr) : Hyp s -> Stable mtK (rw mtJ s).
Proof.
  remember (List.length s) as len eqn:Hlen. revert s Hlen.
  induction len as [len IH] using lt_wf_ind. intros s Hlen Hs u v Huv.
  destruct u as [| c0 u0]; [simpl in Huv; subst v; now apply front |].
  destruct (mtJ s) as [[n r] |] eqn:E.
  - pose proof (mtJ_proper _ _ _ E) as Hn.
    rewrite (rw_match mtJ mtJ_proper _ _ _ E) in Huv.
    assert (Hrest : Hyp (skipn n s))
      by (apply (Hyp_suffix (firstn n s)); now rewrite firstn_skipn).
    assert (Hlt : List.length (skipn n s) < len)
      by (rewrite length_skipn; lia).
    apply app_eq_app in Huv. destruct Huv as [z [[Hr Hv] | [Hu Ho]]].
    + destruct z as [| cz z].
      * simpl in Hv. subst v.
        apply (IH _ Hlt (skipn n s) eq_refl Hrest []). reflexivity.
      * subst v. apply (inside s n r Hs E (c0 :: u0) (cz :: z) Hr);
          discriminate.
    + apply (IH _ Hlt (skipn n s) eq_refl Hrest z). exact Ho.
  - destruct s as [| c s].
    + rewrite (rw_nil mtJ mtJ_proper) in Huv. discriminate.
    + rewrite (rw_copy mtJ _ _ E) in Huv. injection Huv as _ Huv.
      assert (Hs' : Hyp s) by (apply (Hyp_suffix [c]); exact Hs).
      apply (IH (List.length s)) with (s := s) (u := u0);
        [simpl in Hlen; lia | reflexivity | exact Hs' | exact Huv].
Qed.

End Assembly.

(** *** Greedy repetition *)

Lemma first_some_countdown {B : Type} (f : nat -> option B) (lo k : nat) :
  (forall j, lo <= j < k -> f j = None) ->
  Re.first_some f (Re.countdown lo k) = if lo <=? k then f k else None.
Proof.
  induction k as [| k IH]; intros Hnone.
  - simpl. destruct lo; simpl; [destruct (f 0); reflexivity | reflexivity].
  - change (Re.countdown lo (S k))
      with (if S k <? lo then [] else S k :: Re.countdown lo k).
    destruct (Nat.ltb_spec (S k) lo) as [Hlt | Hge].
    + destruct (Nat.leb_spec lo (S k)); [lia | reflexivity].
    + destruct (Nat.leb_spec lo (S k)) as [_ | Hgt]; [| lia].
      simpl. destruct (f (S k)) eqn:Ef; [reflexivity |].
      rewrite IH by (intros j Hj; apply Hnone; lia).
      destruct (Nat.leb_spec lo k); [apply Hnone; lia | reflexivity].
Qed.

Lemma span_split (p : N -> bool) (s : ustr) :
  all p (firstn (Re.span p None s) s)
  /\ stops p (skipn (Re.span p None s) s).
Proof.
  induction s as [| c s [IH1 IH2]]; simpl; [split; constructor |].
  destruct (p c) eqn:E; simpl.
  - split; [constructor; assumption | assumption].
  - split; [constructor | exact E].
Qed.

Lemma span_app (p : N -> bool) (a b : ustr) :
  all p a -> stops p b -> Re.span p None (a ++ b) = List.length a.
Proof.
  intros Ha Hb. induction Ha as [| c a Hc Ha IH]; simpl.
  - destruct b as [| c b]; [reflexivity |]. simpl in *. now rewrite Hb.
  - now rewrite Hc, IH.
Qed.

(** Before the end of the span every suffix starts inside the class. *)
Lemma span_inside (p : N -> bool) (s : ustr) (j : nat) :
  j < Re.span p None s -> exists c r, skipn j s = c :: r /\ p c = true.
Proof.
  revert j. induction s as [| c s IH]; intros j Hj; simpl in Hj; [lia |].
  destruct (p c) eqn:E; [| lia].
  destruct j as [| j]; [exists c, s; now split |].
  simpl. apply IH. lia.
Qed.

Lemma span_le_length (p : N -> bool) (s : ustr) :
  Re.span p None s <= List.length s.
Proof.
  induction s as [| c s IH]; simpl; [lia |]. destruct (p c); simpl; lia.
Qed.

Lemma all_app (p : N -> bool) (a b : ustr) :
  all p (a ++ b) <-> all p a /\ all p b.
Proof. apply Forall_app. Qed.

Lemma first_some_countdown_top {B : Type} (f : nat -> option B)
    (lo k : nat) (y : B) :
  lo <= k -> f k = Some y -> Re.first_some f (Re.countdown lo k) = Some y.
Proof.
  intros Hle Hf. destruct k as [| k].
  - assert (lo = 0) by lia. subst lo. simpl. now rewrite Hf.
  - change (Re.countdown lo (S k))
      with (if S k <? lo then [] else S k :: Re.countdown lo k).
    destruct (Nat.ltb_spec (S k) lo); [lia |]. simpl. now rewrite Hf.
Qed.

Lemma countdown_above (lo k : nat) : k < lo -> Re.countdown lo k = [].
Proof.
  intros H. destruct k as [| k].
  - destruct lo; [lia | reflexivity].
  - change (Re.countdown lo (S k))
      with (if S k <? lo then [] else S k :: Re.countdown lo k).
    destruct (Nat.ltb_spec (S k) lo); [reflexivity | lia].
Qed.

(** *** The key redactions in closed form *)

Lemma rmatch_key_tail (prev : option N) (s : ustr) (n : nat) (marks : list nat) :
  Re.rmatch key_tail prev s n marks
  = match Re.span u_nonspace None s with
    | 0 => None
    | t => Some (n + t, (n + t) :: n :: n :: marks)
    end.
Proof.
  unfold key_tail. cbn [Re.rmatch].
  destruct (Re.span u_nonspace None s) as [| t] eqn:E.
  - reflexivity.
  - apply first_some_countdown_top; [lia | reflexivity].
Qed.

Lemma rmatch_lit_ci (K : ustr) (tail : Re.pattern N) :
  no_bnd tail = true ->
  forall s prev n marks,
    Re.rmatch (map (fun a => Re.One (u_ci a)) K ++ tail) prev s n marks
    = match strip_key K s with
      | Some rest => Re.rmatch tail None rest (n + List.length K) marks
      | None => None
      end.
Proof.
  intros Hb. induction K as [| a K IH]; intros s prev n marks; simpl.
  - rewrite Nat.add_0_r. now apply rmatch_prev.
  - destruct s as [| c s]; [reflexivity |].
    destruct (u_ci a c); [| reflexivity].
    rewrite IH. now replace (S n + List.length K) with (n + S (List.length K)) by lia.
Qed.

Lemma rmatch_spaces_key_tail (prev : option N) (s : ustr) (n : nat)
    (marks : list nat) :
  Re.rmatch (Re.Many u_space 0 None :: key_tail) prev s n marks
  = Re.rmatch key_tail None (skipn (Re.span u_space None s) s)
              (n + Re.span u_space None s) marks.
Proof.
  cbn [Re.rmatch]. fold key_tail. rewrite first_some_countdown.
  - cbn [Nat.leb]. now apply rmatch_prev.
  - intros j [_ Hj]. destruct (span_inside _ _ _ Hj) as (c & r & -> & Hc).
    rewrite rmatch_key_tail. simpl. unfold u_nonspace at 1. now rewrite Hc.
Qed.

Lemma front_match_key (key : string) (sp : bool) (s : ustr) :
  front_match (fst (key_redaction key sp)) true REDACTED s
  = key_match (U key) sp s.
Proof.
  unfold front_match, key_redaction, key_match, lit_ci. cbn [fst app Re.rmatch].
  fold key_tail. rewrite rmatch_lit_ci by (destruct sp; reflexivity).
  destruct (strip_key (U key) s) as [rest |]; [| reflexivity].
  assert (Hgroup : forall e g, Re.group 1 [e; g; g; 0] s = firstn g s).
  { intros e g. unfold Re.group. simpl. now rewrite Nat.sub_0_r. }
  destruct sp; cbn [app].
  - rewrite rmatch_spaces_key_tail, rmatch_key_tail.
    destruct (Re.span u_nonspace None _); [reflexivity |].
    cbv zeta. cbn [Nat.add]. now rewrite Hgroup.
  - rewrite rmatch_key_tail. cbn [skipn].
    destruct (Re.span u_nonspace None rest); [reflexivity |].
    cbv zeta. cbn [Nat.add]. now rewrite Hgroup, !Nat.add_0_r.
Qed.

(** *** Keys and the characters that match them *)

Lemma u_ci_true (a c : N) :
  u_ci a c = true
  <-> (c = a
       \/ ((97 <= a)%N /\ (a <= 122)%N /\ c = (a - 32)%N)
       \/ (a = 105%N /\ (c = 304%N \/ c = 305%N))
       \/ (a = 115%N /\ c = 383%N)
       \/ (a = 107%N /\ c = 8490%N)).
Proof.
  unfold u_ci.
  rewrite !orb_true_iff, !andb_true_iff, !orb_true_iff, !N.eqb_eq, !N.leb_le.
  tauto.
Qed.

Lemma plain_true (a : N) :
  plain a = true
  <-> ((97 <= a)%N /\ (a <= 122)%N) \/ a = 58%N \/ a = 61%N \/ a = 95%N.
Proof.
  unfold plain.
  rewrite !orb_true_iff, !andb_true_iff, !N.eqb_eq, !N.leb_le. tauto.
Qed.

Lemma fold_cases (c : N) :
  ((65 <= c)%N /\ (c <= 90)%N /\ fold c = (c + 32)%N)
  \/ ((c = 304%N \/ c = 305%N) /\ fold c = 105%N)
  \/ (c = 383%N /\ fold c = 115%N)
  \/ (c = 8490%N /\ fold c = 107%N)
  \/ (((c < 65)%N \/ (90 < c)%N) /\ c <> 304%N /\ c <> 305%N /\ c <> 383%N
      /\ c <> 8490%N /\ fold c = c).
Proof.
  unfold fold.
  destruct (N.leb_spec 65 c); destruct (N.leb_spec c 90); cbn [andb];
    try (left; repeat split; assumption);
    (destruct (N.eqb_spec c 304); [right; left; split; [now left | reflexivity] |]);
    (destruct (N.eqb_spec c 305); [right; left; split; [now right | reflexivity] |]);
    cbn [orb];
    (destruct (N.eqb_spec c 383); [right; right; left; now split |]);
    (destruct (N.eqb_spec c 8490); [right; right; right; left; now split |]);
    right; right; right; right; repeat split; try assumption; lia.
Qed.

Lemma u_ci_fold (a c : N) :
  plain a = true -> (u_ci a c = true <-> fold c = a).
Proof.
  intros Ha. apply plain_true in Ha. rewrite u_ci_true.
  pose proof (fold_cases c) as Hf. lia.
Qed.

Lemma strip_key_intro (K k rest : ustr) :
  Forall (fun a => plain a = true) K ->
  map fold k = K -> strip_key K (k ++ rest) = Some rest.
Proof.
  intros HK. revert k. induction HK as [| a K Ha HK IH]; intros k Hk.
  - destruct k; [reflexivity | discriminate].
  - destruct k as [| c k]; [discriminate |]. injection Hk as Hc Hk.
    simpl. apply (u_ci_fold a c Ha) in Hc. rewrite Hc. now apply IH.
Qed.

Lemma strip_key_elim (K s rest : ustr) :
  Forall (fun a => plain a = true) K ->
  strip_key K s = Some rest ->
  exists k, s = k ++ rest /\ map fold k = K.
Proof.
  intros HK. revert s. induction HK as [| a K Ha HK IH]; intros s Hs.
  - exists []. simpl in Hs. injection Hs as ->. now split.
  - destruct s as [| c s]; [discriminate |]. simpl in Hs.
    destruct (u_ci a c) eqn:Hc; [| discriminate].
    destruct (IH s Hs) as [k [-> Hk]]. exists (c :: k). split; [reflexivity |].
    simpl. apply (u_ci_fold a c Ha) in Hc. now rewrite Hc, Hk.
Qed.

Lemma nonspace_stops_space (tok rest : ustr) :
  tok <> [] -> all u_nonspace tok -> stops u_space (tok ++ rest).
Proof.
  intros Hne Htok. destruct tok as [| c tok]; [congruence |].
  inversion Htok as [| ? ? Hc _]; subst. simpl.
  unfold u_nonspace in Hc. now destruct (u_space c).
Qed.

Lemma key_match_intro (K : ustr) (sp : bool) (v k ws tok rest : ustr) :
  Forall (fun a => plain a = true) K ->
  key_occ K sp v k ws tok rest ->
  key_match K sp v
  = Some (List.length (k ++ ws ++ tok), k ++ ws ++ REDACTED).
Proof.
  intros HK (Hv & Hk & Hws & Hsp & Hne & Htok & Hrest).
  assert (Hlen : List.length k = List.length K)
    by (rewrite <- Hk; now rewrite length_map).
  unfold key_match. rewrite Hv, (strip_key_intro K k _ HK Hk).
  assert (Hw : (if sp then Re.span u_space None (ws ++ tok ++ rest) else 0)
               = List.length ws).
  { destruct sp.
    - apply span_app; [exact Hws | now apply nonspace_stops_space].
    - now rewrite (Hsp eq_refl). }
  rewrite Hw. rewrite skipn_app, Nat.sub_diag, skipn_all. cbn [skipn app].
  rewrite (span_app u_nonspace tok rest Htok Hrest).
  destruct tok as [| c tok]; [congruence |]. cbn [List.length].
  f_equal. f_equal.
  - rewrite !length_app. cbn [List.length]. lia.
  - rewrite (app_assoc k ws REDACTED). f_equal.
    rewrite <- Hlen, app_assoc, <- length_app.
    now rewrite firstn_app, Nat.sub_diag, firstn_all, app_nil_r.
Qed.

Lemma key_match_elim (K : ustr) (sp : bool) (v : ustr) (n : nat) (r : ustr) :
  Forall (fun a => plain a = true) K ->
  key_match K sp v = Some (n, r) ->
  exists k ws tok rest,
    key_occ K sp v k ws tok rest
    /\ n = List.length (k ++ ws ++ tok)
    /\ r = k ++ ws ++ REDACTED.
Proof.
  intros HK Hm. unfold key_match in Hm.
  destruct (strip_key K v) as [rest0 |] eqn:Hs; [| discriminate].
  destruct (strip_key_elim K v rest0 HK Hs) as [k [Hv Hk]].
  cbv zeta in Hm.
  set (w := if sp then Re.span u_space None rest0 else 0) in *.
  set (ws := firstn w rest0). set (rest1 := skipn w rest0) in *.
  set (t := Re.span u_nonspace None rest1) in *.
  set (tok := firstn t rest1). set (rest := skipn t rest1).
  assert (Ht : t <> 0) by (intros E; rewrite E in Hm; discriminate).
  assert (Hlen : List.length k = List.length K)
    by (rewrite <- Hk; now rewrite length_map).
  assert (Hwl : List.length ws = w).
  { unfold ws. rewrite length_firstn. apply Nat.min_l. unfold w.
    destruct sp; [apply span_le_length | lia]. }
  assert (Htl : List.length tok = t).
  { unfold tok. rewrite length_firstn. apply Nat.min_l. apply span_le_length. }
  assert (Hocc : key_occ K sp v k ws tok rest).
  { unfold key_occ. repeat split.
    - unfold tok, rest, ws. rewrite firstn_skipn. unfold rest1.
      now rewrite firstn_skipn.
    - exact Hk.
    - unfold ws, w. destruct sp; [apply span_split | constructor].
    - intros E. unfold ws, w. now rewrite E.
    - intros E. rewrite E in Htl. simpl in Htl. congruence.
    - apply span_split.
    - apply span_split. }
  exists k, ws, tok, rest. split; [exact Hocc |].
  destruct t as [| t'] eqn:Et; [congruence |]. injection Hm as <- <-.
  split.
  - rewrite !length_app. lia.
  - rewrite (app_assoc k ws REDACTED). f_equal.
    destruct Hocc as [Hv' _]. rewrite Hv' at 1.
    rewrite <- Hlen, <- Hwl, app_assoc, <- length_app.
    now rewrite firstn_app, Nat.sub_diag, firstn_all, app_nil_r.
Qed.

Lemma key_match_proper (K : ustr) (sp : bool) :
  Forall (fun a => plain a = true) K -> proper (key_match K sp).
Proof.
  intros HK s n r Hm.
  destruct (key_match_elim K sp s n r HK Hm)
    as (k & ws & tok & rest & (Hv & _ & _ & _ & Hne & _) & -> & _).
  rewrite Hv, !length_app. destruct tok; [congruence |]. simpl. lia.
Qed.

Lemma u_space_true (c : N) :
  u_space c = true
  <-> ((9 <= c)%N /\ (c <= 13)%N) \/ ((28 <= c)%N /\ (c <= 32)%N)
      \/ c = 133%N \/ c = 160%N \/ c = 5760%N
      \/ ((8192 <= c)%N /\ (c <= 8202)%N)
      \/ c = 8232%N \/ c = 8233%N \/ c = 8239%N \/ c = 8287%N
      \/ c = 12288%N.
Proof.
  unfold u_space.
  rewrite !orb_true_iff, !andb_true_iff, !N.eqb_eq, !N.leb_le. tauto.
Qed.

(** A key character is no space and no bracket. *)
Lemma keychar_nonspace (c : N) : keychar c = true -> u_nonspace c = true.
Proof.
  unfold keychar, u_nonspace. intros H. apply plain_true in H.
  destruct (u_space c) eqn:E; [| reflexivity].
  apply u_space_true in E. pose proof (fold_cases c). lia.
Qed.

Lemma keychar_not_bracket (c : N) :
  keychar c = true -> c <> 91%N /\ c <> 93%N.
Proof.
  unfold keychar. intros H. apply plain_true in H.
  pose proof (fold_cases c). lia.
Qed.

Lemma key_text_keychars (K k : ustr) :
  Forall (fun a => plain a = true) K -> map fold k = K -> all keychar k.
Proof.
  intros HK. revert k. induction HK as [| a K Ha HK IH]; intros k Hk.
  - destruct k; [constructor | discriminate].
  - destruct k as [| c k]; [discriminate |]. injection Hk as Hc Hk.
    constructor; [unfold keychar; now rewrite Hc | now apply IH].
Qed.

Lemma all_impl (p q : N -> bool) (s : ustr) :
  (forall c, p c = true -> q c = true) -> all p s -> all q s.
Proof. intros H. apply Forall_impl. exact H. Qed.

Lemma space_not_nonspace (c : N) : u_space c = true -> u_nonspace c = false.
Proof. unfold u_nonspace. now intros ->. Qed.

(** *** Cutting a text in two ways *)

(** A prefix made of characters other than [b] ends before the first [b]. *)
Lemma prefix_before (b : N) (k x A B : ustr) :
  ~ In b k -> k ++ x = A ++ b :: B ->
  exists A', A = k ++ A' /\ x = A' ++ b :: B.
Proof.
  intros Hk H. apply app_eq_app in H. destruct H as [l [[Hl Hb] | [Hl Hx]]].
  - destruct l as [| c l].
    + exists []. rewrite app_nil_r in Hl. simpl in Hb. subst.
      split; [now rewrite app_nil_r | reflexivity].
    + injection Hb as <- _. exfalso. apply Hk. rewrite Hl.
      apply in_or_app. right. now left.
  - exists l. now split.
Qed.

(** The run of a class at the front of a text is determined. *)
Lemma run_unique (p : N -> bool) (a b a' b' : ustr) :
  all p a -> stops p b -> all p a' -> stops p b' ->
  a ++ b = a' ++ b' -> a = a' /\ b = b'.
Proof.
  intros Ha Hb Ha' Hb' H.
  assert (Hlen : List.length a = List.length a').
  { rewrite <- (span_app p a b Ha Hb), <- (span_app p a' b' Ha' Hb').
    now rewrite H. }
  split.
  - apply (f_equal (firstn (List.length a))) in H.
    rewrite firstn_app, Nat.sub_diag, firstn_all, app_nil_r in H.
    rewrite Hlen, firstn_app, Nat.sub_diag, firstn_all, app_nil_r in H.
    exact H.
  - apply (f_equal (skipn (List.length a))) in H.
    rewrite skipn_app, Nat.sub_diag, skipn_all in H.
    rewrite Hlen, skipn_app, Nat.sub_diag, skipn_all in H. exact H.
Qed.

Lemma all_not_in (p : N -> bool) (b : N) (s : ustr) :
  all p s -> p b = false -> ~ In b s.
Proof.
  intros Hs Hb Hin. unfold all in Hs. rewrite Forall_forall in Hs.
  specialize (Hs b Hin). congruence.
Qed.

Lemma stops_app_head (p : N -> bool) (a b : ustr) :
  a <> [] -> stops p a -> stops p (a ++ b).
Proof. destruct a; [congruence | trivial]. Qed.

Lemma all_REDACTED : all u_nonspace REDACTED.
Proof. repeat constructor. Qed.

Lemma all_JWT_REDACTED : all u_nonspace JWT_REDACTED.
Proof. repeat constructor. Qed.

Lemma app_same_length (a b a' b' : ustr) :
  a ++ b = a' ++ b' -> List.length a = List.length a' -> a = a' /\ b = b'.
Proof.
  revert a'. induction a as [| c a IH]; intros [| c' a'] H Hl;
    try discriminate; [now split |].
  injection H as -> H. injection Hl as Hl.
  destruct (IH a' H Hl) as [-> ->]. now split.
Qed.

(** *** Stability of a key redaction, by occurrences *)

Section KeyStability.
Variable K : ustr.
Variable sp : bool.
Hypothesis HK : is_key K.

Lemma stable_key_intro (v : ustr) :
  (forall k ws tok rest, key_occ K sp v k ws tok rest -> tok = REDACTED) ->
  stable (key_match K sp) v.
Proof.
  intros H n r Hm.
  destruct (key_match_elim K sp v n r (proj2 HK) Hm)
    as (k & ws & tok & rest & Hocc & -> & ->).
  pose proof (H k ws tok rest Hocc) as ->.
  destruct Hocc as (-> & _).
  rewrite !app_assoc, firstn_app, Nat.sub_diag, firstn_all, app_nil_r.
  reflexivity.
Qed.

Lemma stable_key_elim (v k ws tok rest : ustr) :
  stable (key_match K sp) v -> key_occ K sp v k ws tok rest -> tok = REDACTED.
Proof.
  intros Hst Hocc.
  pose proof (Hst _ _ (key_match_intro K sp v k ws tok rest (proj2 HK) Hocc)) as H.
  destruct Hocc as (-> & _).
  rewrite !app_assoc, firstn_app, Nat.sub_diag, firstn_all, app_nil_r in H.
  rewrite <- !app_assoc in H.
  apply app_inv_head in H. apply app_inv_head in H. now symmetry.
Qed.

(** No match of the key starts with a space. *)
Lemma key_match_space (c : N) (s : ustr) :
  u_nonspace c = false -> key_match K sp (c :: s) = None.
Proof.
  intros Hc. unfold key_match. destruct HK as [Hne Hpl].
  destruct K as [| a K']; [congruence |]. simpl.
  destruct (u_ci a c) eqn:E; [| reflexivity].
  inversion Hpl as [| ? ? Ha _]; subst.
  apply (u_ci_fold a c Ha) in E.
  assert (Hk : keychar c = true) by (unfold keychar; now rewrite E).
  apply keychar_nonspace in Hk. congruence.
Qed.

Lemma rw_key_stops (rest : ustr) :
  stops u_nonspace rest -> stops u_nonspace (rw (key_match K sp) rest).
Proof.
  destruct rest as [| c rest]; intros H.
  - rewrite rw_nil; [exact I | apply key_match_proper, HK].
  - simpl in H. rewrite rw_copy by (now apply key_match_space). exact H.
Qed.

(** A match at the front of [A ++ m ++ o], where [m] starts with a
    bracket: the key and its spaces lie in [A]. *)
Lemma key_occ_before_bracket (A m o k ws tok rest : ustr) :
  key_occ K sp (A ++ (91%N :: m) ++ o) k ws tok rest ->
  exists A', A = k ++ ws ++ A' /\ tok ++ rest = A' ++ (91%N :: m) ++ o.
Proof.
  intros (Hv & Hk & Hws & _).
  assert (Hnot : ~ In 91%N (k ++ ws)).
  { intros Hin. apply in_app_or in Hin. destruct Hin as [Hin | Hin].
    - pose proof (key_text_keychars K k (proj2 HK) Hk) as Hkc.
      unfold all in Hkc. rewrite Forall_forall in Hkc.
      apply Hkc in Hin. apply keychar_not_bracket in Hin. tauto.
    - unfold all in Hws. rewrite Forall_forall in Hws.
      apply Hws in Hin. discriminate Hin. }
  rewrite (app_assoc k ws) in Hv. symmetry in Hv. simpl in Hv.
  destruct (prefix_before 91%N (k ++ ws) (tok ++ rest) A (m ++ o) Hnot Hv)
    as [A' [HA Hx]].
  exists A'. rewrite <- app_assoc in HA. now split.
Qed.

(** After the key and its spaces, a text that starts outside the spaces
    gives a match. *)
Lemma key_occ_of_head (k ws : ustr) (h : N) (x : ustr) :
  map fold k = K -> all u_space ws -> (sp = false -> ws = []) ->
  u_nonspace h = true ->
  exists tok rest,
    h :: x = tok ++ rest
    /\ key_occ K sp (k ++ ws ++ h :: x) k ws tok rest.
Proof.
  intros Hk Hws Hsp Hh.
  set (t := Re.span u_nonspace None (h :: x)).
  exists (firstn t (h :: x)), (skipn t (h :: x)).
  split; [now rewrite firstn_skipn |].
  unfold key_occ. rewrite firstn_skipn. repeat split; try assumption.
  - unfold t. simpl. rewrite Hh. discriminate.
  - apply span_split.
  - apply span_split.
Qed.

End KeyStability.

(** *** A key redaction on its own output *)

Section KeySelf.
Variable K : ustr.
Variable sp : bool.
Hypothesis HK : is_key K.

Let mt := key_match K sp.
Let mt_proper : proper mt := key_match_proper K sp (proj2 HK).

Lemma key_self_front (s : ustr) : stable mt (rw mt s).
Proof.
  destruct (first_match mt mt_proper s)
    as [[Hnone Hid] | (pre & m & rest & n & r & Hs & Hm & Hl & Hrw & Hmin)].
  { rewrite Hid. intros n r Hm. rewrite (Hnone [] s eq_refl) in Hm.
    discriminate. }
  destruct (key_match_elim K sp _ n r (proj2 HK) Hm)
    as (kJ & wsJ & tokJ & restJ & Hocc & Hn & Hr).
  assert (Hcut : m = kJ ++ wsJ ++ tokJ /\ rest = restJ).
  { destruct Hocc as (Hv & _). rewrite !app_assoc in Hv.
    apply app_same_length in Hv; [| rewrite <- !app_assoc; congruence].
    rewrite <- !app_assoc in Hv. exact Hv. }
  destruct Hcut as [-> <-].
  apply stable_key_intro; [exact HK |]. intros k ws tok resto Hocc'.
  rewrite Hrw, Hr in Hocc'.
  replace (pre ++ (kJ ++ wsJ ++ REDACTED) ++ rw mt rest)
    with ((pre ++ kJ ++ wsJ) ++ (91%N :: REDACTED_tail) ++ rw mt rest)
    in Hocc' by (rewrite <- !app_assoc; reflexivity).
  destruct (key_occ_before_bracket K sp HK _ _ _ _ _ _ _ Hocc')
    as [A' [HA Hx]].
  destruct Hocc' as (_ & Hk & Hws & Hsp & Hne & Htok & Hresto).
  destruct Hocc as (_ & HkJ & HwsJ & HspJ & HneJ & HtokJ & Hrest).
  change (91%N :: REDACTED_tail) with REDACTED in Hx.
  destruct A' as [| h A3].
  - simpl in Hx.
    apply (run_unique u_nonspace tok resto REDACTED (rw mt rest)); trivial.
    + apply all_REDACTED.
    + now apply rw_key_stops.
  - exfalso.
    assert (Hh : u_nonspace h = true).
    { destruct tok as [| c tok]; [congruence |]. injection Hx as -> _.
      now inversion Htok. }
    destruct (key_occ_of_head K sp k ws h (A3 ++ tokJ ++ rest) Hk Hws Hsp Hh)
      as (tok_s & rest_s & _ & Hocc_s).
    assert (Hs' : s = k ++ ws ++ h :: A3 ++ tokJ ++ rest).
    { rewrite Hs.
      transitivity ((pre ++ kJ ++ wsJ) ++ tokJ ++ rest);
        [now rewrite <- !app_assoc |].
      rewrite HA. rewrite <- !app_assoc. reflexivity. }
    rewrite <- Hs' in Hocc_s.
    pose proof (key_match_intro K sp s k ws tok_s rest_s (proj2 HK) Hocc_s)
      as Hms.
    destruct pre as [| c pre'].
    + simpl in Hs. rewrite <- Hs in Hm. fold mt in Hms. rewrite Hm in Hms.
      injection Hms as _ Hr'. rewrite Hr in Hr'.
      rewrite !(app_assoc _ _ REDACTED) in Hr'. apply app_inv_tail in Hr'.
      simpl in HA. rewrite Hr' in HA.
      apply (f_equal (@List.length N)) in HA.
      rewrite !length_app in HA. simpl in HA. lia.
    + assert (Hnone : mt ((c :: pre') ++ (kJ ++ wsJ ++ tokJ) ++ rest) = None)
        by (apply (Hmin [] (c :: pre') eq_refl); discriminate).
      rewrite <- Hs in Hnone. fold mt in Hms. congruence.
Qed.

End KeySelf.

Lemma occurs_inside_intro (K J X Y : ustr) :
  J = X ++ K ++ Y -> X <> [] -> occurs_inside K J = true.
Proof.
  intros HJ HX. unfold occurs_inside. apply existsb_exists.
  destruct X as [| c X]; [congruence |].
  exists (List.length X). split.
  - apply in_seq. rewrite HJ, length_app. simpl. lia.
  - rewrite HJ. change (S (List.length X)) with (List.length (c :: X)).
    rewrite skipn_app, Nat.sub_diag, skipn_all. cbn [skipn app].
    rewrite firstn_app, Nat.sub_diag, firstn_all, app_nil_r.
    destruct (list_eq_dec N.eq_dec K K); [reflexivity | congruence].
Qed.

Lemma fold_last (k : ustr) (z : N) (K : ustr) :
  map fold (k ++ [z]) = K -> fold z = last K 0%N.
Proof. intros <-. rewrite map_app. simpl. now rewrite last_last. Qed.

Lemma nonempty_last (l : ustr) : l <> [] -> exists l' z, l = l' ++ [z].
Proof.
  intros H. destruct (exists_last H) as (l' & z & ->). now exists l', z.
Qed.

(** Inside a marker that ends with a closing bracket no key starts. *)
Lemma no_key_in_marker (K : ustr) (sp : bool) (m l y o : ustr) :
  is_key K -> marker_avoids K (m ++ [93%N]) ->
  m ++ [93%N] = l ++ y -> y <> [] ->
  key_match K sp (y ++ o) = None.
Proof.
  intros HK Hav Hm Hy. unfold key_match.
  destruct (strip_key K (y ++ o)) as [rest0 |] eqn:Hs; [| reflexivity].
  exfalso.
  destruct (strip_key_elim K _ _ (proj2 HK) Hs) as [k [Hv Hk]].
  destruct (nonempty_last y Hy) as (y' & z & ->).
  rewrite app_assoc in Hm. apply app_inj_tail in Hm. destruct Hm as [Hm <-].
  rewrite <- app_assoc in Hv. simpl in Hv. symmetry in Hv.
  assert (Hnot : ~ In 93%N k).
  { intros Hin. pose proof (key_text_keychars K k (proj2 HK) Hk) as Hkc.
    unfold all in Hkc. rewrite Forall_forall in Hkc. apply Hkc in Hin.
    apply keychar_not_bracket in Hin. tauto. }
  destruct (prefix_before _ _ _ _ _ Hnot Hv) as [A' [Hy' _]].
  assert (Hkne : k <> []).
  { intros ->. simpl in Hk. destruct HK as [HK _]. congruence. }
  destruct (nonempty_last k Hkne) as (k' & c & ->).
  pose proof (fold_last k' c K Hk) as Hc.
  unfold marker_avoids in Hav. rewrite Forall_forall in Hav.
  apply (Hav c); [| exact Hc].
  rewrite Hm, Hy', !in_app_iff. simpl. tauto.
Qed.

Section KeyInside.
Variables J K : ustr.
Variables spJ spK : bool.
Hypothesis HJ : is_key J.
Hypothesis HK : is_key K.
Hypothesis Hav : marker_avoids K REDACTED.
Hypothesis Hrel :
  (J = K /\ spJ = spK) \/ (spJ = false /\ occurs_inside K J = false).

(** No match of [K] that is not already replaced starts inside what a
    match of [J] is replaced with. *)
Lemma key_inside (s : ustr) (n : nat) (r : ustr) :
  key_match J spJ s = Some (n, r) ->
  forall x y o, r = x ++ y -> x <> [] -> y <> [] ->
  stable (key_match K spK) (y ++ o).
Proof.
  intros Hm x y o Hr Hx Hy.
  destruct (key_match_elim J spJ s n r (proj2 HJ) Hm)
    as (kJ & wsJ & tokJ & restJ & Hocc & _ & Hr').
  rewrite Hr' in Hr. rewrite app_assoc in Hr. symmetry in Hr.
  assert (Hmarker : forall l, REDACTED = l ++ y ->
                              stable (key_match K spK) (y ++ o)).
  { intros l Hl n' r' Hm'.
    rewrite (no_key_in_marker K spK (U "[REDACTED") l y o HK Hav Hl Hy) in Hm'.
    discriminate. }
  apply app_eq_app in Hr. destruct Hr as [l [[_ Hl] | [Hl Hy']]].
  { now apply (Hmarker l). }
  destruct l as [| c0 l0]; [apply (Hmarker []); now rewrite Hy' |].
  apply stable_key_intro; [exact HK |]. intros k ws tok resto Hocc'.
  exfalso. rewrite Hy' in Hocc'.
  replace (((c0 :: l0) ++ REDACTED) ++ o)
    with ((c0 :: l0) ++ (91%N :: REDACTED_tail) ++ o) in Hocc'
    by (rewrite <- !app_assoc; reflexivity).
  destruct (key_occ_before_bracket K spK HK _ _ _ _ _ _ _ Hocc')
    as [A' [HA _]].
  destruct Hocc' as (_ & Hk & Hws & _).
  destruct Hocc as (_ & HkJ & HwsJ & HspJ & _).
  rewrite HA in Hl.
  assert (Hlen : forall k0, map fold k0 = K -> List.length k0 = List.length K)
    by (intros k0 <-; now rewrite length_map).
  destruct Hrel as [[HJK <-] | [HspF Hocc_in]].
  - (* the same key *)
    rewrite HJK in HkJ.
    pose proof (Hlen k Hk) as Hlk. pose proof (Hlen kJ HkJ) as HlkJ.
    assert (Hxk : kJ ++ wsJ = (x ++ k) ++ ws ++ A')
      by (rewrite Hl; now rewrite <- !app_assoc).
    apply app_eq_app in Hxk. destruct Hxk as [l3 [[H1 _] | [H1 H2]]].
    + apply (f_equal (@List.length N)) in H1. rewrite !length_app in H1.
      destruct x; [congruence | simpl in H1; lia].
    + destruct l3 as [| c3 l3].
      * rewrite app_nil_r in H1. apply (f_equal (@List.length N)) in H1.
        rewrite !length_app in H1. destruct x; [congruence | simpl in H1; lia].
      * assert (Hkne : k <> []).
        { intros ->. simpl in Hk. destruct HK as [HK0 _]. congruence. }
        destruct (nonempty_last k Hkne) as (k' & z & ->).
        destruct (nonempty_last (c3 :: l3)) as (l3' & z' & Hl3);
          [discriminate |].
        rewrite Hl3 in H1, H2. rewrite !app_assoc in H1.
        apply app_inj_tail in H1. destruct H1 as [_ Hz]. subst z'.
        assert (Hzs : u_space z = true).
        { unfold all in HwsJ. rewrite Forall_forall in HwsJ. apply HwsJ.
          rewrite H2, !in_app_iff. simpl. tauto. }
        assert (Hzk : keychar z = true).
        { pose proof (key_text_keychars K _ (proj2 HK) Hk) as Hkc.
          unfold all in Hkc. rewrite Forall_forall in Hkc. apply Hkc.
          rewrite in_app_iff. simpl. tauto. }
        apply keychar_nonspace in Hzk. unfold u_nonspace in Hzk.
        rewrite Hzs in Hzk. discriminate.
  - (* another key, without spaces *)
    rewrite (HspJ HspF), app_nil_r in Hl.
    assert (HJx : J = map fold x ++ K ++ map fold (ws ++ A')).
    { rewrite <- HkJ, Hl, !map_app, Hk. reflexivity. }
    rewrite (occurs_inside_intro K J _ _ HJx) in Hocc_in; [discriminate |].
    destruct x; [congruence | discriminate].
Qed.

End KeyInside.

(** *** A key redaction after another one *)

Section KeyOther.
Variables J K : ustr.
Variable spK : bool.
Hypothesis HJ : is_key J.
Hypothesis HK : is_key K.
Hypothesis HavJ : marker_avoids J REDACTED.

Let mtJ := key_match J false.
Let mtK := key_match K spK.
Let mtJ_proper : proper mtJ := key_match_proper J false (proj2 HJ).

Lemma key_other_front (s : ustr) : Stable mtK s -> stable mtK (rw mtJ s).
Proof.
  intros Hst.
  destruct (first_match mtJ mtJ_proper s)
    as [[Hnone Hid] | (pre & m & rest & n & r & Hs & Hm & Hl & Hrw & Hmin)].
  { rewrite Hid. apply (Hst [] s eq_refl). }
  destruct (key_match_elim J false _ n r (proj2 HJ) Hm)
    as (kJ & wsJ & tokJ & restJ & Hocc & Hn & Hr).
  assert (Hcut : m = kJ ++ wsJ ++ tokJ /\ rest = restJ).
  { destruct Hocc as (Hv & _). rewrite !app_assoc in Hv.
    apply app_same_length in Hv; [| rewrite <- !app_assoc; congruence].
    rewrite <- !app_assoc in Hv. exact Hv. }
  destruct Hcut as [-> <-].
  apply stable_key_intro; [exact HK |]. intros k ws tok resto Hocc'.
  rewrite Hrw, Hr in Hocc'.
  replace (pre ++ (kJ ++ wsJ ++ REDACTED) ++ rw mtJ rest)
    with ((pre ++ kJ ++ wsJ) ++ (91%N :: REDACTED_tail) ++ rw mtJ rest)
    in Hocc' by (rewrite <- !app_assoc; reflexivity).
  destruct (key_occ_before_bracket K spK HK _ _ _ _ _ _ _ Hocc')
    as [A' [HA Hx]].
  destruct Hocc' as (_ & Hk & Hws & Hsp & Hne & Htok & Hresto).
  destruct Hocc as (_ & HkJ & HwsJ & HspJ & HneJ & HtokJ & Hrest).
  change (91%N :: REDACTED_tail) with REDACTED in Hx.
  pose proof (rw_key_stops J false HJ rest Hrest) as Hstops. fold mtJ in Hstops.
  destruct A' as [| h A3].
  { simpl in Hx.
    apply (run_unique u_nonspace tok resto REDACTED (rw mtJ rest)); trivial.
    apply all_REDACTED. }
  assert (Hh : u_nonspace h = true).
  { destruct tok as [| c tok]; [congruence |]. injection Hx as -> _.
    now inversion Htok. }
  destruct (key_occ_of_head K spK k ws h (A3 ++ tokJ ++ rest) Hk Hws Hsp Hh)
    as (tok_s & rest_s & Hsplit & Hocc_s).
  assert (Hs' : s = k ++ ws ++ h :: A3 ++ tokJ ++ rest).
  { rewrite Hs.
    transitivity ((pre ++ kJ ++ wsJ) ++ tokJ ++ rest);
      [now rewrite <- !app_assoc |].
    rewrite HA. rewrite <- !app_assoc. reflexivity. }
  rewrite <- Hs' in Hocc_s.
  pose proof (stable_key_elim K spK HK s k ws tok_s rest_s
                (Hst [] s eq_refl) Hocc_s) as Htoks.
  destruct Hocc_s as (_ & _ & _ & _ & _ & _ & Hrest_s).
  subst tok_s.
  change (h :: A3 ++ tokJ ++ rest) with ((h :: A3) ++ tokJ ++ rest) in Hsplit.
  apply app_eq_app in Hsplit. destruct Hsplit as [l [[H1 H2] | [H1 H2]]].
  - destruct l as [| c l].
    + exfalso. simpl in H2. subst rest_s.
      destruct tokJ as [| c tokJ]; [congruence |].
      inversion HtokJ as [| ? ? Hc _]; subst. simpl in Hrest_s. congruence.
    + rewrite H2 in Hrest_s. simpl in Hrest_s.
      rewrite H1, <- app_assoc in Hx.
      apply (run_unique u_nonspace tok resto REDACTED
               ((c :: l) ++ REDACTED ++ rw mtJ rest)); trivial.
      apply all_REDACTED.
  - exfalso.
    rewrite (HspJ eq_refl), app_nil_r in HA.
    assert (HkJne : kJ <> []).
    { intros E. rewrite E in HkJ. simpl in HkJ. apply (proj1 HJ).
      now symmetry. }
    destruct (nonempty_last kJ HkJne) as (kJ' & z & ->).
    destruct (nonempty_last (h :: A3)) as (A4 & z' & HA4); [discriminate |].
    rewrite HA4 in HA, H1. rewrite !app_assoc in HA.
    apply app_inj_tail in HA. destruct HA as [_ Hz]. subst z'.
    pose proof (fold_last kJ' z J HkJ) as Hfz.
    unfold marker_avoids in HavJ. rewrite Forall_forall in HavJ.
    apply (HavJ z); [| exact Hfz].
    rewrite H1, !in_app_iff. simpl. tauto.
Qed.

End KeyOther.

(** *** The token redaction in closed form *)

Lemma rmatch_dotted_run (tail : Re.pattern N) :
  no_bnd tail = true ->
  forall prev s n marks,
    Re.rmatch (Re.Many jwt_char 1 None :: u_dot :: tail) prev s n marks
    = match dotted_run s with
      | Some (n1, s1) => Re.rmatch tail None s1 (n + n1) marks
      | None => None
      end.
Proof.
  intros Hb prev s n marks. cbn [Re.rmatch]. rewrite first_some_countdown.
  - unfold dotted_run. destruct (Re.span jwt_char None s) as [| a] eqn:Ea.
    + reflexivity.
    + cbn [Nat.leb]. unfold u_dot. cbn [Re.rmatch].
      destruct (skipn (S a) s) as [| d s1]; [reflexivity |].
      destruct (46 =? d)%N; [| reflexivity].
      rewrite rmatch_prev by assumption. f_equal. lia.
  - intros j [_ Hj]. destruct (span_inside _ _ _ Hj) as (c & r & -> & Hc).
    unfold u_dot. cbn [Re.rmatch].
    destruct (N.eqb_spec 46 c) as [<- |]; [discriminate Hc | reflexivity].
Qed.

Lemma rmatch_open (r : Re.pattern N) (prev : option N) (s : ustr)
    (n : nat) (marks : list nat) :
  Re.rmatch (Re.Open :: r) prev s n marks = Re.rmatch r prev s n (n :: marks).
Proof. reflexivity. Qed.

Lemma front_match_jwt (s : ustr) :
  front_match (fst jwt_redaction) false JWT_REDACTED s = jwt_match s.
Proof.
  unfold front_match, jwt_redaction, jwt_match. cbn [fst].
  rewrite rmatch_open.
  rewrite rmatch_dotted_run by reflexivity.
  destruct (dotted_run s) as [[n1 s1] |]; [| reflexivity].
  rewrite rmatch_dotted_run by reflexivity.
  destruct (dotted_run s1) as [[n2 s2] |]; [| reflexivity].
  cbn [Re.rmatch].
  destruct (Re.span jwt_char None s2) as [| c] eqn:Ec.
  - reflexivity.
  - rewrite (first_some_countdown_top _ 1 (S c)
               (0 + n1 + n2 + S c, [0 + n1 + n2 + S c; 0]));
      [reflexivity | lia | reflexivity].
Qed.

Lemma dotted_run_intro (r1 s1 : ustr) :
  r1 <> [] -> all jwt_char r1 ->
  dotted_run (r1 ++ 46%N :: s1) = Some (List.length r1 + 1, s1).
Proof.
  intros Hne Hr. unfold dotted_run.
  rewrite (span_app jwt_char r1 (46%N :: s1) Hr eq_refl).
  destruct r1 as [| c r1]; [congruence |]. cbn [List.length].
  change (S (List.length r1)) with (List.length (c :: r1)).
  rewrite skipn_app, Nat.sub_diag, skipn_all. reflexivity.
Qed.

Lemma dotted_run_elim (s : ustr) (n1 : nat) (s1 : ustr) :
  dotted_run s = Some (n1, s1) ->
  exists r1, r1 <> [] /\ all jwt_char r1 /\ s = r1 ++ 46%N :: s1
             /\ n1 = List.length r1 + 1.
Proof.
  unfold dotted_run. intros H.
  destruct (Re.span jwt_char None s) as [| a] eqn:Ea; [discriminate |].
  destruct (skipn (S a) s) as [| d s'] eqn:Es; [discriminate |].
  destruct (N.eqb_spec 46 d) as [<- |]; [| discriminate].
  injection H as <- <-.
  pose proof (span_split jwt_char s) as [Hall _]. rewrite Ea in Hall.
  pose proof (span_le_length jwt_char s) as Hle. rewrite Ea in Hle.
  exists (firstn (S a) s). repeat split.
  - destruct s; [simpl in Hle; lia | discriminate].
  - exact Hall.
  - now rewrite <- Es, firstn_skipn.
  - rewrite length_firstn. lia.
Qed.

Lemma jwt_match_intro (v r1 r2 r3 rest : ustr) :
  jwt_occ v r1 r2 r3 rest ->
  jwt_match v
  = Some (List.length (r1 ++ 46%N :: r2 ++ 46%N :: r3), JWT_REDACTED).
Proof.
  intros (-> & H1 & H2 & H3 & A1 & A2 & A3 & Hrest). unfold jwt_match.
  rewrite (dotted_run_intro r1 _ H1 A1).
  rewrite (dotted_run_intro r2 _ H2 A2).
  rewrite (span_app jwt_char r3 rest A3 Hrest).
  destruct r3 as [| c r3]; [congruence |]. cbn [List.length].
  f_equal. f_equal. rewrite !length_app. cbn [List.length].
  rewrite !length_app. cbn [List.length]. lia.
Qed.

Lemma jwt_match_elim (v : ustr) (n : nat) (r : ustr) :
  jwt_match v = Some (n, r) ->
  exists r1 r2 r3 rest,
    jwt_occ v r1 r2 r3 rest
    /\ n = List.length (r1 ++ 46%N :: r2 ++ 46%N :: r3)
    /\ r = JWT_REDACTED.
Proof.
  unfold jwt_match. intros H.
  destruct (dotted_run v) as [[n1 s1] |] eqn:E1; [| discriminate].
  destruct (dotted_run s1) as [[n2 s2] |] eqn:E2; [| discriminate].
  destruct (Re.span jwt_char None s2) as [| c] eqn:E3; [discriminate |].
  injection H as <- <-.
  destruct (dotted_run_elim _ _ _ E1) as (r1 & H1 & A1 & -> & ->).
  destruct (dotted_run_elim _ _ _ E2) as (r2 & H2 & A2 & -> & ->).
  pose proof (span_split jwt_char s2) as [A3 Hrest]. rewrite E3 in A3, Hrest.
  pose proof (span_le_length jwt_char s2) as Hle. rewrite E3 in Hle.
  exists r1, r2, (firstn (S c) s2), (skipn (S c) s2). repeat split; trivial.
  - now rewrite firstn_skipn.
  - destruct s2; [simpl in Hle; lia | discriminate].
  - rewrite !length_app. cbn [List.length]. rewrite !length_app.
    cbn [List.length]. rewrite length_firstn. lia.
Qed.

Lemma jwt_match_proper : proper jwt_match.
Proof.
  intros s n r H.
  destruct (jwt_match_elim s n r H) as (r1 & r2 & r3 & rest & Hocc & -> & _).
  destruct Hocc as (-> & H1 & _).
  rewrite !length_app. cbn [List.length]. rewrite !length_app.
  cbn [List.length]. rewrite !length_app.
  destruct r1; [congruence |]. simpl. lia.
Qed.

(** *** The token redaction on its own output *)

Lemma jwt_not_bracket (c : N) : jwt_char c = true -> c <> 91%N /\ c <> 93%N.
Proof. intros H. split; intros ->; discriminate H. Qed.

Lemma jwt_chain_no_bracket (r1 r2 r3 : ustr) :
  all jwt_char r1 -> all jwt_char r2 -> all jwt_char r3 ->
  ~ In 91%N (r1 ++ 46%N :: r2 ++ 46%N :: r3).
Proof.
  intros A1 A2 A3 Hin.
  assert (Hno : forall r, all jwt_char r -> ~ In 91%N r)
    by (intros r Hr; now apply (all_not_in jwt_char)).
  apply in_app_or in Hin. destruct Hin as [H | H]; [now apply (Hno r1) |].
  destruct H as [H | H]; [discriminate |].
  apply in_app_or in H. destruct H as [H | H]; [now apply (Hno r2) |].
  destruct H as [H | H]; [discriminate | now apply (Hno r3)].
Qed.

(** Inside a marker made of token characters between brackets no token
    match starts. *)
Lemma no_jwt_in_marker (mid x y o : ustr) :
  all jwt_char mid -> 91%N :: mid ++ [93%N] = x ++ y -> x <> [] -> y <> [] ->
  jwt_match (y ++ o) = None.
Proof.
  intros Hmid Hxy Hx Hy.
  destruct (jwt_match (y ++ o)) as [[n r] |] eqn:E; [| reflexivity].
  exfalso.
  destruct (jwt_match_elim _ _ _ E)
    as (r1 & r2 & r3 & rest & (Hv & H1 & _ & _ & A1 & _) & _).
  destruct x as [| c x]; [congruence |]. injection Hxy as _ Hxy.
  destruct (nonempty_last y Hy) as (y' & z & ->).
  rewrite app_assoc in Hxy. apply app_inj_tail in Hxy.
  destruct Hxy as [Hmid' <-].
  assert (Ay : all jwt_char y').
  { rewrite Hmid' in Hmid. now apply all_app in Hmid. }
  rewrite <- app_assoc in Hv. simpl in Hv.
  destruct (run_unique jwt_char y' (93%N :: o) r1 (46%N :: r2 ++ 46%N :: r3 ++ rest))
    as [_ Hbad]; trivial; try reflexivity.
  discriminate Hbad.
Qed.

Lemma jwt_self_front (s : ustr) : stable jwt_match (rw jwt_match s).
Proof.
  destruct (first_match jwt_match jwt_match_proper s)
    as [[Hnone Hid] | (pre & m & rest & n & r & Hs & Hm & Hl & Hrw & Hmin)].
  { rewrite Hid. intros n r Hm. rewrite (Hnone [] s eq_refl) in Hm.
    discriminate. }
  destruct (jwt_match_elim _ _ _ Hm) as (_ & _ & _ & _ & _ & _ & ->).
  intros n' r' Hm'. exfalso.
  destruct (jwt_match_elim _ _ _ Hm')
    as (r1 & r2 & r3 & resto & (Hv & H1 & H2 & H3 & A1 & A2 & A3 & _) & _).
  rewrite Hrw in Hv.
  assert (Hv' : (r1 ++ 46%N :: r2 ++ 46%N :: r3) ++ resto
                = pre ++ 91%N :: JWT_REDACTED_tail ++ rw jwt_match rest).
  { transitivity (r1 ++ 46%N :: r2 ++ 46%N :: r3 ++ resto).
    - rewrite <- !app_assoc. simpl. rewrite <- !app_assoc. reflexivity.
    - rewrite <- Hv. reflexivity. }
  destruct (prefix_before _ _ _ _ _ (jwt_chain_no_bracket r1 r2 r3 A1 A2 A3) Hv')
    as [A' [Hpre _]].
  set (X := A' ++ m ++ rest).
  assert (Hocc : jwt_occ s r1 r2
                         (r3 ++ firstn (Re.span jwt_char None X) X)
                         (skipn (Re.span jwt_char None X) X)).
  { unfold jwt_occ. repeat split; trivial.
    - rewrite <- app_assoc, firstn_skipn. unfold X. rewrite Hs, Hpre.
      rewrite <- !app_assoc. simpl. rewrite <- !app_assoc. reflexivity.
    - destruct r3; [congruence | discriminate].
    - apply all_app. split; [exact A3 | apply span_split].
    - apply span_split. }
  pose proof (jwt_match_intro _ _ _ _ _ Hocc) as Hsome.
  rewrite Hs, (Hmin [] pre eq_refl) in Hsome; [discriminate |].
  rewrite Hpre. destruct r1; [congruence | discriminate].
Qed.

Lemma jwt_self_stable (s : ustr) : Stable jwt_match (rw jwt_match s).
Proof.
  apply (Stable_rw jwt_match jwt_match jwt_match_proper (fun _ => True));
    trivial.
  - intros s0 _. apply jwt_self_front.
  - intros s0 n r _ Hm x y Hr Hx Hy n' r' Hm'.
    destruct (jwt_match_elim _ _ _ Hm) as (_ & _ & _ & _ & _ & _ & ->).
    rewrite (no_jwt_in_marker (U "JWT_REDACTED") x y _) in Hm';
      trivial; [discriminate | repeat constructor].
Qed.

(** *** A key redaction before the token redaction *)

Lemma jwt_char_true (c : N) :
  jwt_char c = true
  <-> ((65 <= c)%N /\ (c <= 90)%N) \/ ((97 <= c)%N /\ (c <= 122)%N)
      \/ ((48 <= c)%N /\ (c <= 57)%N) \/ c = 45%N \/ c = 95%N.
Proof.
  unfold jwt_char.
  rewrite !orb_true_iff, !andb_true_iff, !N.eqb_eq, !N.leb_le. tauto.
Qed.

Lemma jwt_nonspace (c : N) : jwt_char c = true -> u_nonspace c = true.
Proof.
  intros H. apply jwt_char_true in H. unfold u_nonspace.
  destruct (u_space c) eqn:E; [| reflexivity].
  apply u_space_true in E. lia.
Qed.

Lemma Stable_suffix (mt : ustr -> option (nat * ustr)) (u v : ustr) :
  Stable mt (u ++ v) -> Stable mt v.
Proof.
  intros H u' v' Hv. apply (H (u ++ u')). now rewrite Hv, app_assoc.
Qed.

Section KeyBeforeJwt.
Variable K : ustr.
Variable sp : bool.
Hypothesis HK : is_key K.
Hypothesis Hav : marker_avoids K JWT_REDACTED.

Let mtK := key_match K sp.

Lemma key_after_jwt_front (s : ustr) :
  Stable mtK s -> stable mtK (rw jwt_match s).
Proof.
  intros Hst.
  destruct (first_match jwt_match jwt_match_proper s)
    as [[Hnone Hid] | (pre & m & rest & n & r & Hs & Hm & Hl & Hrw & Hmin)].
  { rewrite Hid. apply (Hst [] s eq_refl). }
  destruct (jwt_match_elim _ _ _ Hm)
    as (r1 & r2 & r3 & restJ & (Hv & H1 & _ & _ & A1 & _) & Hn & ->).
  assert (Hcut : m = r1 ++ 46%N :: r2 ++ 46%N :: r3 /\ rest = restJ).
  { apply app_same_length; [| congruence].
    rewrite Hv, <- !app_assoc. simpl. rewrite <- !app_assoc. reflexivity. }
  destruct Hcut as [Hm_eq <-].
  destruct r1 as [| c1 r1]; [congruence |].
  assert (Hc1 : jwt_char c1 = true) by (now inversion A1).
  assert (Hchain : exists tl, m ++ rest = c1 :: tl)
    by (rewrite Hm_eq; eexists; reflexivity).
  destruct Hchain as [tl Hchain].
  apply stable_key_intro; [exact HK |]. intros k ws tok resto Hocc'.
  rewrite Hrw in Hocc'.
  change (pre ++ JWT_REDACTED ++ rw jwt_match rest)
    with (pre ++ (91%N :: JWT_REDACTED_tail) ++ rw jwt_match rest) in Hocc'.
  destruct (key_occ_before_bracket K sp HK _ _ _ _ _ _ _ Hocc')
    as [A' [HA Hx]].
  destruct Hocc' as (_ & Hk & Hws & Hsp & Hne & Htok & Hresto).
  change (91%N :: JWT_REDACTED_tail) with JWT_REDACTED in Hx.
  assert (Hs' : s = k ++ ws ++ A' ++ m ++ rest)
    by (rewrite Hs, HA; now rewrite <- !app_assoc).
  destruct A' as [| h A3].
  - exfalso. simpl in Hs'. rewrite Hchain in Hs'.
    destruct (key_occ_of_head K sp k ws c1 tl Hk Hws Hsp (jwt_nonspace _ Hc1))
      as (tok_s & rest_s & Hsplit & Hocc_s).
    rewrite <- Hs' in Hocc_s.
    pose proof (stable_key_elim K sp HK s k ws tok_s rest_s
                  (Hst [] s eq_refl) Hocc_s) as ->.
    injection Hsplit as -> _. discriminate Hc1.
  - assert (Hh : u_nonspace h = true).
    { destruct tok as [| c tok]; [congruence |]. injection Hx as -> _.
      now inversion Htok. }
    destruct (key_occ_of_head K sp k ws h (A3 ++ m ++ rest) Hk Hws Hsp Hh)
      as (tok_s & rest_s & Hsplit & Hocc_s).
    change (k ++ ws ++ h :: A3 ++ m ++ rest)
      with (k ++ ws ++ (h :: A3) ++ m ++ rest) in Hocc_s.
    rewrite <- Hs' in Hocc_s.
    pose proof (stable_key_elim K sp HK s k ws tok_s rest_s
                  (Hst [] s eq_refl) Hocc_s) as Htoks.
    destruct Hocc_s as (_ & _ & _ & _ & _ & _ & Hrest_s). subst tok_s.
    change (h :: A3 ++ m ++ rest) with ((h :: A3) ++ m ++ rest) in Hsplit.
    assert (Hnostop : rest_s <> m ++ rest).
    { intros E. rewrite E, Hchain in Hrest_s. simpl in Hrest_s.
      rewrite (jwt_nonspace _ Hc1) in Hrest_s. discriminate. }
    apply app_eq_app in Hsplit. destruct Hsplit as [l [[E1 E2] | [E1 E2]]].
    + destruct l as [| c l]; [now rewrite E2 in Hnostop |].
      rewrite E2 in Hrest_s. simpl in Hrest_s.
      rewrite E1, <- app_assoc in Hx.
      apply (run_unique u_nonspace tok resto REDACTED
               ((c :: l) ++ JWT_REDACTED ++ rw jwt_match rest)); trivial.
      apply all_REDACTED.
    + exfalso. destruct l as [| c l]; [now rewrite E2 in Hnostop |].
      injection E1 as _ E1.
      destruct (nonempty_last (c :: l)) as (l' & z & Hl'); [discriminate |].
      rewrite Hl' in E1, E2.
      rewrite app_assoc in E1.
      apply (app_inj_tail (U "REDACTED") (A3 ++ l') 93%N z) in E1.
      destruct E1 as [Emid <-].
      assert (Al : all jwt_char l').
      { assert (Amid : all jwt_char (U "REDACTED")) by (repeat constructor).
        rewrite Emid in Amid. now apply all_app in Amid. }
      rewrite Hm_eq, <- !app_assoc in E2. simpl in E2.
      destruct (run_unique jwt_char (c1 :: r1)
                  (46%N :: r2 ++ 46%N :: r3 ++ rest) l' (93%N :: rest_s))
        as [_ Hbad]; trivial; try reflexivity.
      * rewrite <- !app_assoc in E2. exact E2.
      * discriminate Hbad.
Qed.

Lemma key_after_jwt_stable (s : ustr) :
  Stable mtK s -> Stable mtK (rw jwt_match s).
Proof.
  apply (Stable_rw jwt_match mtK jwt_match_proper (Stable mtK)).
  - intros u v. apply Stable_suffix.
  - apply key_after_jwt_front.
  - intros s0 n r _ Hm x y Hr Hx Hy n' r' Hm'.
    destruct (jwt_match_elim _ _ _ Hm) as (_ & _ & _ & _ & _ & _ & ->).
    unfold mtK in Hm'.
    rewrite (no_key_in_marker K sp (U "[JWT_REDACTED") x y _ HK Hav Hr Hy)
      in Hm'.
    discriminate.
Qed.

End KeyBeforeJwt.

(** *** The four redactions together *)

Lemma key_self_stable (K : ustr) (sp : bool) (s : ustr) :
  is_key K -> marker_avoids K REDACTED ->
  Stable (key_match K sp) (rw (key_match K sp) s).
Proof.
  intros HK Hav.
  apply (Stable_rw (key_match K sp) (key_match K sp)
           (key_match_proper K sp (proj2 HK)) (fun _ => True)); trivial.
  - intros s0 _. now apply key_self_front.
  - intros s0 n r _ Hm x y Hr Hx Hy.
    apply (key_inside K K sp sp HK HK Hav
             (or_introl (conj eq_refl eq_refl)) s0 n r Hm x y); assumption.
Qed.

Lemma key_other_stable (J K : ustr) (spK : bool) (s : ustr) :
  is_key J -> is_key K ->
  marker_avoids J REDACTED -> marker_avoids K REDACTED ->
  occurs_inside K J = false ->
  Stable (key_match K spK) s ->
  Stable (key_match K spK) (rw (key_match J false) s).
Proof.
  intros HJ HK HavJ HavK Hin.
  apply (Stable_rw (key_match J false) (key_match K spK)
           (key_match_proper J false (proj2 HJ)) (Stable (key_match K spK))).
  - intros u v. apply Stable_suffix.
  - now apply key_other_front.
  - intros s0 n r _ Hm x y Hr Hx Hy.
    apply (key_inside J K false spK HJ HK HavK
             (or_intror (conj eq_refl Hin)) s0 n r Hm x y); assumption.
Qed.

Lemma rw_skip_ext (mt mt' : ustr -> option (nat * ustr)) :
  (forall s, mt s = mt' s) ->
  forall s skip, rw_skip mt skip s = rw_skip mt' skip s.
Proof.
  intros H. induction s as [| c s IH]; intros skip.
  - destruct skip; simpl; [now rewrite H | reflexivity].
  - destruct skip; simpl; [| apply IH]. rewrite H.
    destruct (mt' (c :: s)) as [[n r] |].
    + destruct n; now rewrite IH.
    + now rewrite IH.
Qed.

Lemma no_bnd_lit_ci (key : string) : no_bnd (lit_ci key) = true.
Proof.
  unfold lit_ci, no_bnd. induction (U key) as [| a l IH]; [reflexivity |].
  exact IH.
Qed.

Lemma key_redaction_rw (key : string) (sp : bool) (text : ustr) :
  apply_redaction text (key_redaction key sp)
  = rw (key_match (U key) sp) text.
Proof.
  unfold apply_redaction.
  change (fst (snd (key_redaction key sp))) with true.
  change (snd (snd (key_redaction key sp))) with REDACTED.
  rewrite sub_as_rw.
  - apply rw_skip_ext. intros s. apply front_match_key.
  - unfold key_redaction. cbn [fst]. unfold no_bnd.
    rewrite !forallb_app. fold (no_bnd (lit_ci key)).
    rewrite no_bnd_lit_ci. now destruct sp.
Qed.

Lemma jwt_redaction_rw (text : ustr) :
  apply_redaction text jwt_redaction = rw jwt_match text.
Proof.
  unfold apply_redaction.
  change (fst (snd jwt_redaction)) with false.
  change (snd (snd jwt_redaction)) with JWT_REDACTED.
  rewrite sub_as_rw by reflexivity.
  apply rw_skip_ext. intros s. apply front_match_jwt.
Qed.

Lemma redact_as_rw (text : ustr) :
  _redact text
  = rw jwt_match
      (rw (key_match key_aws false)
          (rw (key_match key_password false)
              (rw (key_match key_authorization true) text))).
Proof.
  unfold _redact, REDACTIONS. cbn [fold_left].
  now rewrite jwt_redaction_rw, !key_redaction_rw.
Qed.

Lemma keys_are_keys :
  is_key key_authorization /\ is_key key_password /\ is_key key_aws.
Proof.
  repeat split; try discriminate; repeat constructor.
Qed.

Ltac avoid_marker :=
  unfold marker_avoids;
  repeat (constructor; [vm_compute; discriminate |]); constructor.

Lemma keys_avoid_REDACTED :
  marker_avoids key_authorization REDACTED
  /\ marker_avoids key_password REDACTED
  /\ marker_avoids key_aws REDACTED.
Proof. repeat split; avoid_marker. Qed.

Lemma keys_avoid_JWT_REDACTED :
  marker_avoids key_authorization JWT_REDACTED
  /\ marker_avoids key_password JWT_REDACTED
  /\ marker_avoids key_aws JWT_REDACTED.
Proof. repeat split; avoid_marker. Qed.

(** After the four redactions every one of them is stable. *)
Lemma redact_stable (text : ustr) :
  Stable (key_match key_authorization true) (_redact text)
  /\ Stable (key_match key_password false) (_redact text)
  /\ Stable (key_match key_aws false) (_redact text)
  /\ Stable jwt_match (_redact text).
Proof.
  destruct keys_are_keys as (H1 & H2 & H3).
  destruct keys_avoid_REDACTED as (R1 & R2 & R3).
  destruct keys_avoid_JWT_REDACTED as (W1 & W2 & W3).
  rewrite redact_as_rw.
  set (t1 := rw (key_match key_authorization true) text).
  set (t2 := rw (key_match key_password false) t1).
  set (t3 := rw (key_match key_aws false) t2).
  assert (S11 : Stable (key_match key_authorization true) t1)
    by (now apply key_self_stable).
  assert (S12 : Stable (key_match key_authorization true) t2)
    by (apply key_other_stable; trivial).
  assert (S22 : Stable (key_match key_password false) t2)
    by (now apply key_self_stable).
  assert (S13 : Stable (key_match key_authorization true) t3)
    by (apply key_other_stable; trivial).
  assert (S23 : Stable (key_match key_password false) t3)
    by (apply key_other_stable; trivial).
  assert (S33 : Stable (key_match key_aws false) t3)
    by (now apply key_self_stable).
  repeat split.
  - now apply key_after_jwt_stable.
  - now apply key_after_jwt_stable.
  - now apply key_after_jwt_stable.
  - apply jwt_self_stable.
Qed.

(** C5: redaction is idempotent: redacting a redacted text changes
    nothing. *)
Theorem redact_idempotent (text : ustr) :
  _redact (_redact text) = _redact text.
Proof.
  destruct (redact_stable text) as (S1 & S2 & S3 & S4).
  destruct keys_are_keys as (H1 & H2 & H3).
  rewrite (redact_as_rw (_redact text)).
  rewrite (rw_stable_id _ (key_match_proper _ _ (proj2 H1)) _ S1).
  rewrite (rw_stable_id _ (key_match_proper _ _ (proj2 H2)) _ S2).
  rewrite (rw_stable_id _ (key_match_proper _ _ (proj2 H3)) _ S3).
  apply (rw_stable_id _ jwt_match_proper _ S4).
Qed.

(** * Further properties of the guardrails *)

Lemma classify_cases (cmd : str) :
  (exists why, classify_and_check cmd = (low, true, why)
               /\ first_denied DENY_PATTERNS (lower (strip cmd)) = None
               /\ mem (head_token cmd) LOW_READONLY_BINARIES = true
               /\ (head_token cmd = L "curl" ->
                   (contains (L " -I") cmd || contains (L " --head") cmd)%bool
                   = true)
               /\ (head_token cmd = L "wget" ->
                   contains (L " --spider") cmd = true))
  \/ (exists why, classify_and_check cmd = (medium, false, why)).
Proof.
  unfold classify_and_check. cbv zeta.
  destruct (first_denied DENY_PATTERNS (lower (strip cmd))) as [pat |] eqn:Hd.
  { right. eexists. reflexivity. }
  destruct (mem (head_token cmd) [L "curl"]) eqn:Hcurl.
  { assert (Hh : head_token cmd = L "curl").
    { apply mem_In in Hcurl. destruct Hcurl as [<- | []]. reflexivity. }
    destruct (contains (L " -I") cmd || contains (L " --head") cmd)%bool eqn:Hi.
    - left. eexists. repeat split; trivial.
      + rewrite Hh. reflexivity.
      + rewrite Hh. discriminate.
    - right. eexists. reflexivity. }
  destruct (mem (head_token cmd) [L "wget"]) eqn:Hwget.
  { assert (Hh : head_token cmd = L "wget").
    { apply mem_In in Hwget. destruct Hwget as [<- | []]. reflexivity. }
    destruct (contains (L " --spider") cmd) eqn:Hs.
    - left. eexists. repeat split; trivial.
      + rewrite Hh. reflexivity.
      + rewrite Hh. discriminate.
    - right. eexists. reflexivity. }
  destruct (mem (head_token cmd) LOW_READONLY_BINARIES) eqn:Hlow.
  - left. eexists. repeat split; trivial.
    + intros Hh. rewrite Hh in Hcurl. discriminate.
    + intros Hh. rewrite Hh in Hwget. discriminate.
  - right. eexists. reflexivity.
Qed.

(** X1: a deny pattern that occurs in the lowered command decides the
    classification before the head token is looked at: medium, not
    read-only, with a reason naming a deny pattern the text holds; so it
    is also for a command that starts with an allowlisted binary. *)
Theorem classifier_denies_pattern_in_lowered_command (cmd pat : str) :
  In pat DENY_PATTERNS ->
  contains pat (lower cmd) = true ->
  risk_of (classify_and_check cmd) = medium
  /\ read_only_ok (classify_and_check cmd) = false
  /\ exists pat',
       In pat' DENY_PATTERNS
       /\ contains pat' (lower (strip cmd)) = true
       /\ why_of (classify_and_check cmd) = L "Denied pattern: " ++ pat'.
Proof.
  intros Hin Hc.
  destruct (deny_patterns_found cmd pat Hin Hc) as (pat' & H1 & H2 & H3).
  rewrite H3. repeat split. exists pat'. now repeat split.
Qed.

Lemma classifier_denies_pattern_in_lowered_command_witness :
  risk_of (classify_and_check (L "echo hi; RM -RF /tmp/x")) = medium
  /\ read_only_ok (classify_and_check (L "echo hi; RM -RF /tmp/x")) = false.
Proof.
  destruct (classifier_denies_pattern_in_lowered_command
              (L "echo hi; RM -RF /tmp/x") (L "rm -rf")) as (H1 & H2 & _).
  - simpl. tauto.
  - reflexivity.
  - now split.
Defined.

(** X2: the two verdicts of the classifier go together: a command is
    read-only safe exactly when its risk is low. *)
Theorem classifier_read_only_iff_low (cmd : str) :
  read_only_ok (classify_and_check cmd) = true
  <-> risk_of (classify_and_check cmd) = low.
Proof.
  destruct (classify_cases cmd) as [(why & -> & _) | (why & ->)];
    unfold read_only_ok, risk_of; simpl; split; congruence.
Qed.

(** X3: low risk is only given through the allowlist: the head token is
    one of the read-only binaries, no deny pattern is in the lowered
    text, and curl and wget carry their metadata-only flag. *)
Theorem classifier_low_only_for_allowlisted_head (cmd : str) :
  risk_of (classify_and_check cmd) = low ->
  mem (head_token cmd) LOW_READONLY_BINARIES = true
  /\ first_denied DENY_PATTERNS (lower (strip cmd)) = None
  /\ (head_token cmd = L "curl" ->
      contains (L " -I") cmd = true \/ contains (L " --head") cmd = true)
  /\ (head_token cmd = L "wget" -> contains (L " --spider") cmd = true).
Proof.
  intros Hlow.
  destruct (classify_cases cmd) as [(why & E & Hd & Hm & Hc & Hw) | (why & E)].
  - repeat split; trivial. intros Hh. apply orb_true_iff. now apply Hc.
  - rewrite E in Hlow. discriminate.
Qed.

Lemma classifier_low_only_for_allowlisted_head_witness :
  mem (head_token (L "wget --spider https://example.com"))
      LOW_READONLY_BINARIES = true.
Proof.
  exact (proj1 (classifier_low_only_for_allowlisted_head
                  (L "wget --spider https://example.com") eq_refl)).
Defined.

Lemma shlex_whitespace_isspace (c : ascii) :
  shlex_whitespace c = true -> py_isspace c = true.
Proof.
  destruct c as [[] [] [] [] [] [] [] []]; intros H;
    try discriminate H; reflexivity.
Qed.

Lemma shlex_run_blank (s : str) (acc : list str) :
  forallb shlex_whitespace s = true ->
  shlex_run LWs [] false acc s = Some (rev acc).
Proof.
  induction s as [| c s IH]; intros H; [reflexivity |].
  simpl in H. apply andb_true_iff in H. destruct H as [Hc Hs].
  simpl. rewrite Hc. now apply IH.
Qed.

Lemma lstrip_blank (s : str) :
  forallb shlex_whitespace s = true -> lstrip s = [].
Proof.
  induction s as [| c s IH]; intros H; [reflexivity |].
  simpl in H. apply andb_true_iff in H. destruct H as [Hc Hs].
  simpl. rewrite (shlex_whitespace_isspace c Hc). now apply IH.
Qed.

(** X4: a command of nothing but blanks has no head token; it is
    classified medium, not read-only, as [command requires approval]. *)
Theorem classifier_blank_command (cmd : str) :
  forallb shlex_whitespace cmd = true ->
  classify_and_check cmd = (medium, false, L "command requires approval").
Proof.
  intros H. unfold classify_and_check, head_token, shlex_split, strip.
  rewrite (lstrip_blank cmd H), (shlex_run_blank cmd [] H). reflexivity.
Qed.

Lemma classifier_blank_command_witness :
  classify_and_check (L "   ")
  = (medium, false, L "command requires approval").
Proof.
  apply (classifier_blank_command (L "   ")). reflexivity.
Defined.

(** * Further properties of the authorizer *)

(** The reason of a passed scope check. *)
Lemma in_scope_true_reason (fs : FileSystem) (cfg : SessionConfig) (cmd : str)
    (reason : ScopeReason) :
  in_scope_command fs cfg cmd = Returned (true, reason) -> reason = InScope.
Proof.
  unfold in_scope_command.
  destruct (check_targets (scope cfg) (_extract_targets cmd));
    [discriminate |].
  destruct (nonempty_list (_extract_paths cmd)); [| now intros [= <-]].
  destruct (resolve_all fs (paths (scope cfg))) as [roots | e];
    [| discriminate].
  destruct (first_bad_path fs roots (_extract_paths cmd)) as [[ap |] | e];
    [discriminate | now intros [= <-] | discriminate].
Qed.

(** X5: the authorizer allows a command only in AUTO_READONLY mode,
    when the command is in scope and classified low and read-only; the
    reason then carries the reason of the classifier. *)
Theorem enforce_allows_only_auto_readonly_low (fs : FileSystem)
    (cfg : SessionConfig) (cmd : str) (d : bool * bool * Reason) :
  enforce fs cfg cmd = Returned d ->
  allow_execute d = true ->
  mode cfg = AUTO_READONLY
  /\ in_scope_command fs cfg cmd = Returned (true, InScope)
  /\ risk_of (classify_and_check cmd) = low
  /\ read_only_ok (classify_and_check cmd) = true
  /\ d = (true, false,
          Text (L "Allowed in AUTO_READONLY: "
                  ++ why_of (classify_and_check cmd))).
Proof.
  unfold enforce, risk_of, read_only_ok, why_of.
  destruct (classify_and_check cmd) as [[risk ro] why].
  destruct (in_scope_command fs cfg cmd) as [[scope_ok scope_reason] | e] eqn:Hs;
    [| discriminate].
  destruct scope_ok; cbn [negb]; [| now intros [= <-]].
  rewrite (in_scope_true_reason fs cfg cmd scope_reason Hs).
  destruct (mem (mode cfg) [PLAN_ONLY; SIMULATE]); [now intros [= <-] |].
  destruct (str_eqb (mode cfg) AUTO_READONLY) eqn:Hm.
  - apply str_eqb_eq in Hm.
    destruct risk, ro; intros [= <-]; try discriminate.
    intros _. now repeat split.
  - destruct (str_eqb (mode cfg) EXECUTE_WITH_APPROVAL); now intros [= <-].
Qed.

Lemma enforce_allows_only_auto_readonly_low_witness :
  mode (config example_scope AUTO_READONLY) = AUTO_READONLY
  /\ in_scope_command plain_fs (config example_scope AUTO_READONLY)
                      (L "dig example.com") = Returned (true, InScope).
Proof.
  destruct (enforce_allows_only_auto_readonly_low plain_fs
              (config example_scope AUTO_READONLY) (L "dig example.com")
              _ eq_refl eq_refl)
    as (H1 & H2 & _).
  now split.
Defined.

(** X6: a scope failure decides before the mode is looked at: whatever
    the mode, a command that is not in scope is not allowed, needs
    approval, and the reason is the reason of the scope resolver. *)
Theorem enforce_out_of_scope_overrides_mode (fs : FileSystem)
    (cfg : SessionConfig) (cmd : str) (why : ScopeReason) :
  in_scope_command fs cfg cmd = Returned (false, why) ->
  enforce fs cfg cmd = Returned (false, true, OutOfScope why).
Proof.
  intros H. unfold enforce.
  destruct (classify_and_check cmd) as [[risk ro] reason].
  now rewrite H.
Qed.

Lemma enforce_out_of_scope_overrides_mode_witness :
  enforce plain_fs (config example_scope AUTO_READONLY)
          (L "curl -I https://other.org")
  = Returned (false, true, OutOfScope (NoTargetAllowed [L "other.org"])).
Proof.
  apply (enforce_out_of_scope_overrides_mode plain_fs
           (config example_scope AUTO_READONLY) (L "curl -I https://other.org")).
  reflexivity.
Defined.

(** X7: a command whose lowered text holds a deny pattern is never
    allowed, in any mode and with any scope: every decision returned for
    it needs approval. *)
Theorem enforce_never_allows_denied_pattern (fs : FileSystem)
    (cfg : SessionConfig) (cmd pat : str) (d : bool * bool * Reason) :
  In pat DENY_PATTERNS ->
  contains pat (lower cmd) = true ->
  enforce fs cfg cmd = Returned d ->
  allow_execute d = false /\ needs_approval d = true.
Proof.
  intros Hin Hc.
  destruct (deny_patterns_found cmd pat Hin Hc) as (pat' & _ & _ & E).
  unfold enforce. rewrite E.
  destruct (in_scope_command fs cfg cmd) as [[scope_ok scope_reason] | e];
    [| discriminate].
  destruct scope_ok; cbn [negb]; [| now intros [= <-]].
  destruct (mem (mode cfg) [PLAN_ONLY; SIMULATE]); [now intros [= <-] |].
  destruct (str_eqb (mode cfg) AUTO_READONLY); [now intros [= <-] |].
  destruct (str_eqb (mode cfg) EXECUTE_WITH_APPROVAL); now intros [= <-].
Qed.

Lemma enforce_never_allows_denied_pattern_witness :
  exists d,
    enforce plain_fs (config example_scope AUTO_READONLY)
            (L "cat x; shutdown now") = Returned d
    /\ allow_execute d = false /\ needs_approval d = true.
Proof.
  eexists. split; [reflexivity |].
  apply (enforce_never_allows_denied_pattern plain_fs
           (config example_scope AUTO_READONLY) (L "cat x; shutdown now")
           (L "shutdown")).
  - simpl. tauto.
  - reflexivity.
  - reflexivity.
Defined.

(** * Further properties of the scope resolver *)

Lemma endswith_iff (suf s : str) :
  endswith suf s = true <-> exists pre, s = pre ++ suf.
Proof.
  unfold endswith. rewrite startswith_iff. split.
  - intros [b Hb]. exists (rev b).
    apply (f_equal (@rev ascii)) in Hb.
    rewrite rev_involutive, rev_app_distr, rev_involutive in Hb. exact Hb.
  - intros [pre ->]. exists (rev pre). apply rev_app_distr.
Qed.

(** The allowed roots are resolved when every one of them can be, and
    are then their resolutions. *)
Lemma resolve_all_returned (fs : FileSystem) (ps : list str) :
  (forall rs, resolve_all fs ps = Returned rs ->
     (forall p, In p ps -> exists r, resolve fs p = Returned r /\ In r rs)
     /\ (forall r, In r rs -> exists p, In p ps /\ resolve fs p = Returned r))
  /\ ((forall p, In p ps -> exists r, resolve fs p = Returned r) ->
      exists rs, resolve_all fs ps = Returned rs).
Proof.
  induction ps as [| p ps [IH1 IH2]]; split.
  - intros rs [= <-]. split; [intros p [] | intros r []].
  - intros _. now exists [].
  - intros rs. simpl.
    destruct (resolve fs p) as [rp | e] eqn:Ep; [| discriminate].
    destruct (resolve_all fs ps) as [rs' | e]; [| discriminate].
    intros [= <-]. destruct (IH1 rs' eq_refl) as [Ha Hb]. split.
    + intros q [<- | Hq].
      * exists rp. split; [exact Ep | now left].
      * destruct (Ha q Hq) as (r & Hr & Hin). exists r.
        split; [exact Hr | now right].
    + intros r [<- | Hr].
      * exists p. split; [now left | exact Ep].
      * destruct (Hb r Hr) as (q & Hq & Hres). exists q.
        split; [now right | exact Hres].
  - intros H. simpl.
    destruct (H p (or_introl eq_refl)) as [rp ->].
    destruct IH2 as [rs ->]; [intros q Hq; apply H; now right |].
    now eexists.
Qed.

Lemma first_bad_path_none (fs : FileSystem) (roots abs_paths : list str) :
  first_bad_path fs roots abs_paths = Returned None
  <-> forall ap, In ap abs_paths ->
        exists rp root,
          resolve fs ap = Returned rp
          /\ In root roots /\ startswith root rp = true.
Proof.
  induction abs_paths as [| a aps IH]; simpl.
  - split; [intros _ ap [] | reflexivity].
  - destruct (resolve fs a) as [rp | e] eqn:Ea.
    + destruct (existsb (fun root => startswith root rp) roots) eqn:Ex;
        cbn [negb].
      * rewrite IH. split.
        -- intros H ap [<- | Hap]; [| now apply H].
           apply existsb_exists in Ex. destruct Ex as (root & Hr & Hs).
           now exists rp, root.
        -- intros H ap Hap. apply H. now right.
      * split; [discriminate |]. intros H.
        destruct (H a (or_introl eq_refl)) as (rp' & root & Hrp & Hr & Hs).
        rewrite Ea in Hrp. injection Hrp as <-.
        assert (existsb (fun root => startswith root rp) roots = true)
          by (apply existsb_exists; now exists root).
        congruence.
    + split; [discriminate |]. intros H.
      destruct (H a (or_introl eq_refl)) as (rp' & root & Hrp & _).
      rewrite Ea in Hrp. discriminate Hrp.
Qed.

(** The path check passes exactly when nothing raises and every path is
    under a root. *)
Lemma path_check_passes (fs : FileSystem) (cfg : SessionConfig)
    (abs_paths : list str) :
  (if nonempty_list abs_paths then
     match resolve_all fs (paths (scope cfg)) with
     | Raised e => Raised e
     | Returned allowed_roots =>
         match first_bad_path fs allowed_roots abs_paths with
         | Raised e => Raised e
         | Returned (Some ap) =>
             Returned (false, PathNotAllowed ap (paths (scope cfg)))
         | Returned None => Returned (true, InScope)
         end
     end
   else Returned (true, InScope)) = Returned (true, InScope)
  <-> (forall ap, In ap abs_paths ->
         exists rp root r,
           resolve fs ap = Returned rp
           /\ In root (paths (scope cfg))
           /\ resolve fs root = Returned r
           /\ startswith r rp = true)
      /\ (abs_paths <> [] ->
          forall root, In root (paths (scope cfg)) ->
                       exists r, resolve fs root = Returned r).
Proof.
  destruct abs_paths as [| a aps]; cbn [nonempty_list].
  { split; [intros _ | reflexivity]. split; [intros ap [] | congruence]. }
  destruct (resolve_all_returned fs (paths (scope cfg))) as [Hret Htot].
  destruct (resolve_all fs (paths (scope cfg))) as [roots | e] eqn:Er.
  - destruct (Hret roots eq_refl) as [Hfwd Hback].
    assert (Hnone : first_bad_path fs roots (a :: aps) = Returned None
                    <-> forall ap, In ap (a :: aps) ->
                          exists rp root r,
                            resolve fs ap = Returned rp
                            /\ In root (paths (scope cfg))
                            /\ resolve fs root = Returned r
                            /\ startswith r rp = true).
    { rewrite first_bad_path_none. split; intros H ap Hap.
      - destruct (H ap Hap) as (rp & r & Hrp & Hr & Hs).
        destruct (Hback r Hr) as (root & Hroot & Hres).
        now exists rp, root, r.
      - destruct (H ap Hap) as (rp & root & r & Hrp & Hroot & Hres & Hs).
        destruct (Hfwd root Hroot) as (r' & Hr' & Hin).
        rewrite Hres in Hr'. injection Hr' as <-. now exists rp, r. }
    destruct (first_bad_path fs roots (a :: aps)) as [[ap |] | e] eqn:Ef.
    + split; [discriminate |]. intros [H _]. apply Hnone in H. discriminate H.
    + split; [intros _ | reflexivity]. split; [now apply Hnone |].
      intros _ root Hroot. destruct (Hfwd root Hroot) as (r & Hr & _).
      now exists r.
    + split; [discriminate |]. intros [H _]. apply Hnone in H. discriminate H.
  - split; [discriminate |]. intros [_ H].
    destruct Htot as [rs Hrs]; [apply H; discriminate | discriminate Hrs].
Qed.

(** X8: what is in scope.  A command passes exactly when its targets,
    if it has any, hold no denylisted one and at least one allowed one,
    and every absolute path it names resolves to a text that starts with
    the resolution of an allowed root (all the roots being resolved when
    there is such a path).  One allowed target is enough, whatever the
    other targets are; a command without targets and absolute paths
    always passes. *)
Theorem in_scope_characterization (fs : FileSystem) (cfg : SessionConfig)
    (cmd : str) :
  in_scope_command fs cfg cmd = Returned (true, InScope)
  <-> (_extract_targets cmd = []
       \/ ((forall t, In t (_extract_targets cmd) ->
                      ~ In t (out_of_scope (scope cfg)))
           /\ exists t, In t (_extract_targets cmd)
                        /\ target_allowed (scope cfg) t = true))
      /\ (forall ap, In ap (_extract_paths cmd) ->
            exists rp root r,
              resolve fs ap = Returned rp
              /\ In root (paths (scope cfg))
              /\ resolve fs root = Returned r
              /\ startswith r rp = true)
      /\ (_extract_paths cmd <> [] ->
          forall root, In root (paths (scope cfg)) ->
                       exists r, resolve fs root = Returned r).
Proof.
  pose proof (path_check_passes fs cfg (_extract_paths cmd)) as Hpaths.
  unfold in_scope_command, check_targets.
  destruct (_extract_targets cmd) as [| t0 ts] eqn:Ht; cbn [nonempty_list].
  - rewrite Hpaths. tauto.
  - destruct (existsb (fun t => mem t (to_set (out_of_scope (scope cfg))))
                      (t0 :: ts)) eqn:Hd.
    + split; [discriminate |]. intros [[H | [Hno _]] _]; [discriminate |].
      apply existsb_exists in Hd. destruct Hd as (t & Hin & Hm).
      rewrite mem_to_set in Hm. apply mem_In in Hm. exfalso. now apply (Hno t).
    + assert (Hno : forall t, In t (t0 :: ts) ->
                              ~ In t (out_of_scope (scope cfg))).
      { intros t Hin Hout.
        assert (existsb (fun t => mem t (to_set (out_of_scope (scope cfg))))
                        (t0 :: ts) = true).
        { apply existsb_exists. exists t. split; [exact Hin |].
          rewrite mem_to_set. now apply mem_In. }
        congruence. }
      destruct (existsb (target_allowed (scope cfg)) (t0 :: ts)) eqn:Ha;
        cbn [negb].
      * apply existsb_exists in Ha. rewrite Hpaths.
        split; [intros H; split; [right; now split | exact H] | tauto].
      * split; [discriminate |].
        intros [[H | [_ (t & Hin & Hal)]] _]; [discriminate |].
        assert (existsb (target_allowed (scope cfg)) (t0 :: ts) = true)
          by (apply existsb_exists; now exists t).
        congruence.
Qed.

(** * Further properties of the executor *)

Lemma decode_from_valid (bs : list Byte.byte) :
  forall st out s,
    Forall validcp out ->
    (forall p, st = Some p ->
               completes (Utf8.need p) (Utf8.acc p) (Utf8.lo p) (Utf8.hi p)) ->
    Utf8.decode_from Utf8.Ignore st out bs = Some s ->
    Forall validcp s.
Proof.
  induction bs as [| b r IH]; intros st out s Hout Hst Hdec.
  - destruct st; simpl in Hdec; injection Hdec as <-; exact Hout.
  - assert (Hfresh : forall out',
      Forall validcp out' ->
      match Utf8.lead (Byte.to_N b) with
      | Utf8.Single cp => Utf8.decode_from Utf8.Ignore None (out' ++ [cp]) r
      | Utf8.Start p => Utf8.decode_from Utf8.Ignore (Some p) out' r
      | Utf8.BadStart =>
          match Utf8.on_error Utf8.Ignore out' with
          | Some out'' => Utf8.decode_from Utf8.Ignore None out'' r
          | None => None
          end
      end = Some s -> Forall validcp s).
    { intros out' Hout' H.
      destruct (Utf8.lead (Byte.to_N b)) as [cp | p |] eqn:El.
      - apply (IH None (out' ++ [cp]) s); [| discriminate | exact H].
        apply Forall_app. split; [exact Hout' |].
        constructor; [now apply (lead_single _ _ El) | constructor].
      - apply (IH (Some p) out' s); [exact Hout' | | exact H].
        intros p' [= <-]. now apply (lead_completes b).
      - simpl in H. apply (IH None out' s); [exact Hout' | discriminate | exact H]. }
    simpl in Hdec. destruct st as [p |]; [| now apply (Hfresh out)].
    destruct ((Utf8.lo p <=? Byte.to_N b)%N && (Byte.to_N b <=? Utf8.hi p)%N)%bool
      eqn:Hr; [| now apply (Hfresh out)].
    apply andb_true_iff in Hr. destruct Hr as [Hlo Hhi].
    apply N.leb_le in Hlo, Hhi.
    pose proof (Hst p eq_refl) as Hc.
    assert (Hbits : N.lor (N.shiftl (Utf8.acc p) 6) (N.land (Byte.to_N b) 63)
                    = (Utf8.acc p * 64 + (Byte.to_N b - 128))%N).
    { destruct (Utf8.need p); destruct Hc as (H1 & H2 & _);
        (rewrite continuation_bits by lia); apply lor_shiftl_small; lia. }
    rewrite Hbits in Hdec.
    destruct (Utf8.need p) as [| [| k]]; destruct Hc as (_ & _ & Hx);
      specialize (Hx (Byte.to_N b) Hlo Hhi).
    + refine (IH None _ s _ _ Hdec); [| discriminate].
      apply Forall_app. split; [exact Hout | constructor; [exact Hx | constructor]].
    + refine (IH None _ s _ _ Hdec); [| discriminate].
      apply Forall_app. split; [exact Hout | constructor; [exact Hx | constructor]].
    + refine (IH (Some _) out s Hout _ Hdec).
      intros p' [= <-]. exact Hx.
Qed.

Lemma decode_ignore_valid (bs : list Byte.byte) :
  Forall validcp (decode_ignore bs).
Proof.
  unfold decode_ignore, Utf8.decode.
  destruct (Utf8.decode_from Utf8.Ignore None [] bs) as [s |] eqn:E;
    [| constructor].
  apply (decode_from_valid bs None [] s); [constructor | discriminate | exact E].
Qed.

(** ** What the redactions keep *)

Lemma rw_skip_Forall (P : N -> Prop) (mt : ustr -> option (nat * ustr)) :
  (forall s n r, Forall P s -> mt s = Some (n, r) -> Forall P r) ->
  forall s k, Forall P s -> Forall P (rw_skip mt k s).
Proof.
  intros Hmt. induction s as [| c s IH]; intros k Hs.
  - destruct k; simpl; [| constructor].
    destruct (mt []) as [[n r] |] eqn:E; [| constructor].
    rewrite app_nil_r. now apply (Hmt [] n r).
  - inversion Hs as [| ? ? Hc Hs']; subst.
    destruct k; simpl; [| now apply IH].
    destruct (mt (c :: s)) as [[n r] |] eqn:E.
    + apply Forall_app. split; [now apply (Hmt (c :: s) n r) |].
      destruct n; [constructor; [exact Hc |] |]; now apply IH.
    + constructor; [exact Hc | now apply IH].
Qed.

Lemma Forall_firstn_of (P : N -> Prop) (n : nat) (s : ustr) :
  Forall P s -> Forall P (firstn n s).
Proof.
  intros H. rewrite <- (firstn_skipn n s) in H.
  now apply Forall_app in H.
Qed.

Lemma key_match_Forall (P : N -> Prop) (K : ustr) (sp : bool) :
  Forall P REDACTED ->
  forall s n r, Forall P s -> key_match K sp s = Some (n, r) -> Forall P r.
Proof.
  intros HR s n r Hs. unfold key_match.
  destruct (strip_key K s) as [rest |]; [| discriminate].
  cbv zeta.
  destruct (Re.span u_nonspace None _); [discriminate |].
  intros [= _ <-]. apply Forall_app. split; [| exact HR].
  now apply Forall_firstn_of.
Qed.

Lemma jwt_match_Forall (P : N -> Prop) :
  Forall P JWT_REDACTED ->
  forall s n r, Forall P s -> jwt_match s = Some (n, r) -> Forall P r.
Proof.
  intros HR s n r _. unfold jwt_match.
  destruct (dotted_run s) as [[n1 s1] |]; [| discriminate].
  destruct (dotted_run s1) as [[n2 s2] |]; [| discriminate].
  destruct (Re.span jwt_char None s2); [discriminate |].
  now intros [= _ <-].
Qed.

(** The redactions only put the characters of their two markers. *)
Lemma redact_Forall (P : N -> Prop) (text : ustr) :
  Forall P REDACTED -> Forall P JWT_REDACTED ->
  Forall P text -> Forall P (_redact text).
Proof.
  intros HR HJ Ht. rewrite redact_as_rw. unfold rw.
  apply rw_skip_Forall; [now apply jwt_match_Forall |].
  apply rw_skip_Forall; [now apply key_match_Forall |].
  apply rw_skip_Forall; [now apply key_match_Forall |].
  apply rw_skip_Forall; [now apply key_match_Forall |].
  exact Ht.
Qed.

Lemma encodable_validcp (s : ustr) :
  encodable s = true <-> Forall validcp s.
Proof.
  unfold encodable. rewrite forallb_forall, Forall_forall.
  split; intros H c Hc; specialize (H c Hc); unfold validcp in *.
  - apply orb_true_iff in H. destruct H as [H | H].
    + left. now apply N.ltb_lt.
    + apply andb_true_iff in H. destruct H as [H1 H2]. right.
      split; [now apply N.leb_le | now apply N.ltb_lt].
  - apply orb_true_iff. destruct H as [H | [H1 H2]].
    + left. now apply N.ltb_lt.
    + right. apply andb_true_iff.
      split; [now apply N.leb_le | now apply N.ltb_lt].
Qed.

Lemma markers_valid : Forall validcp REDACTED /\ Forall validcp JWT_REDACTED.
Proof.
  split; apply encodable_validcp; reflexivity.
Qed.

Lemma redact_decode_encodable (bs : list Byte.byte) :
  encodable (_redact (decode_ignore bs)) = true.
Proof.
  apply encodable_validcp.
  apply redact_Forall; [apply markers_valid | apply markers_valid |].
  apply decode_ignore_valid.
Qed.

(** What [run_command] returns can be encoded. *)
Lemma run_command_encodable (h : Host) (cfg : SessionConfig) (bid : str)
    (idx : nat) (cmd : str) (timeout : nat) (r : CommandResult)
    (effs : list Effect) :
  run_command h cfg bid idx cmd timeout = (Returned r, effs) ->
  encodable (stdout_of r) = true.
Proof.
  unfold run_command.
  destruct (shlex_split cmd) as [[| a parts] |]; [discriminate | | discriminate].
  cbv zeta.
  destruct (existsb has_nul (output_dir cfg :: a :: parts));
    [discriminate |].
  destruct (spawn h (a :: parts) (output_dir cfg) timeout)
    as [[rc out err | gone] |]; [| | discriminate].
  - cbv zeta. unfold write_text.
    destruct (negb (writable h _)); [discriminate |].
    destruct (negb (encodes h _)); [discriminate |].
    destruct (negb (writable h _)); [discriminate |].
    destruct (negb (encodes h _)); [discriminate |].
    intros [= <- _]. apply redact_decode_encodable.
  - destruct gone; [discriminate |]. intros [= <- _]. reflexivity.
Qed.

(** X10: the byte count of [make_observation] cannot fail on what
    [run_command] returns: for every list of results each of which some
    call of [run_command] returned, on whatever host and whatever bytes
    the processes printed, the observation is built. *)
Theorem make_observation_total_on_run_command_results (bid : str)
    (results : list CommandResult) :
  (forall r, In r results ->
     exists h cfg b idx cmd timeout effs,
       run_command h cfg b idx cmd timeout = (Returned r, effs)) ->
  exists obs, make_observation bid results = Some obs.
Proof.
  intros H. apply make_observation_total. intros r Hr.
  destruct (H r Hr) as (h & cfg & b & idx & cmd & timeout & effs & Hrun).
  exact (run_command_encodable _ _ _ _ _ _ _ _ Hrun).
Qed.

Lemma make_observation_total_on_run_command_results_witness :
  exists r effs obs,
    run_command (quick_host surrogate_bytes) (config example_scope AUTO_READONLY)
                (L "b1") 0 (L "cat notes") 20 = (Returned r, effs)
    /\ make_observation (L "b1") [r] = Some obs.
Proof.
  pose (run := run_command (quick_host surrogate_bytes)
                 (config example_scope AUTO_READONLY) (L "b1") 0
                 (L "cat notes") 20).
  pose (r := match fst run with
             | Returned r => r
             | Raised _ => (0%Z, [], [], [], [])
             end).
  assert (Hrun : run = (Returned r, snd run)) by (vm_compute; reflexivity).
  destruct (make_observation_total_on_run_command_results (L "b1") [r])
    as [obs Hobs].
  - intros r' [<- | []].
    exists (quick_host surrogate_bytes), (config example_scope AUTO_READONLY),
           (L "b1"), 0, (L "cat notes"), 20, (snd run).
    exact Hrun.
  - exists r, (snd run), obs. split; [exact Hrun | exact Hobs].
Defined.

(** ** The size and the lines of an observation *)

Lemma encoded_size_bounds (s : ustr) (n : nat) :
  Utf8.encoded_size s = Some n ->
  List.length s <= n <= 4 * List.length s.
Proof.
  revert n. induction s as [| c s IH]; intros n; simpl.
  - intros [= <-]. lia.
  - destruct (Utf8.encoded_len c) as [a |] eqn:Ea; [| discriminate].
    destruct (Utf8.encoded_size s) as [b |]; [| discriminate].
    intros [= <-]. specialize (IH b eq_refl).
    assert (1 <= a <= 4).
    { unfold Utf8.encoded_len in Ea.
      repeat match type of Ea with
             | (if ?c then _ else _) = _ => destruct c
             end; inversion Ea; lia. }
    lia.
Qed.

Lemma total_size_bounds (l : list ustr) (n : nat) :
  total_size l = Some n ->
  List.length (List.concat l) <= n <= 4 * List.length (List.concat l).
Proof.
  revert n. induction l as [| s l IH]; intros n; simpl.
  - intros [= <-]. lia.
  - destruct (Utf8.encoded_size s) as [a |] eqn:Ea; [| discriminate].
    destruct (total_size l) as [b |]; [| discriminate].
    intros [= <-]. specialize (IH b eq_refl).
    apply encoded_size_bounds in Ea. rewrite length_app. lia.
Qed.

Lemma extract_nil (combined : ustr) : extract combined = [] <-> combined = [].
Proof.
  split; [| now intros ->].
  destruct combined as [| c s]; [reflexivity |]. unfold extract. intros H.
  apply app_eq_nil in H. destruct H as [_ H]. discriminate H.
Qed.

(** X11: the byte count of an observation lies between the number of
    characters of the combined standard output and four times that
    number, and it is zero exactly when there are no key lines, which is
    exactly when the combined output is empty. *)
Theorem observation_bytes_bound_characters (bid : str)
    (results : list CommandResult) (obs : Observation) :
  make_observation bid results = Some obs ->
  List.length (combined_output results) <= bytes_out obs
  /\ bytes_out obs <= 4 * List.length (combined_output results)
  /\ (bytes_out obs = 0 <-> combined_output results = [])
  /\ (key_lines obs = [] <-> combined_output results = []).
Proof.
  unfold make_observation.
  destruct (total_size (map stdout_of results)) as [n |] eqn:E; [| discriminate].
  intros [= <-]. cbn [bytes_out key_lines].
  apply total_size_bounds in E. fold (combined_output results) in E.
  split; [lia |]. split; [lia |]. split.
  - split; intros H.
    + apply length_zero_iff_nil. lia.
    + rewrite H in E. simpl in E. lia.
  - apply extract_nil.
Qed.

Lemma observation_bytes_bound_characters_witness :
  exists obs,
    make_observation (L "b1") [sample_result 0 "key"; sample_result 2 "s"]
    = Some obs
    /\ 4 <= bytes_out obs <= 16 /\ key_lines obs <> [].
Proof.
  eexists. split; [reflexivity |].
  pose proof (observation_bytes_bound_characters (L "b1")
                [sample_result 0 "key"; sample_result 2 "s"] _ eq_refl)
    as (H1 & H2 & _ & H4).
  split; [exact (conj H1 H2) |].
  intros H. apply H4 in H. discriminate H.
Defined.

(** ** What is left after the redactions *)

Lemma keys_of_KEYS (K : ustr) (sp : bool) (text : ustr) :
  In (K, sp) KEYS ->
  is_key K /\ Stable (key_match K sp) (_redact text).
Proof.
  destruct keys_are_keys as (H1 & H2 & H3).
  destruct (redact_stable text) as (S1 & S2 & S3 & _).
  intros [[= <- <-] | [[= <- <-] | [[= <- <-] | []]]]; now split.
Qed.

(** X12: in a redacted text a key is only ever followed by the marker:
    wherever one of the three keys stands (in any letter case, the
    authorization key with the spaces after it), the run of non-space
    characters that follows it, taken to its end, is [[REDACTED]]. *)
Theorem redacted_text_has_only_marker_after_key (text : ustr) (K : ustr)
    (sp : bool) (u v k ws tok rest : ustr) :
  In (K, sp) KEYS ->
  _redact text = u ++ v ->
  key_occ K sp v k ws tok rest ->
  tok = REDACTED.
Proof.
  intros Hin Htext Hocc.
  destruct (keys_of_KEYS K sp text Hin) as [[_ HK] Hst].
  pose proof (key_match_intro K sp v k ws tok rest HK Hocc) as Hm.
  pose proof (Hst u v Htext _ _ Hm) as Hr.
  destruct Hocc as (Hv & _).
  rewrite Hv in Hr.
  replace (k ++ ws ++ tok ++ rest) with ((k ++ ws ++ tok) ++ rest) in Hr
    by now rewrite <- !app_assoc.
  rewrite firstn_app, firstn_all, Nat.sub_diag in Hr. cbn [firstn] in Hr.
  rewrite app_nil_r in Hr.
  apply app_inv_head in Hr. apply app_inv_head in Hr. now symmetry.
Qed.

Lemma redacted_text_has_only_marker_after_key_witness :
  exists tok,
    key_occ key_password false (_redact (U "PassWord=hunter2 x"))
            (U "PassWord=") [] tok (U " x")
    /\ tok = REDACTED.
Proof.
  exists (firstn 10 (skipn 9 (_redact (U "PassWord=hunter2 x")))).
  assert (Hocc : key_occ key_password false (_redact (U "PassWord=hunter2 x"))
                   (U "PassWord=") []
                   (firstn 10 (skipn 9 (_redact (U "PassWord=hunter2 x"))))
                   (U " x")).
  { split; [vm_compute; reflexivity |].
    split; [vm_compute; reflexivity |].
    split; [constructor |].
    split; [reflexivity |].
    split; [vm_compute; discriminate |].
    split; [| vm_compute; reflexivity].
    vm_compute. repeat constructor. }
  split; [exact Hocc |].
  refine (redacted_text_has_only_marker_after_key (U "PassWord=hunter2 x")
            key_password false [] _ _ _ _ _ _ eq_refl Hocc).
  right. left. reflexivity.
Defined.

Lemma findall_none (pat : Re.pattern N) :
  no_bnd pat = true ->
  forall s,
    (forall u v, s = u ++ v -> Re.rmatch pat None v 0 [] = None) ->
    forall prev (A : Type) (f : nat -> list nat -> ustr -> A),
      flat_map (fun x => match x with inl m => [m] | inr _ => [] end)
               (Re.scan pat A f 0 prev s) = [].
Proof.
  intros Hb. induction s as [| c s IH]; intros Hs prev A f.
  - simpl. rewrite (rmatch_prev pat Hb prev). now rewrite (Hs [] [] eq_refl).
  - simpl. rewrite (rmatch_prev pat Hb prev).
    rewrite (Hs [] (c :: s) eq_refl). simpl. apply IH.
    intros u v ->. now apply (Hs (c :: u) v).
Qed.

Lemma jwt_match_starts (v : ustr) (n : nat) (r : ustr) :
  jwt_match v = Some (n, r) ->
  exists c v', v = c :: v' /\ jwt_char c = true /\ 1 <= n.
Proof.
  intros H.
  destruct (jwt_match_elim v n r H) as (r1 & r2 & r3 & rest & Hocc & -> & _).
  destruct Hocc as (-> & H1 & _ & _ & A1 & _).
  destruct r1 as [| c r1]; [congruence |].
  inversion A1 as [| ? ? Hc _]; subst.
  exists c, (r1 ++ 46%N :: r2 ++ 46%N :: r3 ++ rest).
  split; [reflexivity |]. split; [exact Hc |]. simpl. lia.
Qed.

Lemma redacted_no_jwt_match (text u v : ustr) :
  _redact text = u ++ v -> jwt_match v = None.
Proof.
  intros Htext. destruct (redact_stable text) as (_ & _ & _ & Hst).
  destruct (jwt_match v) as [[n r] |] eqn:E; [| reflexivity].
  pose proof (Hst u v Htext n r E) as Hr.
  destruct (jwt_match_elim v n r E) as (_ & _ & _ & _ & _ & _ & HJ).
  destruct (jwt_match_starts v n r E) as (c & v' & -> & Hc & Hn).
  destruct n as [| n]; [lia |]. rewrite HJ in Hr. simpl in Hr.
  injection Hr as Hc' _. rewrite <- Hc' in Hc. discriminate Hc.
Qed.

(** X13: no token is left in a redacted text: [re.findall] of the token
    pattern (three runs of letters, digits, hyphens and underscores with
    a dot between them) finds nothing in it. *)
Theorem redacted_text_has_no_token (text : ustr) :
  Re.findall (fst jwt_redaction) (_redact text) = [].
Proof.
  unfold Re.findall. apply findall_none; [reflexivity |].
  intros u v Huv.
  pose proof (redacted_no_jwt_match text u v Huv) as H.
  rewrite <- front_match_jwt in H. unfold front_match in H.
  destruct (Re.rmatch (fst jwt_redaction) None v 0 []) as [[n marks] |];
    [discriminate | reflexivity].
Qed.

Lemma fold_sign (c : N) : redaction_sign (fold c) = true -> redaction_sign c = true.
Proof.
  unfold redaction_sign. rewrite !orb_true_iff, !N.eqb_eq.
  destruct (fold_cases c) as [H | [H | [H | [H | H]]]]; lia.
Qed.

Lemma key_match_needs_sign (K : ustr) (sp : bool) (v : ustr) (n : nat)
    (r : ustr) :
  In (K, sp) KEYS ->
  key_match K sp v = Some (n, r) ->
  exists c, In c v /\ redaction_sign c = true.
Proof.
  intros Hin Hm.
  assert (HK : is_key K /\ redaction_sign (last K 0%N) = true).
  { destruct keys_are_keys as (H1 & H2 & H3).
    destruct Hin as [[= <- <-] | [[= <- <-] | [[= <- <-] | []]]];
      (split; [assumption | reflexivity]). }
  destruct HK as [[Hne HK] Hlast].
  destruct (key_match_elim K sp v n r HK Hm)
    as (k & ws & tok & rest & (Hv & Hk & _) & _).
  assert (Hkne : k <> []) by (intros ->; now apply Hne).
  destruct (nonempty_last k Hkne) as (k' & z & ->).
  exists z. split.
  - rewrite Hv. apply in_or_app. left. apply in_or_app. right. now left.
  - apply fold_sign. rewrite <- Hk, map_app in Hlast. cbn [map] in Hlast.
    now rewrite last_last in Hlast.
Qed.

Lemma jwt_match_needs_sign (v : ustr) (n : nat) (r : ustr) :
  jwt_match v = Some (n, r) ->
  exists c, In c v /\ redaction_sign c = true.
Proof.
  intros Hm.
  destruct (jwt_match_elim v n r Hm) as (r1 & r2 & r3 & rest & (Hv & _) & _).
  exists 46%N. split; [| reflexivity].
  rewrite Hv. apply in_or_app. right. now left.
Qed.

Lemma Stable_without_match (mt : ustr -> option (nat * ustr)) (t : ustr) :
  (forall u v, t = u ++ v -> mt v = None) -> Stable mt t.
Proof.
  intros H u v Huv n r Hm. rewrite (H u v Huv) in Hm. discriminate Hm.
Qed.

Lemma no_sign_no_key_match (K : ustr) (sp : bool) (t u v : ustr) :
  In (K, sp) KEYS ->
  forallb (fun c => negb (redaction_sign c)) t = true ->
  t = u ++ v -> key_match K sp v = None.
Proof.
  intros Hin Ht ->.
  destruct (key_match K sp v) as [[n r] |] eqn:E; [| reflexivity].
  destruct (key_match_needs_sign K sp v n r Hin E) as (c & Hc & Hs).
  rewrite forallb_forall in Ht.
  specialize (Ht c (in_or_app u v c (or_intror Hc))).
  rewrite Hs in Ht. discriminate Ht.
Qed.

Lemma no_sign_no_jwt_match (t u v : ustr) :
  forallb (fun c => negb (redaction_sign c)) t = true ->
  t = u ++ v -> jwt_match v = None.
Proof.
  intros Ht ->.
  destruct (jwt_match v) as [[n r] |] eqn:E; [| reflexivity].
  destruct (jwt_match_needs_sign v n r E) as (c & Hc & Hs).
  rewrite forallb_forall in Ht.
  specialize (Ht c (in_or_app u v c (or_intror Hc))).
  rewrite Hs in Ht. discriminate Ht.
Qed.

(** X14: the redactions leave a text without a dot, a colon and an
    equals sign as it is. *)
Theorem redact_keeps_text_without_signs (text : ustr) :
  forallb (fun c => negb (redaction_sign c)) text = true ->
  _redact text = text.
Proof.
  intros Ht. destruct keys_are_keys as ((_ & H1) & (_ & H2) & (_ & H3)).
  rewrite redact_as_rw.
  rewrite (rw_stable_id (key_match key_authorization true)
             (key_match_proper _ _ H1) text).
  2: { apply Stable_without_match. intros u v.
       apply no_sign_no_key_match; [now left | exact Ht]. }
  rewrite (rw_stable_id (key_match key_password false)
             (key_match_proper _ _ H2) text).
  2: { apply Stable_without_match. intros u v.
       apply no_sign_no_key_match; [right; now left | exact Ht]. }
  rewrite (rw_stable_id (key_match key_aws false)
             (key_match_proper _ _ H3) text).
  2: { apply Stable_without_match. intros u v.
       apply no_sign_no_key_match; [right; right; now left | exact Ht]. }
  apply (rw_stable_id jwt_match jwt_match_proper).
  apply Stable_without_match. intros u v. now apply no_sign_no_jwt_match.
Qed.

Lemma redact_keeps_text_without_signs_witness :
  _redact (U "uid 0 (root)") = U "uid 0 (root)".
Proof.
  apply redact_keeps_text_without_signs. reflexivity.
Defined.

(** * Properties of the callers *)

Lemma enforce_allowed (fs : FileSystem) (cfg : SessionConfig) (cmd : str)
    (d : bool * bool * Reason) :
  enforce fs cfg cmd = Returned d ->
  allow_execute d = true ->
  mode cfg = AUTO_READONLY
  /\ in_scope_command fs cfg cmd = Returned (true, InScope)
  /\ exists why, classify_and_check cmd = (low, true, why).
Proof.
  unfold enforce.
  destruct (classify_and_check cmd) as [[risk ro] why].
  destruct (in_scope_command fs cfg cmd) as [[scope_ok scope_reason] | e] eqn:Hs;
    [| discriminate].
  destruct scope_ok; cbn [negb]; [| now intros [= <-]].
  rewrite (in_scope_true_reason fs cfg cmd scope_reason Hs).
  destruct (mem (mode cfg) [PLAN_ONLY; SIMULATE]); [now intros [= <-] |].
  destruct (str_eqb (mode cfg) AUTO_READONLY) eqn:Hm.
  - apply str_eqb_eq in Hm.
    destruct risk, ro; intros [= <-]; try discriminate.
    intros _. split; [exact Hm |]. split; [reflexivity |]. now exists why.
  - destruct (str_eqb (mode cfg) EXECUTE_WITH_APPROVAL); now intros [= <-].
Qed.

Lemma low_head (cmd why : str) :
  classify_and_check cmd = (low, true, why) ->
  first_denied DENY_PATTERNS (lower (strip cmd)) = None
  /\ mem (head_token cmd) LOW_READONLY_BINARIES = true
  /\ (head_token cmd = L "curl" ->
      (contains (L " -I") cmd || contains (L " --head") cmd)%bool = true)
  /\ (head_token cmd = L "wget" -> contains (L " --spider") cmd = true).
Proof.
  intros H. destruct (classify_cases cmd) as [(w & _ & H') | (w & Hw)].
  - exact H'.
  - rewrite Hw in H. discriminate H.
Qed.

Lemma In_spawns (argv : list str) (cwd : str) (effs : list Effect) :
  In (Spawned argv cwd) effs -> In argv (spawns effs).
Proof.
  intros H. unfold spawns. apply in_flat_map.
  exists (Spawned argv cwd). split; [exact H | now left].
Qed.

(** The ways of [run_command]: it raises before any process is started,
    or it starts one process, the only one. *)
Lemma run_command_cases (h : Host) (cfg : SessionConfig) (bid : str)
    (idx : nat) (cmd : str) (timeout : nat) :
  (snd (run_command h cfg bid idx cmd timeout) = []
   /\ ((shlex_split cmd = None
        /\ fst (run_command h cfg bid idx cmd timeout) = Raised ValueError)
       \/ (shlex_split cmd = Some []
           /\ fst (run_command h cfg bid idx cmd timeout) = Raised TypeError)
       \/ exists argv,
            shlex_split cmd = Some argv /\ argv <> []
            /\ ((existsb has_nul (output_dir cfg :: argv) = true
                 /\ fst (run_command h cfg bid idx cmd timeout)
                    = Raised ValueError)
                \/ (existsb has_nul (output_dir cfg :: argv) = false
                    /\ spawn h argv (output_dir cfg) timeout = None
                    /\ fst (run_command h cfg bid idx cmd timeout)
                       = Raised OSError))))
  \/ exists argv rest,
       shlex_split cmd = Some argv /\ argv <> []
       /\ existsb has_nul (output_dir cfg :: argv) = false
       /\ snd (run_command h cfg bid idx cmd timeout)
          = Spawned argv (output_dir cfg) :: rest
       /\ spawns rest = []
       /\ fst (run_command h cfg bid idx cmd timeout) <> Raised TypeError
       /\ fst (run_command h cfg bid idx cmd timeout) <> Raised ValueError.
Proof.
  unfold run_command.
  destruct (shlex_split cmd) as [[| a parts] |].
  - left. split; [reflexivity |]. right. left. now split.
  - cbv zeta.
    destruct (existsb has_nul (output_dir cfg :: a :: parts)) eqn:Hn.
    { left. split; [reflexivity |]. right. right. exists (a :: parts).
      split; [reflexivity |]. split; [discriminate |]. left. now split. }
    destruct (spawn h (a :: parts) (output_dir cfg) timeout)
      as [[rc out err | gone] |] eqn:Hsp.
    + right. exists (a :: parts). unfold write_text.
      destruct (negb (writable h _));
        [| destruct (negb (encodes h _));
           [| destruct (negb (writable h _));
              [| destruct (negb (encodes h _))]]];
        eexists;
        (split; [reflexivity |]; split; [discriminate |];
         split; [exact Hn |]; split; [reflexivity |];
         split; [reflexivity |]; split; discriminate).
    + right. exists (a :: parts).
      destruct gone; eexists;
        (split; [reflexivity |]; split; [discriminate |];
         split; [exact Hn |]; split; [reflexivity |];
         split; [reflexivity |]; split; discriminate).
    + left. split; [reflexivity |]. right. right. exists (a :: parts).
      split; [reflexivity |]. split; [discriminate |]. right. now repeat split.
  - left. split; [reflexivity |]. left. now split.
Qed.

Lemma run_command_spawned (h : Host) (cfg : SessionConfig) (bid : str)
    (idx : nat) (cmd : str) (timeout : nat) (argv : list str) (cwd : str) :
  In (Spawned argv cwd) (snd (run_command h cfg bid idx cmd timeout)) ->
  shlex_split cmd = Some argv /\ argv <> [] /\ cwd = output_dir cfg
  /\ spawns (snd (run_command h cfg bid idx cmd timeout)) = [argv].
Proof.
  destruct (run_command_cases h cfg bid idx cmd timeout)
    as [[Hnil _] | (argv' & rest & Hsp & Hne & _ & Hsnd & Hrest & _)].
  - rewrite Hnil. intros [].
  - rewrite Hsnd. intros [H | H].
    + injection H as <- <-. unfold spawns in *. simpl. rewrite Hrest.
      now repeat split.
    + apply In_spawns in H. rewrite Hrest in H. contradiction.
Qed.

Lemma run_command_returned_spawns (h : Host) (cfg : SessionConfig)
    (bid : str) (idx : nat) (cmd : str) (timeout : nat) (r : CommandResult)
    (effs : list Effect) :
  run_command h cfg bid idx cmd timeout = (Returned r, effs) ->
  exists argv, shlex_split cmd = Some argv /\ spawns effs = [argv].
Proof.
  intros H.
  destruct (run_command_cases h cfg bid idx cmd timeout)
    as [[_ Hraised] | (argv & rest & Hsp & _ & _ & Hsnd & Hrest & _)];
    rewrite H in *; cbn [fst snd] in *.
  - destruct Hraised as [[_ Hr] | [[_ Hr] | (argv & _ & _ & [[_ Hr] | (_ & _ & Hr)])]];
      discriminate Hr.
  - exists argv. split; [exact Hsp |]. rewrite Hsnd. unfold spawns in *.
    simpl. now rewrite Hrest.
Qed.

Lemma run_command_raised_spawns (h : Host) (cfg : SessionConfig)
    (bid : str) (idx : nat) (cmd : str) (timeout : nat) (e : Exn)
    (effs : list Effect) :
  run_command h cfg bid idx cmd timeout = (Raised e, effs) ->
  spawns effs = []
  \/ exists argv, shlex_split cmd = Some argv /\ spawns effs = [argv].
Proof.
  intros H.
  destruct (run_command_cases h cfg bid idx cmd timeout)
    as [[Hnil _] | (argv & rest & Hsp & _ & _ & Hsnd & Hrest & _)];
    rewrite H in *; cbn [fst snd] in *.
  - left. now rewrite Hnil.
  - right. exists argv. split; [exact Hsp |]. rewrite Hsnd. unfold spawns in *.
    simpl. now rewrite Hrest.
Qed.

Lemma allowed_spawn (fs : FileSystem) (h : Host) (cfg : SessionConfig)
    (bid : str) (idx : nat) (cmd : str) (timeout : nat) (argv : list str)
    (cwd : str) (d : bool * bool * Reason) :
  enforce fs cfg cmd = Returned d ->
  allow_execute d = true ->
  In (Spawned argv cwd) (snd (run_command h cfg bid idx cmd timeout)) ->
  mode cfg = AUTO_READONLY
  /\ in_scope_command fs cfg cmd = Returned (true, InScope)
  /\ shlex_split cmd = Some argv
  /\ mem (hd [] argv) LOW_READONLY_BINARIES = true
  /\ cwd = output_dir cfg.
Proof.
  intros He Ha Hin.
  destruct (enforce_allowed fs cfg cmd d He Ha) as (Hm & Hs & why & Hc).
  destruct (low_head cmd why Hc) as (_ & Hh & _).
  destruct (run_command_spawned _ _ _ _ _ _ _ _ Hin) as (Hsp & _ & Hcwd & _).
  unfold head_token in Hh. rewrite Hsp in Hh. now repeat split.
Qed.

(** X15: a command the authorizer allows is never the empty command for
    the executor: [run_command] does not raise [TypeError] on it, and
    the program of any process it spawns is on the allowlist of
    read-only programs ([curl] only with [-I] or [--head] in the command,
    [wget] only with [--spider]). *)
Theorem allowed_command_spawns_allowlisted_program (fs : FileSystem)
    (h : Host) (cfg : SessionConfig) (bid : str) (idx : nat) (cmd : str)
    (timeout : nat) (d : bool * bool * Reason) :
  enforce fs cfg cmd = Returned d ->
  allow_execute d = true ->
  fst (run_command h cfg bid idx cmd timeout) <> Raised TypeError
  /\ forall argv cwd,
       In (Spawned argv cwd) (snd (run_command h cfg bid idx cmd timeout)) ->
       mem (hd [] argv) LOW_READONLY_BINARIES = true
       /\ (hd [] argv = L "curl" ->
           (contains (L " -I") cmd || contains (L " --head") cmd)%bool = true)
       /\ (hd [] argv = L "wget" -> contains (L " --spider") cmd = true).
Proof.
  intros He Ha.
  destruct (enforce_allowed fs cfg cmd d He Ha) as (_ & _ & why & Hc).
  destruct (low_head cmd why Hc) as (_ & Hh & Hcurl & Hwget).
  split.
  - unfold head_token in Hh.
    destruct (run_command_cases h cfg bid idx cmd timeout)
      as [[_ [[Hs Hr] | [[Hs Hr] | (argv & _ & _ & [[_ Hr] | (_ & _ & Hr)])]]]
         | (argv & rest & _ & _ & _ & _ & _ & Hr & _)];
      try (rewrite Hr; discriminate); try exact Hr.
    rewrite Hs in Hh. discriminate Hh.
  - intros argv cwd Hin.
    destruct (run_command_spawned _ _ _ _ _ _ _ _ Hin) as (Hsp & _).
    unfold head_token in Hh, Hcurl, Hwget. rewrite Hsp in Hh, Hcurl, Hwget.
    now repeat split.
Qed.

Lemma allowed_command_spawns_allowlisted_program_witness :
  fst (run_command slow_host (config example_scope AUTO_READONLY) (L "b1") 0
         (L "curl -I https://example.com") 20) <> Raised TypeError
  /\ mem (L "curl") LOW_READONLY_BINARIES = true.
Proof.
  destruct (allowed_command_spawns_allowlisted_program plain_fs slow_host
              (config example_scope AUTO_READONLY) (L "b1") 0
              (L "curl -I https://example.com") 20 _ eq_refl eq_refl)
    as [H1 H2].
  split; [exact H1 |].
  exact (proj1 (H2 [L "curl"; L "-I"; L "https://example.com"] (L "out")
                  (or_introl eq_refl))).
Defined.

Lemma In_Ran_map (e : Effect) (effs : list Effect) :
  In (Ran e) (map Ran effs) <-> In e effs.
Proof.
  rewrite in_map_iff. split.
  - intros (x & [= <-] & Hx). exact Hx.
  - intros H. now exists e.
Qed.

Lemma spawned_map_Ran (effs : list Effect) :
  spawned (map Ran effs) = spawns effs.
Proof.
  unfold spawned, spawns. induction effs as [| e effs IH]; [reflexivity |].
  simpl. rewrite IH. now destruct e.
Qed.

Lemma spawned_app (a b : list SessionEffect) :
  spawned (a ++ b) = spawned a ++ spawned b.
Proof. unfold spawned. apply flat_map_app. Qed.

Lemma log_observation_effects (h : Host) (root ts : str) (obs : Observation)
    (done : list SessionEffect) :
  snd (log_observation h root ts obs done) = done
  \/ snd (log_observation h root ts obs done)
     = done ++ [Appended (assessment_log root) (log_line ts obs)].
Proof.
  unfold log_observation. destruct (writable h (assessment_log root));
    [now right | now left].
Qed.

Lemma log_observation_ran (h : Host) (root ts : str) (obs : Observation)
    (effs : list Effect) (e : Effect) :
  In (Ran e) (snd (log_observation h root ts obs (map Ran effs))) -> In e effs.
Proof.
  destruct (log_observation_effects h root ts obs (map Ran effs)) as [-> | ->].
  - apply In_Ran_map.
  - intros H. apply in_app_or in H. destruct H as [H | [H | []]].
    + now apply In_Ran_map.
    + discriminate H.
Qed.

Lemma log_observation_spawned (h : Host) (root ts : str) (obs : Observation)
    (effs : list Effect) :
  spawned (snd (log_observation h root ts obs (map Ran effs))) = spawns effs.
Proof.
  destruct (log_observation_effects h root ts obs (map Ran effs)) as [-> | ->].
  - apply spawned_map_Ran.
  - rewrite spawned_app, spawned_map_Ran. apply app_nil_r.
Qed.

(** What [_exec_single] does is what [run_command] does, and a line in
    the log at most. *)
Lemma exec_single_effects (h : Host) (fs : FileSystem) (root : str)
    (cfg : SessionConfig) (ts : str) (cmd : str) (bid : str) :
  (exists e, enforce fs cfg cmd = Raised e
             /\ repl._exec_single h fs root cfg ts cmd bid
                = (inl (Failed e), []))
  \/ (exists d, enforce fs cfg cmd = Returned d
                /\ allow_execute d = false
                /\ repl._exec_single h fs root cfg ts cmd bid = (inr None, []))
  \/ (exists d, enforce fs cfg cmd = Returned d
                /\ allow_execute d = true
                /\ (forall e,
                      In (Ran e)
                         (snd (repl._exec_single h fs root cfg ts cmd bid))
                      -> In e (snd (run_command h cfg bid 0 cmd 20)))
                /\ spawned (snd (repl._exec_single h fs root cfg ts cmd bid))
                   = spawns (snd (run_command h cfg bid 0 cmd 20))).
Proof.
  unfold repl._exec_single.
  destruct (enforce fs cfg cmd) as [[[allow needs] reason] | x];
    [| left; now exists x].
  right.
  destruct allow; cbn [negb];
    [right | left; now exists (false, needs, reason)].
  exists (true, needs, reason). split; [reflexivity |]. split; [reflexivity |].
  destruct (run_command h cfg bid 0 cmd 20) as [[r | e] effs]; cbn [snd].
  - destruct (make_observation bid [r]) as [obs |].
    + pose proof (log_observation_ran h root ts obs effs) as Hran.
      pose proof (log_observation_spawned h root ts obs effs) as Hsp.
      destruct (log_observation h root ts obs (map Ran effs)) as [[f | o] done];
        cbn [snd] in *; now split.
    + cbn [snd]. split; [intros e; apply In_Ran_map | apply spawned_map_Ran].
  - split; [intros e'; apply In_Ran_map | apply spawned_map_Ran].
Qed.

(** X16: the interactive prompt runs a command only when the authorizer
    allows it: every process [_exec_single] spawns belongs to a command
    that is in scope, in AUTO_READONLY mode; it is the only process, its
    arguments are the tokens of the command, its program is on the
    allowlist and it runs in the output directory.  A command that is
    not allowed has no effect at all, and neither has one on which the
    authorizer raises. *)
Theorem repl_spawns_only_allowed_commands (h : Host) (fs : FileSystem)
    (root : str) (cfg : SessionConfig) (ts : str) (cmd : str) (bid : str) :
  (forall d, enforce fs cfg cmd = Returned d ->
             allow_execute d = false ->
             repl._exec_single h fs root cfg ts cmd bid = (inr None, []))
  /\ (forall e, enforce fs cfg cmd = Raised e ->
                repl._exec_single h fs root cfg ts cmd bid
                = (inl (Failed e), []))
  /\ forall argv cwd,
       In (Ran (Spawned argv cwd))
          (snd (repl._exec_single h fs root cfg ts cmd bid)) ->
       mode cfg = AUTO_READONLY
       /\ in_scope_command fs cfg cmd = Returned (true, InScope)
       /\ (exists d, enforce fs cfg cmd = Returned d
                     /\ allow_execute d = true)
       /\ shlex_split cmd = Some argv
       /\ mem (hd [] argv) LOW_READONLY_BINARIES = true
       /\ cwd = output_dir cfg
       /\ spawned (snd (repl._exec_single h fs root cfg ts cmd bid)) = [argv].
Proof.
  destruct (exec_single_effects h fs root cfg ts cmd bid)
    as [(x & Hx & Heq) | [(d & Hd & Hno & Heq) | (d & Hd & Hyes & Hran & Hsp)]].
  - split; [intros d Hd; congruence |].
    split; [intros e He; congruence |].
    intros argv cwd. rewrite Heq. intros [].
  - split; [intros _ _ _; exact Heq |].
    split; [intros e He; congruence |].
    intros argv cwd. rewrite Heq. intros [].
  - split; [intros d' Hd' Hno; congruence |].
    split; [intros e He; congruence |].
    intros argv cwd Hin. apply Hran in Hin.
    destruct (allowed_spawn fs h cfg bid 0 cmd 20 argv cwd d Hd Hyes Hin)
      as (H1 & H2 & H3 & H4 & H5).
    destruct (run_command_spawned _ _ _ _ _ _ _ _ Hin) as (_ & _ & _ & H6).
    rewrite Hsp. repeat split; try assumption. now exists d.
Qed.

Lemma repl_spawns_only_allowed_commands_witness :
  repl._exec_single slow_host plain_fs (L "/s")
    (config example_scope EXECUTE_WITH_APPROVAL) (L "t0") (L "dig example.com")
    repl.ADHOC = (inr None, [])
  /\ spawned (snd (repl._exec_single slow_host plain_fs (L "/s")
                     (config example_scope AUTO_READONLY) (L "t0")
                     (L "dig example.com") repl.ADHOC))
     = [[L "dig"; L "example.com"]].
Proof.
  split.
  - refine (proj1 (repl_spawns_only_allowed_commands slow_host plain_fs (L "/s")
                     (config example_scope EXECUTE_WITH_APPROVAL) (L "t0")
                     (L "dig example.com") repl.ADHOC) _ eq_refl eq_refl).
  - destruct (proj2 (proj2 (repl_spawns_only_allowed_commands slow_host plain_fs
                              (L "/s") (config example_scope AUTO_READONLY)
                              (L "t0") (L "dig example.com") repl.ADHOC))
                [L "dig"; L "example.com"] (L "out") (or_introl eq_refl))
      as (_ & _ & _ & _ & _ & _ & H).
    exact H.
Defined.

Lemma spawns_app (a b : list Effect) : spawns (a ++ b) = spawns a ++ spawns b.
Proof. unfold spawns. apply flat_map_app. Qed.

Lemma first_refused_none (fs : FileSystem) (cfg : SessionConfig)
    (cmds : list str) :
  cli.first_refused fs cfg cmds = Returned None ->
  forall c, In c cmds ->
            exists d, enforce fs cfg c = Returned d /\ allow_execute d = true.
Proof.
  induction cmds as [| c0 cmds IH]; intros H c Hc; [contradiction |].
  simpl in H.
  destruct (enforce fs cfg c0) as [[[allow needs] reason] | x] eqn:E;
    [| discriminate].
  destruct allow; cbn [negb] in H; [| discriminate].
  destruct Hc as [<- | Hc]; [| now apply IH].
  exists (true, needs, reason). now split.
Qed.

(** Every effect of [run_all] is an effect of [run_command] on one of
    the commands. *)
Lemma cli_run_all_in (h : Host) (cfg : SessionConfig) (bid : str)
    (cmds : list str) :
  forall idx e,
    In e (snd (cli.run_all h cfg bid idx cmds)) ->
    exists c i, In c cmds /\ In e (snd (run_command h cfg bid i c 20)).
Proof.
  induction cmds as [| c cmds IH]; intros idx e; simpl; [intros [] |].
  destruct (run_command h cfg bid idx c 20) as [[r | x] effs] eqn:Hrc.
  - destruct (cli.run_all h cfg bid (S idx) cmds) as [[rs | x] effs'] eqn:Hra;
      cbn [snd]; intros H; apply in_app_or in H; destruct H as [H | H].
    + exists c, idx. rewrite Hrc. split; [now left | exact H].
    + destruct (IH (S idx) e) as (c' & i & Hc' & He); [now rewrite Hra |].
      exists c', i. split; [now right | exact He].
    + exists c, idx. rewrite Hrc. split; [now left | exact H].
    + destruct (IH (S idx) e) as (c' & i & Hc' & He); [now rewrite Hra |].
      exists c', i. split; [now right | exact He].
  - cbn [snd]. intros H. exists c, idx. rewrite Hrc. split; [now left | exact H].
Qed.

(** The processes of [run_all] are those of the first [k] commands, one
    each and in order; of all the commands when it returns. *)
Lemma cli_run_all_spawns (h : Host) (cfg : SessionConfig) (bid : str)
    (cmds : list str) :
  forall idx,
  exists k,
    map Some (spawns (snd (cli.run_all h cfg bid idx cmds)))
    = map shlex_split (firstn k cmds)
    /\ forall rs, fst (cli.run_all h cfg bid idx cmds) = Returned rs ->
                  k = List.length cmds /\ List.length rs = List.length cmds.
Proof.
  induction cmds as [| c cmds IH]; intros idx; simpl.
  - exists 0. split; [reflexivity |]. intros rs [= <-]. now split.
  - destruct (run_command h cfg bid idx c 20) as [[r | x] effs] eqn:Hrc.
    + destruct (run_command_returned_spawns _ _ _ _ _ _ _ _ Hrc)
        as (argv & Hsp & Hs).
      destruct (IH (S idx)) as (k & Hk & Hall).
      exists (S k).
      destruct (cli.run_all h cfg bid (S idx) cmds) as [[rs | x] effs'];
        cbn [fst snd] in *; rewrite spawns_app, Hs; cbn [app map firstn];
        rewrite Hk, Hsp; (split; [reflexivity |]).
      * intros rs' [= <-]. destruct (Hall rs eq_refl) as [-> Hl].
        simpl. now rewrite Hl.
      * discriminate.
    + cbn [fst snd].
      destruct (run_command_raised_spawns _ _ _ _ _ _ _ _ Hrc)
        as [Hs | (argv & Hsp & Hs)].
      * exists 0. rewrite Hs. split; [reflexivity | discriminate].
      * exists 1. rewrite Hs. cbn [map firstn]. rewrite Hsp.
        split; [reflexivity | discriminate].
Qed.

Lemma cli_run_all_encodable (h : Host) (cfg : SessionConfig) (bid : str)
    (cmds : list str) :
  forall idx rs effs,
    cli.run_all h cfg bid idx cmds = (Returned rs, effs) ->
    forall r, In r rs -> encodable (stdout_of r) = true.
Proof.
  induction cmds as [| c cmds IH]; intros idx rs effs; simpl.
  - intros [= <- _] r [].
  - destruct (run_command h cfg bid idx c 20) as [[r0 | x] effs0] eqn:Hrc;
      [| discriminate].
    destruct (cli.run_all h cfg bid (S idx) cmds) as [[rs' | x] effs'] eqn:Hra;
      [| discriminate].
    intros [= <- _] r [<- | Hr].
    + exact (run_command_encodable _ _ _ _ _ _ _ _ Hrc).
    + exact (IH _ _ _ Hra r Hr).
Qed.

(** The steps of [exec] before any command is run. *)
Lemma cli_exec_cases (h : Host) (fs : FileSystem) (w : cli.Files)
    (root : str) (cfg : SessionConfig) (ts : str) (bid : str) :
  snd (cli.exec h fs w root cfg ts bid) = []
  \/ exists blocks block,
       cli.exists_ w (path_join (output_dir cfg) (bid ++ L ".approved")) = true
       /\ cli.proposed w = Some blocks
       /\ find (fun b => str_eqb (id b) bid) blocks = Some block
       /\ cli.first_refused fs cfg (commands block) = Returned None
       /\ cli.exec h fs w root cfg ts bid
          = match cli.run_all h cfg (id block) 0 (commands block) with
            | (Raised e, effs) => (inl (Failed e), map Ran effs)
            | (Returned results, effs) =>
                match make_observation (id block) results with
                | None => (inl UnicodeEncodeError, map Ran effs)
                | Some obs => log_observation h root ts obs (map Ran effs)
                end
            end.
Proof.
  unfold cli.exec, cli._load_blocks.
  destruct (cli.exists_ w (path_join (output_dir cfg) (bid ++ L ".approved")));
    cbn [negb]; [| now left].
  destruct (cli.exists_ w (cli._blocks_file cfg)); cbn [negb]; [| now left].
  destruct (cli.proposed w) as [blocks |]; [| now left].
  destruct (find (fun b => str_eqb (id b) bid) blocks) as [block |] eqn:Hf;
    [| now left].
  destruct (cli.first_refused fs cfg (commands block))
    as [[[c reason] |] | x] eqn:Hr; [now left | | now left].
  right. exists blocks, block. now repeat split.
Qed.

(** X17: [exec] checks every command before it runs any: a process is
    spawned only when the block is approved and found, the mode is
    AUTO_READONLY, and the authorizer allows every command of the block;
    the process then belongs to one of these commands. *)
Theorem cli_exec_runs_only_fully_allowed_blocks (h : Host) (fs : FileSystem)
    (w : cli.Files) (root : str) (cfg : SessionConfig) (ts : str)
    (bid : str) (e : Effect) :
  In (Ran e) (snd (cli.exec h fs w root cfg ts bid)) ->
  cli.exists_ w (path_join (output_dir cfg) (bid ++ L ".approved")) = true
  /\ mode cfg = AUTO_READONLY
  /\ exists blocks block,
       cli.proposed w = Some blocks
       /\ find (fun b => str_eqb (id b) bid) blocks = Some block
       /\ (forall c, In c (commands block) ->
                     exists d, enforce fs cfg c = Returned d
                               /\ allow_execute d = true)
       /\ exists c i, In c (commands block)
                      /\ In e (snd (run_command h cfg (id block) i c 20)).
Proof.
  intros Hin.
  destruct (cli_exec_cases h fs w root cfg ts bid)
    as [Hnil | (blocks & block & Happ & Hprop & Hfind & Hall & Heq)].
  { rewrite Hnil in Hin. contradiction. }
  pose proof (first_refused_none fs cfg _ Hall) as Hallow.
  assert (He : In e (snd (cli.run_all h cfg (id block) 0 (commands block)))).
  { rewrite Heq in Hin.
    destruct (cli.run_all h cfg (id block) 0 (commands block))
      as [[rs | x] effs]; cbn [snd] in *.
    - destruct (make_observation (id block) rs) as [obs |].
      + now apply log_observation_ran in Hin.
      + now apply In_Ran_map.
    - now apply In_Ran_map. }
  destruct (cli_run_all_in h cfg (id block) (commands block) 0 e He)
    as (c & i & Hc & Hrun).
  split; [exact Happ |]. split.
  - destruct (Hallow c Hc) as (d & Hd & Ha).
    exact (proj1 (enforce_allowed fs cfg c d Hd Ha)).
  - exists blocks, block. repeat split; try assumption.
    now exists c, i.
Qed.

Lemma cli_exec_runs_only_fully_allowed_blocks_witness :
  mode (config example_scope AUTO_READONLY) = AUTO_READONLY
  /\ exists d,
       enforce plain_fs (config example_scope AUTO_READONLY)
               (L "curl -I https://example.com") = Returned d
       /\ allow_execute d = true.
Proof.
  destruct (cli_exec_runs_only_fully_allowed_blocks slow_host plain_fs
              (approved_files (config example_scope AUTO_READONLY)
                              [example_block])
              (L "/s") (config example_scope AUTO_READONLY) (L "t0") (L "CB-1")
              (Spawned [L "dig"; L "example.com"] (L "out")))
    as (_ & Hm & blocks & block & Hp & Hf & Hall & _).
  - left. reflexivity.
  - split; [exact Hm |].
    injection Hp as <-. injection Hf as <-.
    apply Hall. right. left. reflexivity.
Defined.

(** X18: [exec] runs the commands of the block in order, each once: the
    processes spawned are those of the first commands of the block, with
    the tokens of the command as arguments; when [exec] ends with an
    observation every command was run, the observation carries the id of
    the block, and its line in the assessment log is the last effect. *)
Theorem cli_exec_spawns_commands_in_order (h : Host) (fs : FileSystem)
    (w : cli.Files) (root : str) (cfg : SessionConfig) (ts : str)
    (bid : str) (blocks : list CommandBlock) (block : CommandBlock) :
  cli.proposed w = Some blocks ->
  find (fun b => str_eqb (id b) bid) blocks = Some block ->
  exists k,
    map Some (spawned (snd (cli.exec h fs w root cfg ts bid)))
    = map shlex_split (firstn k (commands block))
    /\ forall obs,
         fst (cli.exec h fs w root cfg ts bid) = inr obs ->
         k = List.length (commands block)
         /\ block_id obs = bid
         /\ exists done,
              snd (cli.exec h fs w root cfg ts bid)
              = map Ran done
                  ++ [Appended (assessment_log root) (log_line ts obs)].
Proof.
  intros Hprop Hfind.
  assert (Hid : id block = bid).
  { apply find_some in Hfind. now apply str_eqb_eq. }
  unfold cli.exec, cli._load_blocks.
  destruct (cli.exists_ w (path_join (output_dir cfg) (bid ++ L ".approved")));
    cbn [negb]; [| exists 0; split; [reflexivity | discriminate]].
  destruct (cli.exists_ w (cli._blocks_file cfg)); cbn [negb];
    [| exists 0; split; [reflexivity | discriminate]].
  rewrite Hprop, Hfind.
  destruct (cli.first_refused fs cfg (commands block))
    as [[[c reason] |] | x];
    [exists 0; split; [reflexivity | discriminate] |
     | exists 0; split; [reflexivity | discriminate]].
  destruct (cli_run_all_spawns h cfg (id block) (commands block) 0)
    as (k & Hk & Hall).
  exists k.
  destruct (cli.run_all h cfg (id block) 0 (commands block))
    as [[rs | x] effs]; cbn [fst snd] in *.
  - destruct (make_observation (id block) rs) as [obs |] eqn:Hobs.
    + split; [now rewrite log_observation_spawned |].
      intros obs'. unfold log_observation.
      destruct (writable h (assessment_log root)); [| discriminate].
      intros [= <-]. split; [exact (proj1 (Hall rs eq_refl)) |].
      split; [| now exists effs].
      unfold make_observation in Hobs.
      destruct (total_size (map stdout_of rs)); [| discriminate].
      injection Hobs as <-. exact Hid.
    + cbn [fst snd]. split; [now rewrite spawned_map_Ran | discriminate].
  - split; [now rewrite spawned_map_Ran | discriminate].
Qed.

Lemma cli_exec_spawns_commands_in_order_witness :
  exists k,
    map Some (spawned (snd (cli.exec slow_host plain_fs
                              (approved_files
                                 (config example_scope AUTO_READONLY)
                                 [example_block])
                              (L "/s") (config example_scope AUTO_READONLY)
                              (L "t0") (L "CB-1"))))
    = map shlex_split (firstn k (commands example_block))
    /\ k = 2.
Proof.
  destruct (cli_exec_spawns_commands_in_order slow_host plain_fs
              (approved_files (config example_scope AUTO_READONLY)
                              [example_block])
              (L "/s") (config example_scope AUTO_READONLY) (L "t0") (L "CB-1")
              [example_block] example_block eq_refl eq_refl)
    as (k & Hk & Hall).
  exists k. split; [exact Hk |].
  refine (proj1 (Hall _ _)). vm_compute. reflexivity.
Defined.

Lemma contains_suffix (p a : str) : contains p (a ++ p) = true.
Proof. apply contains_iff. exists a, []. now rewrite app_nil_r. Qed.

Lemma contains_inside (p a b : str) : contains p (a ++ p ++ b) = true.
Proof. apply contains_iff. now exists a, b. Qed.

Lemma classify_denied (cmd pat : str) :
  first_denied DENY_PATTERNS (lower (strip cmd)) = Some pat ->
  classify_and_check cmd = (medium, false, L "Denied pattern: " ++ pat).
Proof. intros H. unfold classify_and_check. cbv zeta. now rewrite H. Qed.

Lemma Returned_inj (A : Type) (a b : A) : Returned a = Returned b -> a = b.
Proof. now intros [= ->]. Qed.

(** What an approved block still does not run. *)
Lemma ai_loop_not_blocked (fs : FileSystem) (cfg : SessionConfig) (c : str)
    (d : bool * bool * Reason) :
  enforce fs cfg c = Returned d ->
  (negb (allow_execute d) && needs_approval d
   && ai_loop.blocked (reason_of d))%bool = false ->
  in_scope_command fs cfg c = Returned (true, InScope)
  /\ mem (mode cfg) [PLAN_ONLY; SIMULATE] = false
  /\ (mode cfg = AUTO_READONLY \/ mode cfg = EXECUTE_WITH_APPROVAL ->
      first_denied DENY_PATTERNS (lower (strip c)) = None).
Proof.
  unfold enforce.
  destruct (first_denied DENY_PATTERNS (lower (strip c))) as [pat |] eqn:Hd.
  - rewrite (classify_denied c pat Hd).
    destruct (in_scope_command fs cfg c) as [[scope_ok scope_reason] | x] eqn:Hs;
      [| discriminate].
    destruct scope_ok; cbn [negb]; [| intros [= <-]; discriminate].
    rewrite (in_scope_true_reason fs cfg c scope_reason Hs).
    destruct (mem (mode cfg) [PLAN_ONLY; SIMULATE]) eqn:Hmode.
    { intros E. apply Returned_inj in E. subst d.
      unfold allow_execute, needs_approval, reason_of.
      cbn [negb fst snd andb ai_loop.blocked].
      change (L " forbids execution") with (L " " ++ L "forbids execution").
      rewrite !app_assoc, contains_suffix, !orb_true_r. discriminate. }
    destruct (str_eqb (mode cfg) AUTO_READONLY) eqn:Ha.
    { intros E. apply Returned_inj in E. subst d.
      unfold allow_execute, needs_approval, reason_of.
      cbn [negb fst snd andb ai_loop.blocked].
      change (L "Denied pattern: " ++ pat)
        with (L "Denied pattern" ++ L ": " ++ pat).
      rewrite contains_inside, !orb_true_r. discriminate. }
    destruct (str_eqb (mode cfg) EXECUTE_WITH_APPROVAL) eqn:He.
    { intros E. apply Returned_inj in E. subst d.
      unfold allow_execute, needs_approval, reason_of.
      cbn [negb fst snd andb ai_loop.blocked].
      change (L "Denied pattern: " ++ pat)
        with (L "Denied pattern" ++ L ": " ++ pat).
      rewrite contains_inside, !orb_true_r. discriminate. }
    intros _ _. split; [reflexivity |]. split; [reflexivity |].
    intros [Hm | Hm]; apply str_eqb_eq in Hm; congruence.
  - destruct (classify_and_check c) as [[risk ro] why].
    destruct (in_scope_command fs cfg c) as [[scope_ok scope_reason] | x] eqn:Hs;
      [| discriminate].
    destruct scope_ok; cbn [negb]; [| intros [= <-]; discriminate].
    rewrite (in_scope_true_reason fs cfg c scope_reason Hs).
    destruct (mem (mode cfg) [PLAN_ONLY; SIMULATE]) eqn:Hmode.
    { intros E. apply Returned_inj in E. subst d.
      unfold allow_execute, needs_approval, reason_of.
      cbn [negb fst snd andb ai_loop.blocked].
      change (L " forbids execution") with (L " " ++ L "forbids execution").
      rewrite !app_assoc, contains_suffix, !orb_true_r. discriminate. }
    intros _ _. now repeat split.
Qed.

Lemma ai_loop_run_all_in (h : Host) (fs : FileSystem) (cfg : SessionConfig)
    (bid : str) (cmds : list str) :
  forall idx e,
    In e (snd (ai_loop.run_all h fs cfg bid idx cmds)) ->
    exists c i d,
      In c cmds
      /\ enforce fs cfg c = Returned d
      /\ (negb (allow_execute d) && needs_approval d
          && ai_loop.blocked (reason_of d))%bool = false
      /\ In e (snd (run_command h cfg bid i c 30)).
Proof.
  induction cmds as [| c cmds IH]; intros idx e; simpl; [intros [] |].
  assert (Hrest : In e (snd (ai_loop.run_all h fs cfg bid (S idx) cmds)) ->
                  exists c' i d,
                    In c' (c :: cmds)
                    /\ enforce fs cfg c' = Returned d
                    /\ (negb (allow_execute d) && needs_approval d
                        && ai_loop.blocked (reason_of d))%bool = false
                    /\ In e (snd (run_command h cfg bid i c' 30))).
  { intros H. destruct (IH (S idx) e H) as (c' & i & d & Hc' & Hd & Hb & He).
    exists c', i, d. split; [now right | now repeat split]. }
  destruct (enforce fs cfg c) as [[[allow needs] reason] | x] eqn:E;
    [| intros []].
  destruct (negb allow && needs && ai_loop.blocked reason)%bool eqn:Hb;
    [exact Hrest |].
  assert (Hhere : In e (snd (run_command h cfg bid idx c 30)) ->
                  exists c' i d,
                    In c' (c :: cmds)
                    /\ enforce fs cfg c' = Returned d
                    /\ (negb (allow_execute d) && needs_approval d
                        && ai_loop.blocked (reason_of d))%bool = false
                    /\ In e (snd (run_command h cfg bid i c' 30))).
  { intros H. exists c, idx, (allow, needs, reason).
    split; [now left |]. split; [exact E |]. split; [exact Hb | exact H]. }
  destruct (run_command h cfg bid idx c 30) as [[r | x] effs] eqn:Hrc.
  - destruct (ai_loop.run_all h fs cfg bid (S idx) cmds) as [[rs | x] effs'];
      cbn [snd] in *; intros H; apply in_app_or in H;
      destruct H as [H | H]; auto.
  - cbn [snd] in *. exact Hhere.
Qed.

Lemma ai_loop_run_all_encodable (h : Host) (fs : FileSystem)
    (cfg : SessionConfig) (bid : str) (cmds : list str) :
  forall idx rs effs,
    ai_loop.run_all h fs cfg bid idx cmds = (Returned rs, effs) ->
    forall r, In r rs -> encodable (stdout_of r) = true.
Proof.
  induction cmds as [| c cmds IH]; intros idx rs effs; simpl.
  - intros [= <- _] r [].
  - destruct (enforce fs cfg c) as [[[allow needs] reason] | x];
      [| discriminate].
    destruct (negb allow && needs && ai_loop.blocked reason)%bool;
      [apply IH |].
    destruct (run_command h cfg bid idx c 30) as [[r0 | x] effs0] eqn:Hrc;
      [| discriminate].
    destruct (ai_loop.run_all h fs cfg bid (S idx) cmds)
      as [[rs' | x] effs'] eqn:Hra; [| discriminate].
    intros [= <- _] r [<- | Hr].
    + exact (run_command_encodable _ _ _ _ _ _ _ _ Hrc).
    + exact (IH _ _ _ Hra r Hr).
Qed.

(** X19: what the AI loop never runs.  A process is spawned for a block
    only after the answer [y] or [yes] (in any letter case, blanks
    around it), and only for a command of the block that is in scope;
    never in PLAN_ONLY or SIMULATE mode; and in AUTO_READONLY and
    EXECUTE_WITH_APPROVAL mode never for a command in whose lowered text
    the classifier finds a deny pattern. *)
Theorem ai_loop_never_runs_blocked_commands (h : Host) (fs : FileSystem)
    (root : str) (cfg : SessionConfig) (ans : str) (block : CommandBlock)
    (argv : list str) (cwd : str) :
  In (Ran (Spawned argv cwd))
     (snd (ai_loop.execute_block_with_approval h fs root cfg ans block)) ->
  mem (lower (strip ans)) [L "y"; L "yes"] = true
  /\ mem (mode cfg) [PLAN_ONLY; SIMULATE] = false
  /\ cwd = output_dir cfg
  /\ exists c,
       In c (commands block)
       /\ shlex_split c = Some argv
       /\ in_scope_command fs cfg c = Returned (true, InScope)
       /\ (mode cfg = AUTO_READONLY \/ mode cfg = EXECUTE_WITH_APPROVAL ->
           first_denied DENY_PATTERNS (lower (strip c)) = None).
Proof.
  unfold ai_loop.execute_block_with_approval, ai_loop.approves.
  destruct (mem (lower (strip ans)) [L "y"; L "yes"]); cbn [negb].
  2: { destruct (writable h (ai_loop.messages root)); cbn [snd];
       [intros [H | []]; discriminate H | intros []]. }
  destruct (writable h (ai_loop.messages root)); cbn [negb snd];
    [| intros []].
  intros Hin.
  assert (He : In (Spawned argv cwd)
                  (snd (ai_loop.run_all h fs cfg (id block) 0 (commands block)))).
  { destruct (ai_loop.run_all h fs cfg (id block) 0 (commands block))
      as [[rs | x] effs]; cbn [snd] in *.
    - destruct (make_observation (id block) rs) as [obs |]; cbn [snd] in Hin;
        destruct Hin as [Hin | Hin]; try discriminate Hin.
      + apply in_app_or in Hin. destruct Hin as [Hin | [Hin | []]];
          [now apply In_Ran_map | discriminate Hin].
      + now apply In_Ran_map.
    - destruct Hin as [Hin | Hin]; [discriminate Hin | now apply In_Ran_map]. }
  destruct (ai_loop_run_all_in h fs cfg (id block) (commands block) 0 _ He)
    as (c & i & d & Hc & Hret & Hb & Hrun).
  destruct (ai_loop_not_blocked fs cfg c d Hret Hb) as (Hs & Hm & Hd).
  destruct (run_command_spawned _ _ _ _ _ _ _ _ Hrun) as (Hsp & _ & Hcwd & _).
  split; [reflexivity |]. split; [exact Hm |]. split; [exact Hcwd |].
  exists c. now repeat split.
Qed.

Lemma ai_loop_never_runs_blocked_commands_witness :
  mem (lower (strip (L " Yes "))) [L "y"; L "yes"] = true
  /\ mem (mode (config example_scope EXECUTE_WITH_APPROVAL))
         [PLAN_ONLY; SIMULATE] = false.
Proof.
  destruct (ai_loop_never_runs_blocked_commands slow_host plain_fs (L "/s")
              (config example_scope EXECUTE_WITH_APPROVAL) (L " Yes ")
              example_block [L "dig"; L "example.com"] (L "out"))
    as (H1 & H2 & _).
  - right. left. vm_compute. reflexivity.
  - now split.
Defined.

(** X20: no caller fails on the byte count of its observation: whatever
    the host and the processes print, [_exec_single], [exec] and
    [execute_block_with_approval] do not end with the
    [UnicodeEncodeError] of [make_observation]. *)
Theorem callers_never_fail_on_byte_count (h : Host) (fs : FileSystem)
    (w : cli.Files) (root : str) (cfg : SessionConfig) (ts : str)
    (cmd bid ans : str) (block : CommandBlock) :
  fst (repl._exec_single h fs root cfg ts cmd bid) <> inl UnicodeEncodeError
  /\ fst (cli.exec h fs w root cfg ts bid) <> inl UnicodeEncodeError
  /\ fst (ai_loop.execute_block_with_approval h fs root cfg ans block)
     <> Some UnicodeEncodeError.
Proof.
  split; [| split].
  - unfold repl._exec_single.
    destruct (enforce fs cfg cmd) as [[[allow needs] reason] | x];
      [| discriminate].
    destruct (negb allow); [discriminate |].
    destruct (run_command h cfg bid 0 cmd 20) as [[r | x] effs] eqn:Hrc;
      [| discriminate].
    destruct (make_observation_total bid [r]) as [obs ->].
    { intros r' [<- | []].
      exact (run_command_encodable _ _ _ _ _ _ _ _ Hrc). }
    unfold log_observation.
    destruct (writable h (assessment_log root)); discriminate.
  - destruct (cli_exec_cases h fs w root cfg ts bid)
      as [Hnil | (blocks & block' & _ & _ & _ & _ & ->)].
    + unfold cli.exec, cli._load_blocks in *.
      destruct (negb (cli.exists_ w _)); [discriminate |].
      destruct (negb (cli.exists_ w _)); [discriminate |].
      destruct (cli.proposed w) as [blocks |]; [| discriminate].
      destruct (find _ blocks) as [block' |]; [| discriminate].
      destruct (cli.first_refused fs cfg (commands block'))
        as [[[c reason] |] | x]; [discriminate | | discriminate].
      destruct (cli.run_all h cfg (id block') 0 (commands block'))
        as [[rs | x] effs] eqn:Hra; [| discriminate].
      destruct (make_observation_total (id block') rs) as [obs ->].
      { exact (cli_run_all_encodable _ _ _ _ _ _ _ Hra). }
      unfold log_observation.
      destruct (writable h (assessment_log root)); discriminate.
    + destruct (cli.run_all h cfg (id block') 0 (commands block'))
        as [[rs | x] effs] eqn:Hra; [| discriminate].
      destruct (make_observation_total (id block') rs) as [obs ->].
      { exact (cli_run_all_encodable _ _ _ _ _ _ _ Hra). }
      unfold log_observation.
      destruct (writable h (assessment_log root)); discriminate.
  - unfold ai_loop.execute_block_with_approval.
    destruct (negb (ai_loop.approves ans)).
    { destruct (writable h (ai_loop.messages root)); discriminate. }
    destruct (negb (writable h (ai_loop.messages root))); [discriminate |].
    destruct (ai_loop.run_all h fs cfg (id block) 0 (commands block))
      as [[rs | x] effs] eqn:Hra; [| discriminate].
    destruct (make_observation_total (id block) rs) as [obs ->].
    { exact (ai_loop_run_all_encodable _ _ _ _ _ _ _ _ Hra). }
    discriminate.
Qed.

(** * Further properties of the tokens *)






(** * Further properties of the scope resolver *)

Lemma first_some_some {A B : Type} (f : A -> option B) (l : list A) (y : B) :
  Re.first_some f l = Some y -> exists x, In x l /\ f x = Some y.
Proof.
  induction l as [| x l IH]; simpl; [discriminate |].
  destruct (f x) as [y' |] eqn:E.
  - intros [= <-]. exists x. split; [now left | exact E].
  - intros H. destruct (IH H) as (x' & Hx' & Hf). exists x'.
    split; [now right | exact Hf].
Qed.

Lemma In_skipn_In {A : Type} (x : A) (j : nat) (l : list A) :
  In x (skipn j l) -> In x l.
Proof.
  intros H. rewrite <- (firstn_skipn j l). apply in_or_app. now right.
Qed.

(** A match of a pattern with a single character of the class [p] in it
    holds such a character. *)
Lemma rmatch_needs (p : ascii -> bool) (pat : Re.pattern ascii) :
  In (Re.One p) pat ->
  forall prev s n marks x,
    Re.rmatch pat prev s n marks = Some x ->
    exists c, In c s /\ p c = true.
Proof.
  induction pat as [| i pat IH]; intros Hin prev s n marks x; [contradiction |].
  destruct i as [q | q lo hi | w | |]; cbn [Re.rmatch].
  - destruct s as [| c s]; [discriminate |].
    destruct (q c) eqn:Hq; [| discriminate].
    destruct Hin as [[= ->] | Hin].
    + intros _. exists c. split; [now left | exact Hq].
    + intros H. destruct (IH Hin _ _ _ _ _ H) as (c' & Hc' & Hp).
      exists c'. split; [now right | exact Hp].
  - destruct Hin as [Hin | Hin]; [discriminate Hin |].
    intros H. apply first_some_some in H. destruct H as (j & _ & H).
    destruct (IH Hin _ _ _ _ _ H) as (c' & Hc' & Hp).
    exists c'. split; [now apply In_skipn_In in Hc' | exact Hp].
  - destruct Hin as [Hin | Hin]; [discriminate Hin |].
    destruct (xorb _ _); [| discriminate]. now apply IH.
  - destruct Hin as [Hin | Hin]; [discriminate Hin |]. now apply IH.
  - destruct Hin as [Hin | Hin]; [discriminate Hin |]. now apply IH.
Qed.

Lemma scan_without (p : ascii -> bool) (pat : Re.pattern ascii) (A : Type)
    (f : nat -> list nat -> str -> A) :
  In (Re.One p) pat ->
  forall s prev,
    forallb (fun c => negb (p c)) s = true ->
    flat_map (fun x => match x with inl m => [m] | inr _ => [] end)
             (Re.scan pat A f 0 prev s) = [].
Proof.
  intros Hin.
  assert (Hnone : forall s prev,
             forallb (fun c => negb (p c)) s = true ->
             Re.rmatch pat prev s 0 [] = None).
  { intros s prev Hs.
    destruct (Re.rmatch pat prev s 0 []) as [x |] eqn:E; [| reflexivity].
    destruct (rmatch_needs p pat Hin _ _ _ _ _ E) as (c & Hc & Hp).
    rewrite forallb_forall in Hs. specialize (Hs c Hc).
    rewrite Hp in Hs. discriminate Hs. }
  induction s as [| c s IH]; intros prev Hs.
  - simpl. now rewrite (Hnone [] prev Hs).
  - simpl. rewrite (Hnone (c :: s) prev Hs). simpl. apply IH.
    simpl in Hs. now apply andb_true_iff in Hs.
Qed.

Lemma findall_without (p : ascii -> bool) (pat : Re.pattern ascii) (s : str) :
  In (Re.One p) pat ->
  forallb (fun c => negb (p c)) s = true ->
  Re.findall pat s = [].
Proof. intros Hin Hs. unfold Re.findall. now apply scan_without with (p := p). Qed.

Lemma extract_targets_needs_dot (cmd : str) :
  forallb (fun c => negb (eqc "." c)) cmd = true ->
  _extract_targets cmd = [].
Proof.
  intros H. unfold _extract_targets. cbn [flat_map].
  rewrite (findall_without (eqc ".") URL_RE cmd), (findall_without (eqc ".") HOST_RE cmd),
    (findall_without (eqc ".") IP_RE cmd); trivial.
  - unfold IP_RE, dot. simpl. tauto.
  - unfold HOST_RE, dot. simpl. tauto.
  - unfold URL_RE, dot, lit. simpl. tauto.
Qed.

(** The characters of the tokens are characters of the text. *)
Lemma shlex_run_chars (bad : ascii -> bool) :
  bad "\"%char = false ->
  forall s st tok q acc r,
    forallb (fun c => negb (bad c)) s = true ->
    forallb (fun c => negb (bad c)) tok = true ->
    Forall (fun t => forallb (fun c => negb (bad c)) t = true) acc ->
    shlex_run st tok q acc s = Some r ->
    Forall (fun t => forallb (fun c => negb (bad c)) t = true) r.
Proof.
  intros Hbs.
  assert (Hsnoc : forall tok c,
             forallb (fun c => negb (bad c)) tok = true ->
             negb (bad c) = true ->
             forallb (fun c => negb (bad c)) (tok ++ [c]) = true).
  { intros tok c Ht Hc. rewrite forallb_app, Ht. simpl. now rewrite Hc. }
  induction s as [| c s IH]; intros st tok q acc r Hs Htok Hacc.
  - destruct st; cbn [shlex_run]; try discriminate.
    + intros [= <-]. now apply Forall_rev.
    + intros [= <-]. apply Forall_rev.
      destruct (nonempty tok || q)%bool; [now constructor | exact Hacc].
  - cbn [forallb] in Hs. apply andb_true_iff in Hs. destruct Hs as [Hc Hs].
    destruct st as [| | qc | back]; cbn [shlex_run].
    + destruct (shlex_whitespace c); [now apply IH |].
      destruct (is_backslash c); [now apply IH |].
      destruct (is_quote c); [now apply IH |].
      apply IH; trivial. simpl. now rewrite Hc.
    + destruct (shlex_whitespace c).
      { destruct (nonempty tok || q)%bool; apply IH; trivial.
        now constructor. }
      destruct (is_quote c); [now apply IH |].
      destruct (is_backslash c); [now apply IH |].
      apply IH; trivial. now apply Hsnoc.
    + destruct (ascii_dec c qc); [now apply IH |].
      destruct (is_backslash c && is_dquote qc)%bool; [now apply IH |].
      apply IH; trivial. now apply Hsnoc.
    + destruct back as [| qc].
      * apply IH; trivial. now apply Hsnoc.
      * destruct (negb (is_backslash c)
                  && negb (if ascii_dec c qc then true else false))%bool.
        -- apply IH; trivial. rewrite forallb_app, Htok. simpl.
           now rewrite Hbs, Hc.
        -- apply IH; trivial. now apply Hsnoc.
Qed.

Lemma split_ws_aux_chars (bad : ascii -> bool) (s : str) :
  forall cur,
    forallb (fun c => negb (bad c)) s = true ->
    forallb (fun c => negb (bad c)) cur = true ->
    Forall (fun t => forallb (fun c => negb (bad c)) t = true)
           (split_ws_aux cur s).
Proof.
  induction s as [| c s IH]; intros cur Hs Hcur; cbn [split_ws_aux].
  - destruct (nonempty cur); [now repeat constructor | constructor].
  - cbn [forallb] in Hs. apply andb_true_iff in Hs. destruct Hs as [Hc Hs].
    destruct (py_isspace c).
    + destruct (nonempty cur); [constructor; [exact Hcur |] |]; now apply IH.
    + apply IH; [exact Hs |]. rewrite forallb_app, Hcur. simpl. now rewrite Hc.
Qed.

Lemma extract_paths_needs_slash (cmd : str) :
  forallb (fun c => negb (eqc "/" c)) cmd = true ->
  _extract_paths cmd = [].
Proof.
  intros H.
  assert (Hnone : forall l,
             Forall (fun t => forallb (fun c => negb (eqc "/" c)) t = true) l ->
             filter (startswith (L "/")) l = []).
  { intros l Hl. induction Hl as [| t ts Ht _ IH]; [reflexivity |].
    cbn [filter]. rewrite IH.
    destruct t as [| a t]; [reflexivity |].
    cbn [forallb] in Ht. apply andb_true_iff in Ht. destruct Ht as [Ha _].
    cbn [startswith L list_ascii_of_string].
    destruct (ascii_dec "/" a) as [<- | _]; [discriminate Ha | reflexivity]. }
  unfold _extract_paths. cbv zeta.
  destruct (shlex_split cmd) as [ts |] eqn:E.
  - rewrite Hnone; [reflexivity |]. unfold shlex_split in E.
    apply (shlex_run_chars (eqc "/") eq_refl cmd LWs [] false [] ts); trivial.
  - rewrite Hnone; [reflexivity |]. now apply split_ws_aux_chars.
Qed.

(** X22: the scope resolver only looks at dotted names and at absolute
    paths: a command with no dot has no target, a command with no slash
    names no path, and a command with neither is in scope whatever the
    scope of the session allows or forbids. *)
Theorem undotted_command_is_always_in_scope (fs : FileSystem)
    (cfg : SessionConfig) (cmd : str) :
  (forallb (fun c => negb (eqc "." c)) cmd = true ->
   _extract_targets cmd = [])
  /\ (forallb (fun c => negb (eqc "/" c)) cmd = true ->
      _extract_paths cmd = [])
  /\ (forallb (fun c => negb (eqc "." c || eqc "/" c)) cmd = true ->
      in_scope_command fs cfg cmd = Returned (true, InScope)).
Proof.
  split; [apply extract_targets_needs_dot |].
  split; [apply extract_paths_needs_slash |].
  intros H.
  assert (H1 : forallb (fun c => negb (eqc "." c)) cmd = true).
  { rewrite forallb_forall in *. intros c Hc. specialize (H c Hc).
    now destruct (eqc "." c). }
  assert (H2 : forallb (fun c => negb (eqc "/" c)) cmd = true).
  { rewrite forallb_forall in *. intros c Hc. specialize (H c Hc).
    destruct (eqc "/" c); [| reflexivity]. now rewrite orb_true_r in H. }
  unfold in_scope_command.
  rewrite (extract_targets_needs_dot cmd H1), (extract_paths_needs_slash cmd H2).
  reflexivity.
Qed.

Lemma undotted_command_is_always_in_scope_witness :
  in_scope_command plain_fs (config example_scope AUTO_READONLY)
                   (L "ping -c 1 localhost") = Returned (true, InScope).
Proof.
  apply (proj2 (proj2 (undotted_command_is_always_in_scope plain_fs
                         (config example_scope AUTO_READONLY)
                         (L "ping -c 1 localhost")))).
  reflexivity.
Defined.

(** * The logs of a block *)

Lemma decimal_inj (i j : nat) : decimal i = decimal j -> i = j.
Proof.
  unfold decimal, L. intros H.
  apply (f_equal string_of_list_ascii) in H.
  rewrite !string_of_list_ascii_of_string in H.
  apply (f_equal NilEmpty.uint_of_string) in H.
  rewrite !NilEmpty.usu in H. injection H as H.
  apply (f_equal Nat.of_uint) in H.
  now rewrite !DecimalNat.Unsigned.of_to in H.
Qed.

Lemma ext_inj (a b : str) (x1 x2 x3 x4 y1 y2 y3 y4 : ascii) :
  a ++ [x1; x2; x3; x4] = b ++ [y1; y2; y3; y4] ->
  a = b /\ [x1; x2; x3; x4] = [y1; y2; y3; y4].
Proof.
  intros H.
  change (a ++ [x1; x2; x3; x4]) with (a ++ [x1] ++ [x2] ++ [x3] ++ [x4]) in H.
  change (b ++ [y1; y2; y3; y4]) with (b ++ [y1] ++ [y2] ++ [y3] ++ [y4]) in H.
  rewrite !app_assoc in H.
  apply app_inj_tail in H. destruct H as [H <-].
  apply app_inj_tail in H. destruct H as [H <-].
  apply app_inj_tail in H. destruct H as [H <-].
  apply app_inj_tail in H. destruct H as [H <-].
  now split.
Qed.

(** The digits of a number hold no slash. *)
Lemma decimal_no_slash (n : nat) :
  forallb (fun c => negb (is_slash c)) (decimal n) = true.
Proof.
  unfold decimal. induction (Nat.to_uint n) as [| u IH | u IH | u IH | u IH
    | u IH | u IH | u IH | u IH | u IH | u IH]; simpl; auto.
Qed.

Lemma split_slash_no_slash (t cur : str) :
  forallb (fun c => negb (is_slash c)) t = true ->
  split_slash cur t = [cur ++ t].
Proof.
  revert cur. induction t as [| c t IH]; intros cur H; simpl.
  - now rewrite app_nil_r.
  - simpl in H. apply andb_true_iff in H. destruct H as [Hc Ht].
    apply negb_true_iff in Hc. rewrite Hc, IH by exact Ht.
    now rewrite <- app_assoc.
Qed.

(** A text without a slash put after [s] only makes the last piece of
    [s] longer. *)
Lemma split_slash_snoc (s cur : str) :
  exists init lst,
    forall t, forallb (fun c => negb (is_slash c)) t = true ->
              split_slash cur (s ++ t) = init ++ [lst ++ t].
Proof.
  revert cur. induction s as [| c s IH]; intros cur.
  - exists [], cur. intros t Ht. now apply split_slash_no_slash.
  - destruct (is_slash c) eqn:Hc.
    + destruct (IH []) as (init & lst & H). exists (cur :: init), lst.
      intros t Ht. simpl. rewrite Hc, H by exact Ht. reflexivity.
    + destruct (IH (cur ++ [c])) as (init & lst & H). exists init, lst.
      intros t Ht. simpl. now rewrite Hc, H.
Qed.

Lemma leading_slashes_app (s t : str) :
  forallb (fun c => negb (is_slash c)) t = true ->
  leading_slashes (s ++ t) = leading_slashes s.
Proof.
  intros Ht. induction s as [| c s IH]; simpl.
  - destruct t as [| c t]; [reflexivity |]. simpl in *.
    apply andb_true_iff in Ht. destruct Ht as [Hc _].
    apply negb_true_iff in Hc. now rewrite Hc.
  - now rewrite IH.
Qed.

Lemma join_slash_snoc (A : list str) :
  exists J, forall x, join_slash (A ++ [x]) = J ++ x.
Proof.
  induction A as [| a A [J IH]].
  - now exists [].
  - exists (a ++ L "/" ++ J). intros x. cbn [app join_slash].
    destruct (A ++ [x]) eqn:E; [now destruct A |].
    rewrite <- E, IH. now rewrite <- !app_assoc.
Qed.

(** The path of a name that ends with an underscore and a text without
    a slash: the root and the parts of the name before, and a last part
    that ends with the text. *)
Lemma PurePosixPath_snoc (bid : str) :
  exists B lst,
    forall t, forallb (fun c => negb (is_slash c)) t = true ->
      PurePosixPath (bid ++ L "_" ++ t)
      = mkPurePath (root_of bid) (B ++ [lst ++ L "_" ++ t]).
Proof.
  destruct (split_slash_snoc bid []) as (init & lst & H).
  exists (filter (fun x => (nonempty x && negb (str_eqb x (L ".")))%bool) init),
         lst.
  intros t Ht.
  assert (Ht' : forallb (fun c => negb (is_slash c)) (L "_" ++ t) = true)
    by (simpl; exact Ht).
  unfold PurePosixPath, root_of.
  rewrite (leading_slashes_app bid _ Ht'), (H _ Ht'), filter_app.
  cbn [filter].
  assert (Hlast : (nonempty (lst ++ L "_" ++ t)
                   && negb (str_eqb (lst ++ L "_" ++ t) (L ".")))%bool = true).
  { apply andb_true_iff. split; [now destruct lst |].
    destruct (str_eqb (lst ++ L "_" ++ t) (L ".")) eqn:E; [| reflexivity].
    apply str_eqb_eq in E. destruct lst as [| c [| c' l]]; discriminate E. }
  now rewrite Hlast.
Qed.

(** The log of a command is a text fixed by the session and the block,
    then the index of the command and the extension. *)
Lemma log_path_shape (cfg : SessionConfig) (bid : str) :
  exists C, forall i x, In x [L ".out"; L ".err"] ->
                        log_path cfg bid i x = C ++ decimal i ++ x.
Proof.
  destruct (PurePosixPath_snoc bid) as (B & lst & HP).
  set (p := truediv (PurePosixPath (output_dir cfg)) (L "logs")).
  destruct (join_slash_snoc B) as [J1 HJ1].
  destruct (join_slash_snoc (path_parts p ++ B)) as [J2 HJ2].
  exists (if nonempty (root_of bid) then root_of bid ++ J1 ++ lst ++ L "_"
          else path_root p ++ J2 ++ lst ++ L "_").
  intros i x Hx. unfold log_path. fold p. unfold truediv at 1.
  assert (Ht : forallb (fun c => negb (is_slash c)) (decimal i ++ x) = true).
  { rewrite forallb_app, decimal_no_slash.
    destruct Hx as [<- | [<- | []]]; reflexivity. }
  rewrite (HP _ Ht). cbn [path_root path_parts].
  destruct (nonempty (root_of bid)); unfold path_str; cbn [path_root path_parts].
  - rewrite HJ1.
    destruct (root_of bid ++ J1 ++ lst ++ L "_" ++ decimal i ++ x) eqn:E.
    + apply (f_equal (@List.length ascii)) in E.
      rewrite !length_app in E. simpl in E. lia.
    + rewrite <- E. now rewrite <- !app_assoc.
  - rewrite app_assoc, HJ2.
    destruct (path_root p ++ J2 ++ lst ++ L "_" ++ decimal i ++ x) eqn:E.
    + apply (f_equal (@List.length ascii)) in E.
      rewrite !length_app in E. simpl in E. lia.
    + rewrite <- E. now rewrite <- !app_assoc.
Qed.

Lemma log_path_inj (cfg : SessionConfig) (bid : str) (i j : nat)
    (x y : str) :
  In x [L ".out"; L ".err"] -> In y [L ".out"; L ".err"] ->
  log_path cfg bid i x = log_path cfg bid j y -> i = j /\ x = y.
Proof.
  intros Hx Hy H. destruct (log_path_shape cfg bid) as [C HC].
  rewrite (HC i x Hx), (HC j y Hy) in H.
  apply app_inv_head in H.
  destruct Hx as [<- | [<- | []]]; destruct Hy as [<- | [<- | []]];
    apply ext_inj in H; destruct H as [H1 H2];
    try discriminate H2; (split; [now apply decimal_inj | reflexivity]).
Qed.

(** The files [run_command] writes for command [i] are its two logs. *)
Lemma run_command_writes (h : Host) (cfg : SessionConfig) (bid : str)
    (i : nat) (cmd : str) (timeout : nat) :
  writes (snd (run_command h cfg bid i cmd timeout)) = []
  \/ writes (snd (run_command h cfg bid i cmd timeout))
     = [log_path cfg bid i (L ".out")]
  \/ writes (snd (run_command h cfg bid i cmd timeout))
     = [log_path cfg bid i (L ".out"); log_path cfg bid i (L ".err")].
Proof.
  unfold run_command.
  destruct (shlex_split cmd) as [[| a parts] |]; [now left | | now left].
  cbv zeta.
  destruct (existsb has_nul (output_dir cfg :: a :: parts)); [now left |].
  destruct (spawn h (a :: parts) (output_dir cfg) timeout)
    as [[rc out err | gone] |]; [| destruct gone; now left | now left].
  unfold write_text.
  destruct (negb (writable h _)); [now left |].
  destruct (negb (encodes h _)); [right; now left |].
  destruct (negb (writable h _)); [right; now left |].
  destruct (negb (encodes h _)); right; now right.
Qed.

Lemma logs_from_nil (cfg : SessionConfig) (bid : str) (idx : nat) :
  logs_from cfg bid idx [].
Proof. split; [constructor | intros p []]. Qed.

Lemma logs_from_step (cfg : SessionConfig) (bid : str) (idx : nat)
    (w rest : list str) :
  w = [] \/ w = [log_path cfg bid idx (L ".out")]
  \/ w = [log_path cfg bid idx (L ".out"); log_path cfg bid idx (L ".err")] ->
  logs_from cfg bid (S idx) rest ->
  logs_from cfg bid idx (w ++ rest).
Proof.
  intros Hw [Hnd Hin].
  assert (Hfresh : forall x, In x [L ".out"; L ".err"] ->
                             ~ In (log_path cfg bid idx x) rest).
  { intros x Hx Hp. destruct (Hin _ Hp) as (k & y & Hk & Hy & Heq).
    apply log_path_inj in Heq; trivial. lia. }
  assert (Hlater : forall p, In p rest ->
             exists k x, idx <= k /\ In x [L ".out"; L ".err"]
                         /\ p = log_path cfg bid k x).
  { intros p Hp. destruct (Hin p Hp) as (k & x & Hk & Hx & Heq).
    exists k, x. split; [lia | now split]. }
  destruct Hw as [-> | [-> | ->]]; cbn [app].
  - split; assumption.
  - split.
    + constructor; [apply Hfresh; now left | exact Hnd].
    + intros p [<- | Hp]; [| now apply Hlater].
      exists idx, (L ".out"). split; [lia |]. split; [now left | reflexivity].
  - split.
    + constructor.
      * intros [H | H].
        -- apply log_path_inj in H; [| right; now left | now left].
           destruct H as [_ H]. discriminate H.
        -- revert H. apply Hfresh. now left.
      * constructor; [apply Hfresh; right; now left | exact Hnd].
    + intros p [<- | [<- | Hp]]; [| | now apply Hlater].
      * exists idx, (L ".out"). split; [lia |]. split; [now left | reflexivity].
      * exists idx, (L ".err"). split; [lia |].
        split; [right; now left | reflexivity].
Qed.

Lemma writes_app (a b : list Effect) : writes (a ++ b) = writes a ++ writes b.
Proof. unfold writes. apply flat_map_app. Qed.

Lemma cli_run_all_logs (h : Host) (cfg : SessionConfig) (bid : str)
    (cmds : list str) :
  forall idx, logs_from cfg bid idx (writes (snd (cli.run_all h cfg bid idx cmds))).
Proof.
  induction cmds as [| c cmds IH]; intros idx; simpl; [apply logs_from_nil |].
  pose proof (run_command_writes h cfg bid idx c 20) as Hw.
  destruct (run_command h cfg bid idx c 20) as [[r | x] effs]; cbn [snd] in *.
  - specialize (IH (S idx)).
    destruct (cli.run_all h cfg bid (S idx) cmds) as [[rs | x] effs'];
      cbn [snd] in *; rewrite writes_app; now apply logs_from_step.
  - rewrite <- (app_nil_r (writes effs)).
    apply logs_from_step; [exact Hw | apply logs_from_nil].
Qed.

Lemma logs_from_later (cfg : SessionConfig) (bid : str) (idx : nat)
    (l : list str) :
  logs_from cfg bid (S idx) l -> logs_from cfg bid idx l.
Proof.
  intros H. apply (logs_from_step cfg bid idx [] l); [now left | exact H].
Qed.

Lemma ai_loop_run_all_logs (h : Host) (fs : FileSystem) (cfg : SessionConfig)
    (bid : str) (cmds : list str) :
  forall idx,
    logs_from cfg bid idx (writes (snd (ai_loop.run_all h fs cfg bid idx cmds))).
Proof.
  induction cmds as [| c cmds IH]; intros idx; simpl; [apply logs_from_nil |].
  destruct (enforce fs cfg c) as [[[allow needs] reason] | x];
    [| apply logs_from_nil].
  destruct (negb allow && needs && ai_loop.blocked reason)%bool;
    [apply logs_from_later, IH |].
  pose proof (run_command_writes h cfg bid idx c 30) as Hw.
  destruct (run_command h cfg bid idx c 30) as [[r | x] effs]; cbn [snd] in *.
  - specialize (IH (S idx)).
    destruct (ai_loop.run_all h fs cfg bid (S idx) cmds) as [[rs | x] effs'];
      cbn [snd] in *; rewrite writes_app; now apply logs_from_step.
  - rewrite <- (app_nil_r (writes effs)).
    apply logs_from_step; [exact Hw | apply logs_from_nil].
Qed.

Lemma written_map_Ran (effs : list Effect) :
  written (map Ran effs) = writes effs.
Proof.
  unfold written, writes. induction effs as [| e effs IH]; [reflexivity |].
  simpl. rewrite IH. now destruct e.
Qed.

Lemma written_app (a b : list SessionEffect) :
  written (a ++ b) = written a ++ written b.
Proof. unfold written. apply flat_map_app. Qed.

(** X23: the commands of a block do not write over each other's logs:
    the files written while [exec] or the AI loop runs a block are
    pairwise distinct, each the [.out] or [.err] log of the block and of
    the index of a command.  The path of a log is the path [pathlib]
    makes of the output directory, [logs] and the name: a block id that
    is an absolute path leaves the output directory. *)
Theorem block_logs_do_not_collide (h : Host) (fs : FileSystem)
    (w : cli.Files) (root : str) (cfg : SessionConfig) (ts : str)
    (bid ans : str) (block : CommandBlock) :
  (NoDup (written (snd (cli.exec h fs w root cfg ts bid)))
   /\ forall p, In p (written (snd (cli.exec h fs w root cfg ts bid))) ->
        exists k x, In x [L ".out"; L ".err"] /\ p = log_path cfg bid k x)
  /\ (NoDup (written
               (snd (ai_loop.execute_block_with_approval h fs root cfg ans
                       block)))
      /\ forall p,
           In p (written
                   (snd (ai_loop.execute_block_with_approval h fs root cfg ans
                           block))) ->
           exists k x, In x [L ".out"; L ".err"]
                       /\ p = log_path cfg (id block) k x)
  /\ log_path (config example_scope AUTO_READONLY) (L "CB-1") 0 (L ".out")
     = L "out/logs/CB-1_0.out"
  /\ log_path cfg (L "/tmp/x") 0 (L ".out") = L "/tmp/x_0.out".
Proof.
  assert (Hweak : forall b l,
             logs_from cfg b 0 l ->
             NoDup l
             /\ forall p, In p l ->
                  exists k x, In x [L ".out"; L ".err"]
                              /\ p = log_path cfg b k x).
  { intros b l [Hnd Hin]. split; [exact Hnd |].
    intros p Hp. destruct (Hin p Hp) as (k & x & _ & Hx & Heq).
    now exists k, x. }
  split; [| split; [| split; reflexivity]].
  - destruct (cli_exec_cases h fs w root cfg ts bid)
      as [-> | (blocks & block' & _ & _ & Hfind & _ & ->)].
    { split; [constructor | intros p []]. }
    assert (Hid : id block' = bid).
    { apply find_some in Hfind. now apply str_eqb_eq. }
    pose proof (cli_run_all_logs h cfg (id block') (commands block') 0) as Hl.
    rewrite Hid in *.
    destruct (cli.run_all h cfg bid 0 (commands block')) as [[rs | x] effs];
      cbn [snd] in *.
    + destruct (make_observation bid rs) as [obs |]; cbn [snd].
      * destruct (log_observation_effects h root ts obs (map Ran effs))
          as [-> | ->].
        -- rewrite written_map_Ran. now apply Hweak.
        -- rewrite written_app, written_map_Ran. cbn. rewrite app_nil_r.
           now apply Hweak.
      * rewrite written_map_Ran. now apply Hweak.
    + rewrite written_map_Ran. now apply Hweak.
  - unfold ai_loop.execute_block_with_approval.
    destruct (negb (ai_loop.approves ans)).
    { destruct (writable h (ai_loop.messages root)); cbn;
        (split; [constructor | intros p []]). }
    destruct (negb (writable h (ai_loop.messages root)));
      [cbn; split; [constructor | intros p []] |].
    pose proof (ai_loop_run_all_logs h fs cfg (id block) (commands block) 0)
      as Hl.
    destruct (ai_loop.run_all h fs cfg (id block) 0 (commands block))
      as [[rs | x] effs]; cbn [snd] in *.
    + destruct (make_observation (id block) rs) as [obs |]; cbn [snd].
      * change (written (ai_loop.approval_message root block "yes"
                           :: map Ran effs
                           ++ [ai_loop.executed_message root block obs]))
          with (written (map Ran effs
                           ++ [ai_loop.executed_message root block obs])).
        rewrite written_app, written_map_Ran. cbn. rewrite app_nil_r.
        now apply Hweak.
      * change (written (ai_loop.approval_message root block "yes"
                           :: map Ran effs))
          with (written (map Ran effs)).
        rewrite written_map_Ran. now apply Hweak.
    + change (written (ai_loop.approval_message root block "yes"
                         :: map Ran effs))
        with (written (map Ran effs)).
      rewrite written_map_Ran. now apply Hweak.
Qed.

(** * The proposed blocks *)

Lemma value_decimal (n : nat) :
  option_map Nat.of_uint
    (NilEmpty.uint_of_string (string_of_list_ascii (decimal n))) = Some n.
Proof.
  unfold decimal, L. rewrite string_of_list_ascii_of_string, NilEmpty.usu.
  simpl. now rewrite DecimalNat.Unsigned.of_to.
Qed.

Lemma value_zeros (k : nat) (s : str) (n : nat) :
  option_map Nat.of_uint (NilEmpty.uint_of_string (string_of_list_ascii s))
  = Some n ->
  option_map Nat.of_uint
    (NilEmpty.uint_of_string
       (string_of_list_ascii (repeat "0"%char k ++ s))) = Some n.
Proof.
  intros H. induction k as [| k IH]; [exact H |].
  cbn [repeat app string_of_list_ascii NilEmpty.uint_of_string].
  destruct (NilEmpty.uint_of_string (string_of_list_ascii (repeat "0"%char k ++ s)))
    as [d |]; [| discriminate IH].
  simpl in *. exact IH.
Qed.

Lemma pad3_inj (i j : nat) : cli.pad3 i = cli.pad3 j -> i = j.
Proof.
  intros H.
  pose proof (value_zeros (3 - List.length (decimal i)) _ _ (value_decimal i))
    as Hi.
  pose proof (value_zeros (3 - List.length (decimal j)) _ _ (value_decimal j))
    as Hj.
  fold (cli.pad3 i) in Hi. fold (cli.pad3 j) in Hj.
  rewrite H in Hi. rewrite Hi in Hj. now injection Hj.
Qed.

Lemma block_name_inj (ts : str) (i j : nat) :
  cli.block_name ts i = cli.block_name ts j -> i = j.
Proof.
  unfold cli.block_name. intros H.
  repeat apply app_inv_head in H. now apply pad3_inj.
Qed.

Lemma number_ids (ts : str) (mk : nat -> str -> CommandBlock) (l : list str) :
  (forall i x, id (mk i x) = cli.block_name ts i) ->
  forall i,
    map id (cli.number mk i l) = map (cli.block_name ts) (seq i (List.length l)).
Proof.
  intros Hmk. induction l as [| x l IH]; intros i; [reflexivity |].
  simpl. now rewrite Hmk, IH.
Qed.

Lemma propose_ids (ts : str) (cfg : SessionConfig) :
  map id (cli.propose ts cfg)
  = map (cli.block_name ts)
        (seq 1 (List.length (domains (scope cfg))
                + List.length (hosts (scope cfg)))).
Proof.
  unfold cli.propose.
  rewrite map_app, (number_ids ts), (number_ids ts) by reflexivity.
  now rewrite seq_app, map_app.
Qed.

Lemma NoDup_map_inj {A B : Type} (f : A -> B) (l : list A) :
  (forall x y, f x = f y -> x = y) -> NoDup l -> NoDup (map f l).
Proof.
  intros Hf Hl. induction Hl as [| x l Hx Hl IH]; simpl; constructor.
  - intros H. apply in_map_iff in H. destruct H as (y & Hy & Hin).
    apply Hf in Hy. now subst.
  - exact IH.
Qed.

Lemma propose_ids_NoDup (ts : str) (cfg : SessionConfig) :
  NoDup (map id (cli.propose ts cfg)).
Proof.
  rewrite propose_ids. apply NoDup_map_inj; [| apply seq_NoDup].
  intros i j. apply block_name_inj.
Qed.

Lemma find_by_id (bid : str) (l : list CommandBlock) (b : CommandBlock) :
  NoDup (map id l) -> In b l ->
  find (fun x => str_eqb (id x) (id b)) l = Some b.
Proof.
  induction l as [| x l IH]; intros Hnd Hin; [contradiction |].
  simpl in Hnd. inversion Hnd as [| ? ? Hx Hl]; subst. simpl.
  destruct Hin as [-> | Hin].
  - now rewrite str_eqb_refl.
  - destruct (str_eqb (id x) (id b)) eqn:E; [| now apply IH].
    apply str_eqb_eq in E. exfalso. apply Hx. rewrite E. now apply in_map.
Qed.

(** X24: [propose] gives one block per domain and one per host of the
    scope, named [CB-<day>-001], [CB-<day>-002] and so on in that order;
    the names are pairwise distinct, so the look-up of [exec] by the name
    of a proposed block finds that block. *)
Theorem proposed_blocks_are_found_by_id (ts : str) (cfg : SessionConfig) :
  map id (cli.propose ts cfg)
  = map (cli.block_name ts)
        (seq 1 (List.length (domains (scope cfg))
                + List.length (hosts (scope cfg))))
  /\ NoDup (map id (cli.propose ts cfg))
  /\ forall b, In b (cli.propose ts cfg) ->
       find (fun x => str_eqb (id x) (id b)) (cli.propose ts cfg) = Some b.
Proof.
  split; [apply propose_ids |]. split; [apply propose_ids_NoDup |].
  intros b Hb. apply (find_by_id (id b)); [apply propose_ids_NoDup | exact Hb].
Qed.

(** The tokens read so far stay the first tokens. *)
Lemma shlex_run_acc (s : str) :
  forall st tok q acc r,
    shlex_run st tok q acc s = Some r -> exists r', r = rev acc ++ r'.
Proof.
  induction s as [| c s IH]; intros st tok q acc r.
  - destruct st; cbn [shlex_run]; try discriminate.
    + intros [= <-]. exists []. now rewrite app_nil_r.
    + intros [= <-]. destruct (nonempty tok || q)%bool.
      * exists [tok]. reflexivity.
      * exists []. now rewrite app_nil_r.
  - assert (Hpush : forall st' tok' q' r0,
               shlex_run st' tok' q' (tok :: acc) s = Some r0 ->
               exists r', r0 = rev acc ++ r').
    { intros st' tok' q' r0 H. destruct (IH _ _ _ _ _ H) as [r' ->].
      exists (tok :: r'). cbn [rev]. now rewrite <- app_assoc. }
    destruct st as [| | qc | back]; cbn [shlex_run].
    + destruct (shlex_whitespace c); [apply IH |].
      destruct (is_backslash c); [apply IH |].
      destruct (is_quote c); apply IH.
    + destruct (shlex_whitespace c).
      { destruct (nonempty tok || q)%bool; [apply Hpush | apply IH]. }
      destruct (is_quote c); [apply IH |].
      destruct (is_backslash c); apply IH.
    + destruct (ascii_dec c qc); [apply IH |].
      destruct (is_backslash c && is_dquote qc)%bool; apply IH.
    + destruct back as [| qc]; [apply IH |].
      destruct (negb (is_backslash c)
                && negb (if ascii_dec c qc then true else false))%bool;
        apply IH.
Qed.

Lemma In_number (mk : nat -> str -> CommandBlock) (l : list str) :
  forall i b, In b (cli.number mk i l) -> exists k x, In x l /\ b = mk k x.
Proof.
  induction l as [| x l IH]; intros i b; simpl; [intros [] |].
  intros [<- | H].
  - exists i, x. split; [now left | reflexivity].
  - destruct (IH _ _ H) as (k & y & Hy & ->). exists k, y.
    split; [now right | reflexivity].
Qed.

(** The head token of a text that starts with this word and a space. *)
Lemma head_token_dig (d : str) : head_token (L "dig +short " ++ d) = L "dig".
Proof.
  unfold head_token, shlex_split.
  change (shlex_run LWs [] false [] (L "dig +short " ++ d))
    with (shlex_run LWs [] false [L "+short"; L "dig"] d).
  destruct (shlex_run LWs [] false [L "+short"; L "dig"] d) as [r |] eqn:E.
  - destruct (shlex_run_acc _ _ _ _ _ _ E) as [r' ->]. reflexivity.
  - reflexivity.
Qed.

Lemma head_token_whois (d rest : str) :
  head_token (L "whois " ++ d ++ rest) = L "whois".
Proof.
  unfold head_token, shlex_split.
  change (shlex_run LWs [] false [] (L "whois " ++ d ++ rest))
    with (shlex_run LWs [] false [L "whois"] (d ++ rest)).
  destruct (shlex_run LWs [] false [L "whois"] (d ++ rest)) as [r |] eqn:E.
  - destruct (shlex_run_acc _ _ _ _ _ _ E) as [r' ->]. reflexivity.
  - reflexivity.
Qed.

Lemma head_token_curl (rest : str) :
  head_token (L "curl -I --max-time 10 " ++ rest) = L "curl".
Proof.
  unfold head_token, shlex_split.
  change (shlex_run LWs [] false [] (L "curl -I --max-time 10 " ++ rest))
    with (shlex_run LWs [] false
            [L "10"; L "--max-time"; L "-I"; L "curl"] rest).
  destruct (shlex_run LWs [] false [L "10"; L "--max-time"; L "-I"; L "curl"]
              rest) as [r |] eqn:E.
  - destruct (shlex_run_acc _ _ _ _ _ _ E) as [r' ->]. reflexivity.
  - reflexivity.
Qed.

Lemma proposed_command_shape (ts : str) (cfg : SessionConfig)
    (b : CommandBlock) (c : str) :
  In b (cli.propose ts cfg) -> In c (commands b) ->
  (head_token c = L "dig" \/ head_token c = L "whois"
   \/ (head_token c = L "curl" /\ contains (L " -I") c = true)).
Proof.
  intros Hb Hc. unfold cli.propose in Hb. apply in_app_or in Hb.
  destruct Hb as [Hb | Hb]; apply In_number in Hb;
    destruct Hb as (k & x & _ & ->); cbn [commands cli.domain_block
                                            cli.host_block] in Hc.
  - destruct Hc as [<- | [<- | [<- | []]]].
    + left. apply head_token_dig.
    + right. left. apply head_token_whois.
    + right. right. split.
      * apply (head_token_curl (L "https://" ++ x)).
      * apply (contains_inside (L " -I") (L "curl")
                 (L " --max-time 10 https://" ++ x)).
  - destruct Hc as [<- | [<- | []]]; right; right; split.
    + apply (head_token_curl (L "http://" ++ x)).
    + apply (contains_inside (L " -I") (L "curl")
               (L " --max-time 10 http://" ++ x)).
    + apply (head_token_curl (L "https://" ++ x)).
    + apply (contains_inside (L " -I") (L "curl")
               (L " --max-time 10 https://" ++ x)).
Qed.

(** X25: every command [propose] writes is classified low and
    read-only, whatever the domain or host it is written for, unless the
    name brings a deny pattern into the lowered command; in AUTO_READONLY
    mode the authorizer then allows it exactly when it is in scope. *)
Theorem proposed_commands_are_read_only (fs : FileSystem) (ts : str)
    (cfg : SessionConfig) (b : CommandBlock) (c : str) :
  In b (cli.propose ts cfg) -> In c (commands b) ->
  (first_denied DENY_PATTERNS (lower (strip c)) = None
   <-> risk_of (classify_and_check c) = low
       /\ read_only_ok (classify_and_check c) = true)
  /\ (first_denied DENY_PATTERNS (lower (strip c)) = None ->
      mode cfg = AUTO_READONLY ->
      forall ok reason,
        in_scope_command fs cfg c = Returned (ok, reason) ->
        exists d, enforce fs cfg c = Returned d /\ allow_execute d = ok).
Proof.
  intros Hb Hc.
  assert (Hlow : first_denied DENY_PATTERNS (lower (strip c)) = None ->
                 exists why, classify_and_check c = (low, true, why)).
  { intros Hd. unfold classify_and_check. cbv zeta. rewrite Hd.
    destruct (proposed_command_shape ts cfg b c Hb Hc)
      as [-> | [-> | [-> Hi]]].
    - eexists. reflexivity.
    - eexists. reflexivity.
    - cbn [mem existsb]. rewrite str_eqb_refl. cbn [orb]. rewrite Hi.
      eexists. reflexivity. }
  split; [split |].
  - intros Hd. destruct (Hlow Hd) as [why ->]. now split.
  - intros [Hr _].
    destruct (first_denied DENY_PATTERNS (lower (strip c))) as [pat |] eqn:Hd;
      [| reflexivity].
    rewrite (classify_denied c pat Hd) in Hr. discriminate Hr.
  - intros Hd Hm ok reason Hs. destruct (Hlow Hd) as [why Hw].
    unfold enforce, allow_execute. rewrite Hw, Hs.
    eexists. split; [reflexivity |].
    destruct ok; cbn [negb]; [| reflexivity].
    rewrite Hm. reflexivity.
Qed.

Lemma proposed_commands_are_read_only_witness :
  risk_of (classify_and_check (L "whois example.com | head -n 30")) = low
  /\ exists d,
       enforce plain_fs (config example_scope AUTO_READONLY)
               (L "whois example.com | head -n 30") = Returned d
       /\ allow_execute d = true.
Proof.
  destruct (proposed_commands_are_read_only plain_fs (L "20240101")
              (config example_scope AUTO_READONLY)
              (cli.domain_block (L "20240101") 1 (L "example.com"))
              (L "whois example.com | head -n 30"))
    as [H1 H2].
  - left. reflexivity.
  - right. left. reflexivity.
  - split; [exact (proj1 (proj1 H1 eq_refl)) |].
    exact (H2 eq_refl eq_refl true InScope eq_refl).
Defined.

(** * The memory of the AI loop *)

(** The strict decoder carries the text read so far along. *)
Lemma decode_from_strict_out (bs : list Byte.byte) :
  forall st out,
    Utf8.decode_from Utf8.Strict st out bs
    = option_map (app out) (Utf8.decode_from Utf8.Strict st [] bs).
Proof.
  induction bs as [| b r IH]; intros st out.
  - destruct st; simpl; [reflexivity | now rewrite app_nil_r].
  - assert (Hcp : forall st' cp,
               Utf8.decode_from Utf8.Strict st' (out ++ [cp]) r
               = option_map (app out)
                   (Utf8.decode_from Utf8.Strict st' ([] ++ [cp]) r)).
    { intros st' cp. rewrite (IH st' (out ++ [cp])), (IH st' ([] ++ [cp])).
      destruct (Utf8.decode_from Utf8.Strict st' [] r); simpl;
        [now rewrite <- app_assoc | reflexivity]. }
    cbn [Utf8.decode_from]. cbv zeta.
    destruct st as [p |].
    + destruct ((Utf8.lo p <=? Byte.to_N b)%N && (Byte.to_N b <=? Utf8.hi p)%N)%bool;
        [| reflexivity].
      destruct (Utf8.need p) as [| [| k]]; [apply Hcp | apply Hcp | apply IH].
    + destruct (Utf8.lead (Byte.to_N b)); [apply Hcp | apply IH | reflexivity].
Qed.

(** What the strict decoder makes of two texts in a row. *)
Lemma decode_from_strict_app (bs1 bs2 : list Byte.byte) :
  forall st out t1,
    Utf8.decode_from Utf8.Strict st out bs1 = Some t1 ->
    Utf8.decode_from Utf8.Strict st out (bs1 ++ bs2)
    = Utf8.decode_from Utf8.Strict None t1 bs2.
Proof.
  induction bs1 as [| b r IH]; intros st out t1.
  - destruct st; simpl; [discriminate | now intros [= <-]].
  - cbn [app Utf8.decode_from]. cbv zeta.
    destruct st as [p |].
    + destruct ((Utf8.lo p <=? Byte.to_N b)%N && (Byte.to_N b <=? Utf8.hi p)%N)%bool;
        [| discriminate].
      destruct (Utf8.need p) as [| [| k]]; apply IH.
    + destruct (Utf8.lead (Byte.to_N b)); [apply IH | apply IH | discriminate].
Qed.

Lemma decode_strict_app (bs1 bs2 : list Byte.byte) (t1 t2 : ustr) :
  Utf8.decode Utf8.Strict bs1 = Some t1 ->
  Utf8.decode Utf8.Strict bs2 = Some t2 ->
  Utf8.decode Utf8.Strict (bs1 ++ bs2) = Some (t1 ++ t2).
Proof.
  unfold Utf8.decode. intros H1 H2.
  rewrite (decode_from_strict_app bs1 bs2 None [] t1 H1).
  now rewrite decode_from_strict_out, H2.
Qed.

(** Bytes that end with a line feed decode to a text that ends with
    one. *)
Lemma decode_from_strict_line_feed (b : list Byte.byte) :
  forall st out t1,
    (forall p, st = Some p -> (128 <= Utf8.lo p)%N) ->
    Utf8.decode_from Utf8.Strict st out (b ++ [x0a]%byte) = Some t1 ->
    exists t, t1 = t ++ [10%N].
Proof.
  induction b as [| b0 r IH]; intros st out t1 Hst.
  - cbn [app Utf8.decode_from]. cbv zeta. destruct st as [p |].
    + specialize (Hst p eq_refl).
      assert (E : (Utf8.lo p <=? Byte.to_N x0a)%N = false).
      { apply N.leb_gt. change (Byte.to_N x0a) with 10%N. lia. }
      rewrite E. discriminate.
    + cbn. intros [= <-]. now exists out.
  - cbn [app Utf8.decode_from]. cbv zeta. destruct st as [p |].
    + destruct ((Utf8.lo p <=? Byte.to_N b0)%N
                && (Byte.to_N b0 <=? Utf8.hi p)%N)%bool; [| discriminate].
      destruct (Utf8.need p) as [| [| k]]; apply IH; try discriminate.
      intros q [= <-]. cbn. lia.
    + destruct (Utf8.lead (Byte.to_N b0)) as [cp | p |] eqn:El;
        [apply IH; discriminate | | discriminate].
      apply IH. intros q [= <-].
      pose proof (lead_completes b0 p El) as Hc.
      destruct (Utf8.need p); exact (proj1 Hc).
Qed.

(** A line feed ends the line being read, whatever follows. *)
Lemma text_lines_aux_app (t t2 : ustr) :
  forall cur acr,
    (acr = true -> cur = []) ->
    ai.text_lines_aux cur acr (t ++ 10%N :: t2)
    = ai.text_lines_aux cur acr (t ++ [10%N]) ++ ai.text_lines_aux [] false t2.
Proof.
  induction t as [| c t IH]; intros cur acr Hacr.
  - cbn [app ai.text_lines_aux]. destruct acr; cbn.
    + now rewrite (Hacr eq_refl).
    + reflexivity.
  - cbn [app ai.text_lines_aux].
    destruct (acr && (c =? 10)%N)%bool; [apply IH; discriminate |].
    destruct ((c =? 10) || (c =? 13))%bool%N.
    + cbn [app]. f_equal. apply IH. reflexivity.
    + apply IH. discriminate.
Qed.

Lemma text_lines_app (t1 t2 : ustr) :
  t1 = [] \/ (exists t, t1 = t ++ [10%N]) ->
  ai.text_lines (t1 ++ t2) = ai.text_lines t1 ++ ai.text_lines t2.
Proof.
  unfold ai.text_lines. intros [-> | [t ->]]; [reflexivity |].
  rewrite <- app_assoc. apply text_lines_aux_app. discriminate.
Qed.

(** A text without a line end, then a line feed, is one line. *)
Lemma text_lines_aux_line (t : ustr) :
  forall cur,
    forallb (fun c => negb ((c =? 10) || (c =? 13))%N) t = true ->
    ai.text_lines_aux cur false (t ++ [10%N]) = [cur ++ t ++ [10%N]].
Proof.
  induction t as [| c t IH]; intros cur H.
  - reflexivity.
  - cbn [forallb] in H. apply andb_true_iff in H. destruct H as [Hc Ht].
    apply negb_true_iff in Hc. cbn [app ai.text_lines_aux andb].
    rewrite Hc, (IH _ Ht). now rewrite <- app_assoc.
Qed.

Lemma read_messages_app (parse : ustr -> option ai.AIMessage)
    (a b : list ustr) :
  ai.read_messages parse (a ++ b)
  = ai.read_messages parse a ++ ai.read_messages parse b.
Proof. unfold ai.read_messages. apply flat_map_app. Qed.

Lemma load_all (bs : list Byte.byte) (parse : ustr -> option ai.AIMessage)
    (ms : list ai.AIMessage) :
  ai.load (ai.Holds bs) parse None = Returned ms
  <-> exists text, Utf8.decode Utf8.Strict bs = Some text
                   /\ ms = ai.read_messages parse (ai.text_lines text).
Proof.
  unfold ai.load. destruct (Utf8.decode Utf8.Strict bs) as [text |]; split.
  - intros [= <-]. now exists text.
  - intros (t & [= <-] & ->). reflexivity.
  - discriminate.
  - intros (t & H & _). discriminate H.
Qed.

(** Messages are loaded in the order of the bytes of the file. *)
Lemma load_app (bs1 bs2 : list Byte.byte)
    (parse : ustr -> option ai.AIMessage) (ms1 ms2 : list ai.AIMessage) :
  bs1 = [] \/ (exists b, bs1 = b ++ [x0a]%byte) ->
  ai.load (ai.Holds bs1) parse None = Returned ms1 ->
  ai.load (ai.Holds bs2) parse None = Returned ms2 ->
  ai.load (ai.Holds (bs1 ++ bs2)) parse None = Returned (ms1 ++ ms2).
Proof.
  intros Hend H1 H2.
  apply load_all in H1. destruct H1 as (t1 & Hd1 & ->).
  apply load_all in H2. destruct H2 as (t2 & Hd2 & ->).
  apply load_all. exists (t1 ++ t2).
  split; [now apply decode_strict_app |].
  rewrite <- read_messages_app. f_equal. symmetry. apply text_lines_app.
  destruct Hend as [-> | [b ->]].
  - left. now injection Hd1 as <-.
  - right. apply (decode_from_strict_line_feed b None [] t1);
      [discriminate | exact Hd1].
Qed.

Lemma load_line (line : list Byte.byte) (text : ustr)
    (parse : ustr -> option ai.AIMessage) :
  Utf8.decode Utf8.Strict line = Some text ->
  forallb (fun c => negb ((c =? 10) || (c =? 13))%N) text = true ->
  ai.load (ai.Holds (line ++ [x0a]%byte)) parse None
  = Returned match parse (text ++ [10%N]) with
             | Some m => [m]
             | None => []
             end.
Proof.
  intros Hd Hnl. apply load_all. exists (text ++ [10%N]). split.
  - now apply decode_strict_app.
  - unfold ai.text_lines. rewrite (text_lines_aux_line text [] Hnl).
    cbn [app ai.read_messages flat_map]. now rewrite app_nil_r.
Qed.

(** X26: [load] gives the messages that can be read in the order of the
    file.  A missing file gives none, and bytes that are not UTF-8 raise
    [UnicodeDecodeError] whatever [last_n] is.  The messages of a file
    that ends with a line feed come before the messages of what is
    written after it; a line without a line end inside gives its message,
    or none when it cannot be read.  So a message added with [append] to
    such a file, when its JSON is one line that reads back as the
    message, is loaded last, after the messages there were.  Of the
    messages of the file a positive [last_n] keeps the last [last_n]
    (all when there are fewer), a negative one drops the first
    [-last_n], and zero or none keeps all. *)
Theorem load_gives_the_last_messages (parse : ustr -> option ai.AIMessage) :
  (forall last_n, ai.load ai.Missing parse last_n = Returned [])
  /\ (forall bs last_n,
        Utf8.decode Utf8.Strict bs = None <->
        ai.load (ai.Holds bs) parse last_n = Raised UnicodeDecodeError)
  /\ (forall bs1 bs2 ms1 ms2,
        bs1 = [] \/ (exists b, bs1 = b ++ [x0a]%byte) ->
        ai.load (ai.Holds bs1) parse None = Returned ms1 ->
        ai.load (ai.Holds bs2) parse None = Returned ms2 ->
        ai.load (ai.Holds (bs1 ++ bs2)) parse None = Returned (ms1 ++ ms2))
  /\ (forall line text,
        Utf8.decode Utf8.Strict line = Some text ->
        forallb (fun c => negb ((c =? 10) || (c =? 13))%N) text = true ->
        ai.load (ai.Holds (line ++ [x0a]%byte)) parse None
        = Returned match parse (text ++ [10%N]) with
                   | Some m => [m]
                   | None => []
                   end)
  /\ (forall file ms dumps msg text,
        file = ai.Missing \/ file = ai.Holds []
        \/ (exists b, file = ai.Holds (b ++ [x0a]%byte)) ->
        ai.load file parse None = Returned ms ->
        Utf8.decode Utf8.Strict (dumps msg) = Some text ->
        forallb (fun c => negb ((c =? 10) || (c =? 13))%N) text = true ->
        parse (text ++ [10%N]) = Some msg ->
        exists after,
          ai.append file dumps msg = Returned after
          /\ ai.load after parse None = Returned (ms ++ [msg]))
  /\ (forall bs all last_n,
        ai.load (ai.Holds bs) parse None = Returned all ->
        exists older kept,
          ai.load (ai.Holds bs) parse last_n = Returned kept
          /\ all = older ++ kept
          /\ List.length kept
             = match last_n with
               | Some (Zpos n) => Nat.min (Pos.to_nat n) (List.length all)
               | Some (Zneg n) => List.length all - Pos.to_nat n
               | _ => List.length all
               end).
Proof.
  split; [reflexivity |].
  split.
  { intros bs last_n. unfold ai.load.
    destruct (Utf8.decode Utf8.Strict bs); split; congruence. }
  split; [intros bs1 bs2 ms1 ms2; apply load_app |].
  split; [intros line text; apply load_line |].
  split.
  { intros file ms dumps msg text Hfile Hload Hd Hnl Hparse.
    pose proof (load_line (dumps msg) text parse Hd Hnl) as Hline.
    rewrite Hparse in Hline.
    destruct Hfile as [-> | [-> | [b ->]]]; eexists; (split; [reflexivity |]).
    - injection Hload as <-. exact Hline.
    - injection Hload as <-. exact Hline.
    - apply load_app; [right; now exists b | exact Hload | exact Hline]. }
  intros bs all last_n. unfold ai.load.
  destruct (Utf8.decode Utf8.Strict bs) as [text |]; [| discriminate].
  cbv zeta. intros [= <-].
  set (out := ai.read_messages parse (ai.text_lines text)).
  destruct last_n as [[| n | n] |].
  - exists [], out. now repeat split.
  - exists (firstn (List.length out - Pos.to_nat n) out),
           (lastn (Pos.to_nat n) out).
    split; [reflexivity |]. unfold lastn.
    split; [now rewrite firstn_skipn |]. rewrite length_skipn. lia.
  - exists (firstn (Pos.to_nat n) out), (skipn (Pos.to_nat n) out).
    split; [reflexivity |].
    split; [now rewrite firstn_skipn |]. now rewrite length_skipn.
  - exists [], out. now repeat split.
Qed.

Lemma load_gives_the_last_messages_witness :
  ai.load (ai.Holds ([x61; x0a] ++ [x62; x0a])%byte)
          (fun l => Some (ai.mkAIMessage (L "user") l)) None
  = Returned ([ai.mkAIMessage (L "user") [97; 10]%N]
                ++ [ai.mkAIMessage (L "user") [98; 10]%N]).
Proof.
  apply (proj1 (proj2 (proj2 (load_gives_the_last_messages _)))).
  - right. now exists [x61]%byte.
  - reflexivity.
  - reflexivity.
Defined.
